(** * Fee-Tracker: classifier, ledger and proof-of-history chain

    A shallow embedding of the fee-event classifier ([src/lib/classifier.ts]),
    the burn-percentage and badge functions ([src/lib/badges.ts]), the ledger
    ingestion path ([src/workers/indexer.ts], [src/lib/db.ts]) and the
    proof-of-history chain ([src/lib/proof-of-history.ts]), with the
    properties the specification states about them.  Further parts cover
    the validators ([src/lib/validation.ts], [src/lib/utils.ts]), the
    rate limiters ([src/lib/rate-limit.ts], [src/middleware.ts]) and the
    authentication of the sync route ([src/app/api/sync/route.ts]).

    Conventions of the embedding:
    - a JavaScript [bigint] is a [Z]; a [number] that the code only uses as
      an integer counter ([sequence], [slot]) is a [Z] as well, which the
      doubles of the code agree with on the safe integers (below 2^53 in
      absolute value); a percentage is a rational, which they agree with
      up to 2^50 hundredths;
    - the store is its rows with its unique indexes; an insertion that a
      column type turns down is outside it;
    - a JavaScript string is a [string] (a list of bytes, UTF-8);
    - [undefined]/missing optional fields are [option];
    - a thrown exception is [None] (or an error value) of the result. *)

From Stdlib Require Import ZArith List String Ascii Bool Lia QArith Qround.
From Stdlib Require Import Sorting.Permutation Lqa.
From stdpp Require Import base list.
From stdpp Require strings gmap.
Arguments String.append !s1 s2.
Import ListNotations.
Local Open Scope string_scope.
Local Open Scope list_scope.
Local Open Scope Z_scope.

(* ===================================================================== *)
(** * Platform: SHA-256 (Node's [createHash("sha256")], FIPS 180-4)       *)
(* ===================================================================== *)

Module SHA256.

Definition w32 (x : Z) : Z := Z.land x 0xffffffff.
Definition add32 (x y : Z) : Z := w32 (x + y).
Definition not32 (x : Z) : Z := Z.lxor x 0xffffffff.
Definition rotr (n x : Z) : Z :=
  Z.lor (Z.shiftr x n) (w32 (Z.shiftl x (32 - n))).

Definition Ch (x y z : Z) : Z := Z.lxor (Z.land x y) (Z.land (not32 x) z).
Definition Maj (x y z : Z) : Z :=
  Z.lxor (Z.lxor (Z.land x y) (Z.land x z)) (Z.land y z).
Definition Sigma0 (x : Z) : Z := Z.lxor (Z.lxor (rotr 2 x) (rotr 13 x)) (rotr 22 x).
Definition Sigma1 (x : Z) : Z := Z.lxor (Z.lxor (rotr 6 x) (rotr 11 x)) (rotr 25 x).
Definition sigma0 (x : Z) : Z := Z.lxor (Z.lxor (rotr 7 x) (rotr 18 x)) (Z.shiftr x 3).
Definition sigma1 (x : Z) : Z := Z.lxor (Z.lxor (rotr 17 x) (rotr 19 x)) (Z.shiftr x 10).

(** The first sixty-four primes, by trial division. *)
Definition is_prime (n : Z) : bool :=
  (1 <? n) && forallb (fun d => negb (n mod d =? 0) || (n <=? d))
                      (map Z.of_nat (seq 2 16)).

Definition primes64 : list Z := List.filter is_prime (map Z.of_nat (seq 2 310)).

(** The integer [k]-th root of [n], built bit by bit from bit [b - 1] down. *)
Fixpoint iroot (k : Z) (n : Z) (b : nat) (r : Z) : Z :=
  match b with
  | O => r
  | S b' =>
      let r' := r + 2 ^ Z.of_nat b' in
      iroot k n b' (if r' ^ k <=? n then r' else r)
  end.

(** Round constants: the first 32 bits of the fractional parts of the cube
    roots of the first sixty-four primes. *)
Definition K : list Z :=
  Eval vm_compute in map (fun p => w32 (iroot 3 (Z.shiftl p 96) 40 0)) primes64.

(** Initial hash value: the first 32 bits of the fractional parts of the
    square roots of the first eight primes. *)
Definition H0 : list Z :=
  Eval vm_compute in map (fun p => w32 (iroot 2 (Z.shiftl p 64) 40 0)) (firstn 8 primes64).

Definition byte_of_ascii (c : ascii) : Z := Z.of_N (N_of_ascii c).

(** Big-endian bytes of [x], [n] of them. *)
Fixpoint be_bytes (n : nat) (x : Z) : list Z :=
  match n with
  | O => []
  | S n' => Z.land (Z.shiftr x (8 * Z.of_nat n')) 0xff :: be_bytes n' x
  end.

(** Padding: the byte 0x80, zeros up to 56 mod 64, the bit length on 64 bits. *)
Definition pad (msg : list Z) : list Z :=
  let len := Z.of_nat (List.length msg) in
  let zeros := Z.to_nat ((55 - len) mod 64) in
  msg ++ [0x80] ++ repeat 0 zeros ++ be_bytes 8 (8 * len).

Fixpoint words (fuel : nat) (bs : list Z) : list Z :=
  match fuel, bs with
  | S f, b0 :: b1 :: b2 :: b3 :: rest =>
      (Z.shiftl b0 24 + Z.shiftl b1 16 + Z.shiftl b2 8 + b3) :: words f rest
  | _, _ => []
  end.

(** The message schedule: the 16 words of the block, then 48 derived ones.
    [win] holds the last sixteen words, oldest first. *)
Fixpoint schedule (n : nat) (win : list Z) : list Z :=
  match n with
  | O => []
  | S n' =>
      let w := add32 (add32 (sigma1 (nth 14 win 0)) (nth 9 win 0))
                     (add32 (sigma0 (nth 1 win 0)) (nth 0 win 0)) in
      w :: schedule n' (tl win ++ [w])
  end.

Record regs := Regs { ra : Z; rb : Z; rc : Z; rd : Z;
                      re : Z; rf : Z; rg : Z; rh : Z }.

Definition round (s : regs) (kw : Z * Z) : regs :=
  let '(k, w) := kw in
  let t1 := add32 (add32 (add32 (rh s) (Sigma1 (re s)))
                         (add32 (Ch (re s) (rf s) (rg s)) k)) w in
  let t2 := add32 (Sigma0 (ra s)) (Maj (ra s) (rb s) (rc s)) in
  Regs (add32 t1 t2) (ra s) (rb s) (rc s) (add32 (rd s) t1) (re s) (rf s) (rg s).

Definition compress (h : regs) (block : list Z) : regs :=
  let w := block ++ schedule 48 block in
  let s := fold_left round (combine K w) h in
  Regs (add32 (ra h) (ra s)) (add32 (rb h) (rb s)) (add32 (rc h) (rc s))
       (add32 (rd h) (rd s)) (add32 (re h) (re s)) (add32 (rf h) (rf s))
       (add32 (rg h) (rg s)) (add32 (rh h) (rh s)).

Fixpoint blocks (fuel : nat) (ws : list Z) (h : regs) : regs :=
  match fuel, ws with
  | S f, _ :: _ => blocks f (skipn 16 ws) (compress h (firstn 16 ws))
  | _, _ => h
  end.

Definition hex_digit (d : Z) : ascii :=
  if d <? 10 then ascii_of_N (Z.to_N (48 + d)) else ascii_of_N (Z.to_N (87 + d)).

Fixpoint hex_word (n : nat) (x : Z) : string :=
  match n with
  | O => EmptyString
  | S n' => String (hex_digit (Z.land (Z.shiftr x (4 * Z.of_nat n')) 0xf))
                   (hex_word n' x)
  end.

Definition digest (msg : list Z) : regs :=
  let bs := pad msg in
  let ws := words (List.length bs) bs in
  blocks (List.length ws) ws
    (Regs (nth 0 H0 0) (nth 1 H0 0) (nth 2 H0 0) (nth 3 H0 0)
          (nth 4 H0 0) (nth 5 H0 0) (nth 6 H0 0) (nth 7 H0 0)).

(** [createHash("sha256").update(data).digest("hex")] *)
Definition sha256_hex (data : string) : string :=
  let r := digest (map byte_of_ascii (list_ascii_of_string data)) in
  String.concat ""
    (map (hex_word 8) [ra r; rb r; rc r; rd r; re r; rf r; rg r; rh r]).

End SHA256.

Definition sha256_hex := SHA256.sha256_hex.
Arguments sha256_hex : simpl never.

Example sha256_abc :
  sha256_hex "abc" = "ba7816bf8f01cfea414140de5dae2223b00361a396177a9cb410ff61f20015ad".
Proof. vm_compute. reflexivity. Qed.

Example sha256_empty :
  sha256_hex "" = "e3b0c44298fc1c149afbf4c8996fb92427ae41e4649b934ca495991b7852b855".
Proof. vm_compute. reflexivity. Qed.

Example sha256_two_blocks :
  sha256_hex "abcdbcdecdefdefgefghfghighijhijkijkljklmklmnlmnomnopnopq"
  = "248d6a61d20638b8e5c026930c3e6039a33ce45964ff2167f6ecedd419db06c1".
Proof. vm_compute. reflexivity. Qed.

(* ===================================================================== *)
(** * Platform: numbers and dates as text                                *)
(* ===================================================================== *)

Definition is_digit (c : ascii) : bool :=
  let n := N_of_ascii c in (48 <=? n)%N && (n <=? 57)%N.

Fixpoint all_digits (s : string) : bool :=
  match s with
  | EmptyString => true
  | String c s' => is_digit c && all_digits s'
  end.

(** [/^\d+$/.test(s)]: one or more ASCII digits and nothing else. *)
Definition is_digit_string (s : string) : bool :=
  match s with
  | EmptyString => false
  | _ => all_digits s
  end.

Definition digit_value (c : ascii) : Z := Z.of_N (N_of_ascii c) - 48.

(** The character of the last decimal digit of [d]. *)
Definition digit_char (d : Z) : ascii := ascii_of_N (Z.to_N (48 + d mod 10)).

(** The decimal digits of [n >= 0], most significant first, in front of
    [k].  [fuel] bounds the number of digits. *)
Fixpoint digits_k (fuel : nat) (n : Z) (k : string) : string :=
  match fuel with
  | O => k
  | S f =>
      let k' := String (digit_char n) k in
      if n <? 10 then k' else digits_k f (n / 10) k'
  end.

(** [z.toString()] in front of [k]; a number has no more decimal digits
    than binary ones. *)
Definition Z_toString_k (z : Z) (k : string) : string :=
  if z <? 0 then String "-" (digits_k (S (Z.to_nat (Z.log2 (- z)))) (- z) k)
  else digits_k (S (Z.to_nat (Z.log2 z))) z k.

(** [n.toString()] of a [bigint], and of a [number] holding an integer:
    base-10 digits, with a leading minus sign for negative values. *)
Definition Z_toString (z : Z) : string := Z_toString_k z "".

(** Reading the digits at the head of [s]: the number they spell after
    those already read ([acc]), and what follows them. *)
Fixpoint scan_digits (acc : Z) (s : string) : Z * string :=
  match s with
  | EmptyString => (acc, s)
  | String c s' =>
      if is_digit c then scan_digits (10 * acc + digit_value c) s' else (acc, s)
  end.

(** [k] does not go on with a digit. *)
Definition no_digit_head (k : string) : bool :=
  match k with
  | String c _ => negb (is_digit c)
  | EmptyString => true
  end.

(** The number a string of digits spells. *)
Definition digits_value (s : string) : Z := fst (scan_digits 0 s).

(** [BigInt(s)] for a string [s] holding base-10 digits with an optional
    minus sign; [None] is the thrown [SyntaxError].  (The whitespace, [+]
    and radix-prefix forms that [BigInt] also accepts are not modelled.) *)
Definition BigInt_of_string (s : string) : option Z :=
  match s with
  | EmptyString => None
  | String c s' =>
      if Ascii.eqb c "-"
      then (if is_digit_string s' then Some (- digits_value s') else None)
      else (if is_digit_string s then Some (digits_value s) else None)
  end.

(** A [Date] is its time value: milliseconds since the epoch.  The platform
    keeps it within 100 million days of the epoch; an invalid date
    ([NaN] time value) is outside the model. *)
Definition Date := Z.
Definition valid_time (t : Date) : Prop :=
  -8640000000000000 <= t <= 8640000000000000.

Definition msPerDay : Z := 86400000.

(** Proleptic Gregorian calendar: the civil date of a day number (days since
    1970-01-01), computed on 400-year eras that start on 1 March. *)
Definition doe_civil (doe : Z) : Z * Z * Z :=
  let yoe := (doe - doe / 1460 + doe / 36524 - doe / 146096) / 365 in
  let doy := doe - (365 * yoe + yoe / 4 - yoe / 100) in
  let mp := (5 * doy + 2) / 153 in
  let d := doy - (153 * mp + 2) / 5 + 1 in
  let m := if mp <? 10 then mp + 3 else mp - 9 in
  (yoe, m, d).

Definition civil_from_days (z : Z) : Z * Z * Z :=
  let z := z + 719468 in
  let era := z / 146097 in
  let '(yoe, m, d) := doe_civil (z - era * 146097) in
  let y := yoe + era * 400 in
  ((if m <=? 2 then y + 1 else y), m, d).

(** The day number of a civil date (the platform's [MakeDay]). *)
Definition days_from_civil (y m d : Z) : Z :=
  let y := if m <=? 2 then y - 1 else y in
  let era := y / 400 in
  let yoe := y - era * 400 in
  let doy := (153 * (if 2 <? m then m - 3 else m + 9) + 2) / 5 + d - 1 in
  let doe := yoe * 365 + yoe / 4 - yoe / 100 + doy in
  era * 146097 + doe - 719468.

Definition is_leap (y : Z) : bool :=
  (y mod 4 =? 0) && (negb (y mod 100 =? 0) || (y mod 400 =? 0)).

Definition days_in_month (y m : Z) : Z :=
  if m =? 2 then (if is_leap y then 29 else 28)
  else if (m =? 4) || (m =? 6) || (m =? 9) || (m =? 11) then 30 else 31.

(** [v] on exactly [n] decimal digits, zero-padded on the left
    ([String(v).padStart(n, "0")] for [0 <= v < 10^n]). *)
Fixpoint pad_digits (n : nat) (v : Z) : string :=
  match n with
  | O => EmptyString
  | S n' => String (digit_char (v / 10 ^ Z.of_nat n')) (pad_digits n' v)
  end.

(** The year of an ISO date-time: four digits for years 0 to 9999, else a
    sign and six digits. *)
Definition iso_year (y : Z) : string :=
  if (0 <=? y) && (y <=? 9999) then pad_digits 4 y
  else String (if y <? 0 then "-"%char else "+"%char) (pad_digits 6 (Z.abs y)).

(** [date.toISOString()]: [YYYY-MM-DDTHH:mm:ss.sssZ] in UTC. *)
Definition toISOString (t : Date) : string :=
  let day := t / msPerDay in
  let ms := t mod msPerDay in
  let '(y, m, d) := civil_from_days day in
  String.concat ""
    [ iso_year y; "-"; pad_digits 2 m; "-"; pad_digits 2 d; "T";
      pad_digits 2 (ms / 3600000); ":"; pad_digits 2 (ms / 60000 mod 60); ":";
      pad_digits 2 (ms / 1000 mod 60); "."; pad_digits 3 (ms mod 1000); "Z" ].

Example toISOString_epoch : toISOString 0 = "1970-01-01T00:00:00.000Z".
Proof. vm_compute. reflexivity. Qed.
Example toISOString_2024 : toISOString 1709210096789 = "2024-02-29T12:34:56.789Z".
Proof. vm_compute. reflexivity. Qed.
Example toISOString_before_epoch : toISOString (-1) = "1969-12-31T23:59:59.999Z".
Proof. vm_compute. reflexivity. Qed.
Example toISOString_max : toISOString 8640000000000000 = "+275760-09-13T00:00:00.000Z".
Proof. vm_compute. reflexivity. Qed.
Example toISOString_min : toISOString (-8640000000000000) = "-271821-04-20T00:00:00.000Z".
Proof. vm_compute. reflexivity. Qed.
Example toISOString_year0 : toISOString (-62167219200000) = "0000-01-01T00:00:00.000Z".
Proof. vm_compute. reflexivity. Qed.

(** ** Reading a date back *)

(** Exactly [n] digits at the head of [s]: the number they spell after
    [acc], and the rest. *)
Fixpoint read_digits (n : nat) (acc : Z) (s : string) : option (Z * string) :=
  match n with
  | O => Some (acc, s)
  | S n' =>
      match s with
      | EmptyString => None
      | String c s' =>
          if is_digit c then read_digits n' (10 * acc + digit_value c) s' else None
      end
  end.

(** The character [c] at the head of [s]. *)
Definition expect (c : ascii) (s : string) : option string :=
  match s with
  | EmptyString => None
  | String c' s' => if Ascii.eqb c' c then Some s' else None
  end.

(** The year of an ISO date-time: [YYYY], or a sign and [YYYYYY] (the
    year [-000000] is not one). *)
Definition read_year (s : string) : option (Z * string) :=
  match s with
  | EmptyString => None
  | String c s' =>
      if Ascii.eqb c "+" then read_digits 6 0 s'
      else if Ascii.eqb c "-" then
        '(y, rest) ← read_digits 6 0 s';
        if y =? 0 then None else Some (- y, rest)
      else read_digits 4 0 s
  end.

(** [new Date(s)] for a string in the full ISO format with the [Z] zone,
    [YYYY-MM-DDTHH:mm:ss.sssZ]; field values are checked as V8 does (month
    1 to 12, day 1 to 31, and so on) and a day past the end of its month
    counts on into the next.  [None] is an invalid date; the other formats
    that [Date] reads are not modelled and read as invalid. *)
Definition Date_parse (s : string) : option Date :=
  '(y, s) ← read_year s;
  s ← expect "-" s;
  '(m, s) ← read_digits 2 0 s;
  s ← expect "-" s;
  '(d, s) ← read_digits 2 0 s;
  s ← expect "T" s;
  '(hh, s) ← read_digits 2 0 s;
  s ← expect ":" s;
  '(mm, s) ← read_digits 2 0 s;
  s ← expect ":" s;
  '(ss, s) ← read_digits 2 0 s;
  s ← expect "." s;
  '(ms, s) ← read_digits 3 0 s;
  s ← expect "Z" s;
  match s with
  | EmptyString =>
      if (1 <=? m) && (m <=? 12) && (1 <=? d) && (d <=? 31)
         && (hh <=? 23) && (mm <=? 59) && (ss <=? 59)
      then
        let t := days_from_civil y m d * msPerDay
                 + hh * 3600000 + mm * 60000 + ss * 1000 + ms in
        if (-8640000000000000 <=? t) && (t <=? 8640000000000000)
        then Some t else None
      else None
  | _ => None
  end.

(* ===================================================================== *)
(** * Platform: JavaScript values and strings                            *)
(* ===================================================================== *)

(** A [number]: the finite ones are modelled exactly, as rationals (every
    finite double is one); arithmetic on them is exact in the model. *)
Inductive JsNumber :=
| Finite (q : Q)
| NaN
| Infinity (negative : bool).

(** A value of type [unknown], as far as [typeof] and truthiness tell
    values apart. *)
Inductive JsValue :=
| VUndefined
| VNull
| VBool (b : bool)
| VNumber (n : JsNumber)
| VBigInt (z : Z)
| VString (s : string)
| VObject.

(** Truthiness ([!v], [if (v)]). *)
Definition truthy (v : JsValue) : bool :=
  match v with
  | VUndefined | VNull => false
  | VBool b => b
  | VNumber (Finite q) => negb (Qeq_bool q 0)
  | VNumber NaN => false
  | VNumber (Infinity _) => true
  | VBigInt z => negb (z =? 0)
  | VString s => negb (String.eqb s "")
  | VObject => true
  end.

(** [hay.includes(needle)] *)
Fixpoint includes (hay needle : string) : bool :=
  if String.prefix needle hay then true
  else match hay with
       | EmptyString => false
       | String _ hay' => includes hay' needle
       end.

Definition lower_char (c : ascii) : ascii :=
  let n := N_of_ascii c in
  if (65 <=? n)%N && (n <=? 90)%N then ascii_of_N (n + 32) else c.

(** [s.toLowerCase()], on the ASCII letters. *)
Fixpoint toLowerCase (s : string) : string :=
  match s with
  | EmptyString => EmptyString
  | String c s' => String (lower_char c) (toLowerCase s')
  end.

(** ["0".repeat(64)] and the like. *)
Fixpoint string_repeat (s : string) (n : nat) : string :=
  match n with
  | O => EmptyString
  | S n' => (s ++ string_repeat s n')%string
  end.

(** [a || []] on an array that may be missing. *)
Definition or_empty {A} (o : option (list A)) : list A :=
  match o with Some l => l | None => [] end.

(** [array.find(p)] is [List.find]; [array.some(p)] is [existsb]. *)

(* ===================================================================== *)
(** * Platform: JSON ([JSON.stringify], [JSON.parse])                     *)
(* ===================================================================== *)

(** A JSON document.  Numbers are the integers; an object is the list of
    its members in document order. *)
#[local] Unset Elimination Schemes.
Inductive json :=
| JNull
| JBool (b : bool)
| JNumber (n : Z)
| JString (s : string)
| JArray (items : list json)
| JObject (members : list (string * json)).
#[local] Set Elimination Schemes.

(** ** Printing, with the indentation of [JSON.stringify(v, null, 2)] *)

Fixpoint spaces_k (n : nat) (k : string) : string :=
  match n with
  | O => k
  | S n' => String " " (spaces_k n' k)
  end.

(** A line break and [n] spaces, in front of [k]. *)
Definition newline_k (n : nat) (k : string) : string :=
  String "010" (spaces_k n k).

Definition hex_char (d : N) : ascii :=
  if (d <? 10)%N then ascii_of_N (48 + d) else ascii_of_N (87 + d).

(** One character of a quoted string: the quote, the backslash and the
    control characters are escaped. *)
Definition escape_char (c : ascii) (k : string) : string :=
  let n := N_of_ascii c in
  if Ascii.eqb c "034" then String "092" (String "034" k)
  else if Ascii.eqb c "092" then String "092" (String "092" k)
  else if (n <? 32)%N then
    if (n =? 8)%N then String "092" (String "b" k)
    else if (n =? 9)%N then String "092" (String "t" k)
    else if (n =? 10)%N then String "092" (String "n" k)
    else if (n =? 12)%N then String "092" (String "f" k)
    else if (n =? 13)%N then String "092" (String "r" k)
    else String "092" (String "u" (String "0" (String "0"
           (String (hex_char (n / 16)) (String (hex_char (n mod 16)) k)))))
  else String c k.

Fixpoint quote_body (s : string) (k : string) : string :=
  match s with
  | EmptyString => String "034" k
  | String c s' => escape_char c (quote_body s' k)
  end.

(** The quoted form of [s], in front of [k]. *)
Definition quote_k (s : string) (k : string) : string :=
  String "034" (quote_body s k).

Section PrintItems.
Context {A : Type}.
Variable print_item : A -> string -> string.
Variable indent : nat.

(** The items of an array or object, one per line. *)
Fixpoint print_items (l : list A) (k : string) : string :=
  match l with
  | [] => k
  | x :: l' =>
      match l' with
      | [] => print_item x k
      | _ :: _ => print_item x (String "," (newline_k indent (print_items l' k)))
      end
  end.

End PrintItems.

(** The text of [v] at indentation [indent], in front of [k]. *)
Fixpoint print_value (v : json) (indent : nat) (k : string) : string :=
  match v with
  | JNull => ("null" ++ k)%string
  | JBool true => ("true" ++ k)%string
  | JBool false => ("false" ++ k)%string
  | JNumber n => Z_toString_k n k
  | JString s => quote_k s k
  | JArray [] => ("[]" ++ k)%string
  | JArray items =>
      String "["
        (newline_k (indent + 2)
           (print_items (fun x => print_value x (indent + 2)) (indent + 2) items
              (newline_k indent (String "]" k))))
  | JObject [] => ("{}" ++ k)%string
  | JObject members =>
      String "{"
        (newline_k (indent + 2)
           (print_items
              (fun m k => quote_k (fst m)
                            (String ":" (String " " (print_value (snd m) (indent + 2) k))))
              (indent + 2) members
              (newline_k indent (String "}" k))))
  end.

(** [JSON.stringify(v, null, 2)] *)
Definition JSON_stringify (v : json) : string := print_value v 0 "".

(** ** Parsing *)

Definition is_ws (c : ascii) : bool :=
  Ascii.eqb c " " || Ascii.eqb c "009" || Ascii.eqb c "010" || Ascii.eqb c "013".

Fixpoint skip_ws (s : string) : string :=
  match s with
  | EmptyString => s
  | String c s' => if is_ws c then skip_ws s' else s
  end.

Definition hex_value (c : ascii) : option N :=
  let n := N_of_ascii c in
  if (48 <=? n)%N && (n <=? 57)%N then Some (n - 48)%N
  else if (97 <=? n)%N && (n <=? 102)%N then Some (n - 87)%N
  else if (65 <=? n)%N && (n <=? 70)%N then Some (n - 55)%N
  else None.

(** The character of a simple escape. *)
Definition unescape (e : ascii) : option ascii :=
  if Ascii.eqb e "034" then Some "034"%char
  else if Ascii.eqb e "092" then Some "092"%char
  else if Ascii.eqb e "/" then Some "/"%char
  else if Ascii.eqb e "b" then Some "008"%char
  else if Ascii.eqb e "t" then Some "009"%char
  else if Ascii.eqb e "n" then Some "010"%char
  else if Ascii.eqb e "f" then Some "012"%char
  else if Ascii.eqb e "r" then Some "013"%char
  else None.

(** A string after its opening quote: the characters up to the closing
    quote, and what follows it.  A [\u] escape is read when it names an
    ASCII character (the others need UTF-16 and are not modelled). *)
Fixpoint parse_string_body (s : string) : option (string * string) :=
  match s with
  | EmptyString => None
  | String c r =>
      if Ascii.eqb c "034" then Some (EmptyString, r)
      else if Ascii.eqb c "092" then
        match r with
        | EmptyString => None
        | String e r' =>
            if Ascii.eqb e "u" then
              match r' with
              | String h1 (String h2 (String h3 (String h4 r''))) =>
                  match hex_value h1, hex_value h2, hex_value h3, hex_value h4 with
                  | Some a, Some b, Some c', Some d =>
                      let code := (((a * 16 + b) * 16 + c') * 16 + d)%N in
                      if (code <? 128)%N then
                        '(body, rest) ← parse_string_body r'';
                        Some (String (ascii_of_N code) body, rest)
                      else None
                  | _, _, _, _ => None
                  end
              | _ => None
              end
            else
              match unescape e with
              | Some c' =>
                  '(body, rest) ← parse_string_body r';
                  Some (String c' body, rest)
              | None => None
              end
        end
      else if (N_of_ascii c <? 32)%N then None
      else
        '(body, rest) ← parse_string_body r;
        Some (String c body, rest)
  end.

(** A number: an optional minus sign and digits without a leading zero.
    A fraction or an exponent is not an integer and is not modelled. *)
Definition parse_number (s : string) : option (Z * string) :=
  let '(negative, digits) :=
    match s with
    | String c s' => if Ascii.eqb c "-" then (true, s') else (false, s)
    | EmptyString => (false, s)
    end in
  match digits with
  | EmptyString => None
  | String c digits' =>
      if is_digit c then
        let leading_zero :=
          Ascii.eqb c "0"
          && match digits' with String c' _ => is_digit c' | EmptyString => false end in
        let '(n, rest) := scan_digits 0 digits in
        let more :=
          match rest with
          | String c' _ => Ascii.eqb c' "." || Ascii.eqb c' "e" || Ascii.eqb c' "E"
          | EmptyString => false
          end in
        if leading_zero || more then None
        else Some (if negative then - n else n, rest)
      else None
  end.

(** The literal [word] at the head of [s]. *)
Fixpoint expect_word (word : string) (s : string) : option string :=
  match word with
  | EmptyString => Some s
  | String c word' =>
      match s with
      | EmptyString => None
      | String c' s' => if Ascii.eqb c c' then expect_word word' s' else None
      end
  end.

(** A value at the head of [s] (after white space), and what follows it.
    [parse_elements] reads the elements of an array after its bracket or a
    comma, up to the closing bracket; [parse_members] does the same for an
    object.  [fuel] bounds the number of nested calls. *)
Fixpoint parse_value (fuel : nat) (s : string) : option (json * string) :=
  match fuel with
  | O => None
  | S fuel' =>
      match skip_ws s with
      | EmptyString => None
      | String c r =>
          if is_digit c || Ascii.eqb c "-" then
            '(n, rest) ← parse_number (String c r); Some (JNumber n, rest)
          else if Ascii.eqb c "034" then
            '(str, rest) ← parse_string_body r; Some (JString str, rest)
          else if Ascii.eqb c "[" then
            match skip_ws r with
            | String c' r' =>
                if Ascii.eqb c' "]" then Some (JArray [], r')
                else '(items, rest) ← parse_elements fuel' r; Some (JArray items, rest)
            | EmptyString => None
            end
          else if Ascii.eqb c "{" then
            match skip_ws r with
            | String c' r' =>
                if Ascii.eqb c' "}" then Some (JObject [], r')
                else '(members, rest) ← parse_members fuel' r; Some (JObject members, rest)
            | EmptyString => None
            end
          else if Ascii.eqb c "n" then rest ← expect_word "ull" r; Some (JNull, rest)
          else if Ascii.eqb c "t" then rest ← expect_word "rue" r; Some (JBool true, rest)
          else if Ascii.eqb c "f" then rest ← expect_word "alse" r; Some (JBool false, rest)
          else None
      end
  end
with parse_elements (fuel : nat) (s : string) : option (list json * string) :=
  match fuel with
  | O => None
  | S fuel' =>
      '(v, rest) ← parse_value fuel' s;
      match skip_ws rest with
      | String c r =>
          if Ascii.eqb c "," then
            '(items, rest') ← parse_elements fuel' r; Some (v :: items, rest')
          else if Ascii.eqb c "]" then Some ([v], r)
          else None
      | EmptyString => None
      end
  end
with parse_members (fuel : nat) (s : string) : option (list (string * json) * string) :=
  match fuel with
  | O => None
  | S fuel' =>
      match skip_ws s with
      | String q r =>
          if Ascii.eqb q "034" then
            '(key, rest) ← parse_string_body r;
            match skip_ws rest with
            | String c r1 =>
                if Ascii.eqb c ":" then
                  '(v, rest1) ← parse_value fuel' r1;
                  match skip_ws rest1 with
                  | String c' r2 =>
                      if Ascii.eqb c' "," then
                        '(members, rest2) ← parse_members fuel' r2;
                        Some ((key, v) :: members, rest2)
                      else if Ascii.eqb c' "}" then Some ([(key, v)], r2)
                      else None
                  | EmptyString => None
                  end
                else None
            | EmptyString => None
            end
          else None
      | EmptyString => None
      end
  end.

(** [JSON.parse(text)]; [None] is the thrown [SyntaxError]. *)
Definition JSON_parse (text : string) : option json :=
  '(v, rest) ← parse_value (S (String.length text)) text;
  match skip_ws rest with
  | EmptyString => Some v
  | String _ _ => None
  end.

(** [obj[key]] on a parsed object: the last member of that name. *)
Fixpoint get_member (key : string) (members : list (string * json)) : option json :=
  match members with
  | [] => None
  | (k, v) :: rest =>
      match get_member key rest with
      | Some v' => Some v'
      | None => if String.eqb k key then Some v else None
      end
  end.

(* ===================================================================== *)
(** * The fee-event classifier ([src/lib/classifier.ts])                  *)
(* ===================================================================== *)

Inductive FeeEventType := collect | withdraw | burn.

Definition FeeEventType_eqb (a b : FeeEventType) : bool :=
  match a, b with
  | collect, collect | withdraw, withdraw | burn, burn => true
  | _, _ => false
  end.

Module Classifier.

(** The parts of Helius' [EnrichedTransaction] the classifier reads. *)
Record NativeTransfer := {
  fromUserAccount : string;
  toUserAccount : string;
  amount : JsValue;
}.

Record TokenTransfer := {
  mint : string;
  tt_fromUserAccount : string;
  tt_toUserAccount : string;
  tokenAmount : JsValue;
  toTokenAccount : option string;
}.

Record InnerInstruction := { inner_type : option string }.

Record Instruction := {
  programId : string;
  innerInstructions : option (list InnerInstruction);
}.

Record AccountData := { account : option string }.

Record BurnEvent := { burn_amount : JsValue }.
Record TxEvents := { events_burn : option BurnEvent }.

Record ParsedTransaction := {
  signature : string;
  timestamp : option Z;
  description : option string;
  transactionError : JsValue;
  accountData : option (list AccountData);
  nativeTransfers : option (list NativeTransfer);
  tokenTransfers : option (list TokenTransfer);
  instructions : option (list Instruction);
  events : option TxEvents;
}.

Record ClassifiedEvent := {
  type : FeeEventType;
  amountLamports : Z;
  ce_signature : string;
  blockTime : Date;
  burnedTokenMint : option string;
  burnedTokenAmount : option Z;
}.

(** Safely convert a value to BigInt; 0 if conversion fails. *)
Definition safeBigInt (value : JsValue) : Z :=
  match value with
  | VUndefined | VNull => 0
  | VBigInt z => z
  | VNumber (Finite q) => Qfloor q
  | VString s =>
      if is_digit_string s
      then match BigInt_of_string s with Some z => z | None => 0 end
      else 0
  | _ => 0
  end.

Definition JUPITER_V6_PROGRAM_ID := "JUP6LkbZbjS1jKKwapdHNy74zcZ3tLUZoi5QNyVTaV4".
Definition RAYDIUM_AMM_PROGRAM_ID := "675kPX9MHTjS2zt1qfr1NYHuzeLXfQM9H24wFSUt1Mp8".
Definition TOKEN_PROGRAM_ID := "TokenkegQfeZyiNwAJbNbGKPFXCWuBvf9Ss623VQ5DA".
Definition BURN_ADDRESS := "1nc1nerator11111111111111111111111111111111".

(** [a.account?.includes(id)], falsy when [account] is missing. *)
Definition account_includes (id : string) (a : AccountData) : bool :=
  match account a with
  | Some s => includes s id
  | None => false
  end.

(** Check if transaction contains a swap instruction. *)
Definition hasSwapInstruction (tx : ParsedTransaction) : bool :=
  let accountData := or_empty (accountData tx) in
  let instructions := or_empty (instructions tx) in
  let hasJupiter := existsb (account_includes JUPITER_V6_PROGRAM_ID) accountData in
  let hasRaydium := existsb (account_includes RAYDIUM_AMM_PROGRAM_ID) accountData in
  if hasJupiter || hasRaydium then true
  else if existsb (fun ix => String.eqb (programId ix) JUPITER_V6_PROGRAM_ID
                             || String.eqb (programId ix) RAYDIUM_AMM_PROGRAM_ID)
                  instructions then true
  else
    let description :=
      match description tx with
      | Some d => toLowerCase d
      | None => ""
      end in
    if includes description "swap" || includes description "jupiter"
       || includes description "raydium"
    then true else false.

(** The instruction test of [findBurnInTransaction]'s first loop: a token
    program instruction with an inner instruction of type ["burn"]. *)
Definition is_burn_instruction (ix : Instruction) : bool :=
  String.eqb (programId ix) TOKEN_PROGRAM_ID
  && match innerInstructions ix with
     | Some inner =>
         existsb (fun i => match inner_type i with
                           | Some t => String.eqb t "burn"
                           | None => false
                           end) inner
     | None => false
     end.

(** The first loop of [findBurnInTransaction]: at the first burn
    instruction for which a transfer of the tracked mint with an empty
    destination exists, return that transfer's amount. *)
Fixpoint burn_instruction_loop (instructions : list Instruction)
         (tokenTransfers : list TokenTransfer) (tokenMint : string) : option Z :=
  match instructions with
  | [] => None
  | ix :: rest =>
      if is_burn_instruction ix then
        let burnTransfer :=
          find (fun t => String.eqb (mint t) tokenMint
                         && String.eqb (tt_toUserAccount t) "") tokenTransfers in
        match burnTransfer with
        | Some t => Some (safeBigInt (tokenAmount t))
        | None => burn_instruction_loop rest tokenTransfers tokenMint
        end
      else burn_instruction_loop rest tokenTransfers tokenMint
  end.

(** Find burn evidence in transaction. *)
Definition findBurnInTransaction (tx : ParsedTransaction) (tokenMint : string)
  : option Z :=
  let tokenTransfers := or_empty (tokenTransfers tx) in
  let instructions := or_empty (instructions tx) in
  (* Look for direct burn instruction *)
  match burn_instruction_loop instructions tokenTransfers tokenMint with
  | Some a => Some a
  | None =>
      (* Look for transfer to burn address *)
      let toBurnAddress :=
        find (fun t => String.eqb (mint t) tokenMint
                       && (String.eqb (tt_toUserAccount t) BURN_ADDRESS
                           || match toTokenAccount t with
                              | Some a => String.eqb a ""
                              | None => false
                              end)) tokenTransfers in
      match toBurnAddress with
      | Some t => Some (safeBigInt (tokenAmount t))
      | None =>
          (* Look for events that indicate burn *)
          match events tx with
          | Some ev =>
              match events_burn ev with
              | Some b => Some (safeBigInt (burn_amount b))
              | None => None
              end
          | None => None
          end
      end
  end.

Definition mkEvent (ty : FeeEventType) (amt : Z) (sig : string) (bt : Date)
           (bm : option string) (ba : option Z) : ClassifiedEvent :=
  {| type := ty; amountLamports := amt; ce_signature := sig; blockTime := bt;
     burnedTokenMint := bm; burnedTokenAmount := ba |}.

(** Classify a parsed transaction from Helius. *)
Definition classifyTransaction (tx : option ParsedTransaction)
           (creatorVault creatorWallet tokenMint : string)
  : option ClassifiedEvent :=
  match tx with
  | None => None
  | Some tx =>
    if truthy (transactionError tx) then None else
    let signature := signature tx in
    let blockTime := (match timestamp tx with Some t => t | None => 0 end) * 1000 in
    let nativeTransfers := or_empty (nativeTransfers tx) in
    let tokenTransfers := or_empty (tokenTransfers tx) in
    (* Look for SOL moving into vault (collect) *)
    let collectTransfer :=
      find (fun t => String.eqb (toUserAccount t) creatorVault
                     && negb (String.eqb (fromUserAccount t) creatorWallet))
           nativeTransfers in
    match collectTransfer with
    | Some t =>
        Some (mkEvent collect (safeBigInt (amount t)) signature blockTime None None)
    | None =>
      (* Look for SOL leaving vault *)
      let vaultOutflow :=
        find (fun t => String.eqb (fromUserAccount t) creatorVault) nativeTransfers in
      match vaultOutflow with
      | None => None
      | Some vaultOutflow =>
        let outflowAmount := safeBigInt (amount vaultOutflow) in
        (* Check if this is a burn (swap + burn in same tx) *)
        let hasSwap := hasSwapInstruction tx in
        let burnInfo := findBurnInTransaction tx tokenMint in
        match (if hasSwap then burnInfo else None) with
        | Some burnAmount =>
            Some (mkEvent burn outflowAmount signature blockTime
                          (Some tokenMint) (Some burnAmount))
        | None =>
          (* Check if going to creator wallet (withdraw) *)
          if String.eqb (toUserAccount vaultOutflow) creatorWallet then
            Some (mkEvent withdraw outflowAmount signature blockTime None None)
          else
            let tokenBurn :=
              if hasSwap then
                find (fun t => String.eqb (mint t) tokenMint
                               && (String.eqb (tt_toUserAccount t) BURN_ADDRESS
                                   || String.eqb (tt_toUserAccount t) ""
                                   || match toTokenAccount t with
                                      | Some a => String.eqb a ""
                                      | None => false
                                      end)) tokenTransfers
              else None in
            match tokenBurn with
            | Some tb =>
                Some (mkEvent burn outflowAmount signature blockTime
                              (Some tokenMint) (Some (safeBigInt (tokenAmount tb))))
            | None =>
                (* Default: classify as withdraw (conservative) *)
                Some (mkEvent withdraw outflowAmount signature blockTime None None)
            end
        end
      end
    end
  end.

(** Batch classify multiple transactions. *)
Fixpoint classifyTransactions (transactions : list (option ParsedTransaction))
         (creatorVault creatorWallet tokenMint : string) : list ClassifiedEvent :=
  match transactions with
  | [] => []
  | tx :: rest =>
      match classifyTransaction tx creatorVault creatorWallet tokenMint with
      | Some event => event :: classifyTransactions rest creatorVault creatorWallet tokenMint
      | None => classifyTransactions rest creatorVault creatorWallet tokenMint
      end
  end.

(** The result of [calculateEventStats]. *)
Record EventStats := {
  totalCollected : Z;
  totalBurned : Z;
  totalWithdrawn : Z;
  collectCount : Z;
  burnCount : Z;
  withdrawCount : Z;
}.

(** One turn of the loop of [calculateEventStats]: the [switch] on the
    event's type. *)
Definition addEventStats (stats : EventStats) (event : ClassifiedEvent) : EventStats :=
  match type event with
  | collect =>
      {| totalCollected := totalCollected stats + amountLamports event;
         totalBurned := totalBurned stats;
         totalWithdrawn := totalWithdrawn stats;
         collectCount := collectCount stats + 1;
         burnCount := burnCount stats;
         withdrawCount := withdrawCount stats |}
  | burn =>
      {| totalCollected := totalCollected stats;
         totalBurned := totalBurned stats + amountLamports event;
         totalWithdrawn := totalWithdrawn stats;
         collectCount := collectCount stats;
         burnCount := burnCount stats + 1;
         withdrawCount := withdrawCount stats |}
  | withdraw =>
      {| totalCollected := totalCollected stats;
         totalBurned := totalBurned stats;
         totalWithdrawn := totalWithdrawn stats + amountLamports event;
         collectCount := collectCount stats;
         burnCount := burnCount stats;
         withdrawCount := withdrawCount stats + 1 |}
  end.

(** Calculate stats from classified events. *)
Definition calculateEventStats (events : list ClassifiedEvent) : EventStats :=
  fold_left addEventStats events
    {| totalCollected := 0; totalBurned := 0; totalWithdrawn := 0;
       collectCount := 0; burnCount := 0; withdrawCount := 0 |}.

End Classifier.

(* ===================================================================== *)
(** * Badge tiers and burn percentage ([src/lib/badges.ts])               *)
(* ===================================================================== *)

Module Badges.

Inductive BadgeTier := fire | coffee | good | nervous | exiting | arsonist.

(** Calculate badge tier based on burn percentage. *)
Definition calculateBadgeTier (burnPercentage : Q) : BadgeTier :=
  if Qle_bool 95 burnPercentage then fire
  else if Qle_bool 80 burnPercentage then coffee
  else if Qle_bool 50 burnPercentage then good
  else if Qle_bool 20 burnPercentage then nervous
  else if Qle_bool 1 burnPercentage then exiting
  else arsonist.

Definition BadgeTier_eqb (a b : BadgeTier) : bool :=
  match a, b with
  | fire, fire | coffee, coffee | good, good | nervous, nervous
  | exiting, exiting | arsonist, arsonist => true
  | _, _ => false
  end.

Record BadgeInfo := {
  tier : BadgeTier;
  name : string;
  emoji : string;
  quote : string;
  minBurn : Q;
  maxBurn : Q;
  color : string;
  bgColor : string;
}.

(** Badge tiers from best (most burns) to worst (most extraction). *)
Definition BADGE_TIERS (t : BadgeTier) : BadgeInfo :=
  match t with
  | fire =>
      {| tier := fire; name := "Room on Fire"; emoji := "🔥";
         quote := "This is fine. Everything is fine.";
         minBurn := 95; maxBurn := 100;
         color := "#ef4444"; bgColor := "rgba(239, 68, 68, 0.1)" |}
  | coffee =>
      {| tier := coffee; name := "Coffee Sipper"; emoji := "☕";
         quote := "I'm okay with the events unfolding.";
         minBurn := 80; maxBurn := 95;
         color := "#f59e0b"; bgColor := "rgba(245, 158, 11, 0.1)" |}
  | good =>
      {| tier := good; name := "Good Boy"; emoji := "🐕";
         quote := "Things are going well.";
         minBurn := 50; maxBurn := 80;
         color := "#22c55e"; bgColor := "rgba(34, 197, 94, 0.1)" |}
  | nervous =>
      {| tier := nervous; name := "Nervous"; emoji := "😰";
         quote := "This is... okay?";
         minBurn := 20; maxBurn := 50;
         color := "#eab308"; bgColor := "rgba(234, 179, 8, 0.1)" |}
  | exiting =>
      {| tier := exiting; name := "Exiting"; emoji := "🚪";
         quote := "I should go.";
         minBurn := 1; maxBurn := 20;
         color := "#f97316"; bgColor := "rgba(249, 115, 22, 0.1)" |}
  | arsonist =>
      {| tier := arsonist; name := "Arsonist"; emoji := "💀";
         quote := "I started the fire.";
         minBurn := 0; maxBurn := 1;
         color := "#6b7280"; bgColor := "rgba(107, 114, 128, 0.1)" |}
  end.

(** Get badge info for a burn percentage. *)
Definition getBadgeInfo (burnPercentage : Q) : BadgeInfo :=
  let tier := calculateBadgeTier burnPercentage in
  BADGE_TIERS tier.

(** Get all badge tiers as array ([Object.values], in the order of the
    object's keys). *)
Definition getAllBadgeTiers : list BadgeInfo :=
  map BADGE_TIERS [fire; coffee; good; nervous; exiting; arsonist].

(** Get badge tier display for UI. *)
Definition getBadgeDisplay (tier : BadgeTier) : string :=
  let info := BADGE_TIERS tier in
  (emoji info ++ " " ++ name info)%string.

(** Check if a token qualifies for a specific badge tier:
    [burnPercentage >= info.minBurn && burnPercentage < info.maxBurn]. *)
Definition qualifiesForTier (burnPercentage : Q) (targetTier : BadgeTier) : bool :=
  let info := BADGE_TIERS targetTier in
  Qle_bool (minBurn info) burnPercentage && negb (Qle_bool (maxBurn info) burnPercentage).

Definition getBadgeStatsOrder : list BadgeTier :=
  [fire; coffee; good; nervous; exiting; arsonist].

(** The place of a tier in a list of tiers, counted from 0; every tier
    occurs in [getBadgeStatsOrder]. *)
Fixpoint index_of (t : BadgeTier) (l : list BadgeTier) : nat :=
  match l with
  | [] => O
  | x :: l' => if BadgeTier_eqb x t then O else S (index_of t l')
  end.

Definition tier_rank (t : BadgeTier) : nat := index_of t getBadgeStatsOrder.

(** [Math.round(x)]: the integer nearest to [x], ties upward. *)
Definition Math_round (x : Q) : Z := Qfloor (x + (1 # 2)).

(** Calculate burn percentage from fee totals.  The [bigint] division
    truncates toward zero ([Z.quot]). *)
Definition calculateBurnPercentage (totalCollected totalBurned : Z) : Q :=
  if totalCollected =? 0 then 0%Q
  else
    let percentage :=
      (inject_Z (Z.quot (totalBurned * 10000) totalCollected) / 100)%Q in
    (inject_Z (Math_round (percentage * 100)) / 100)%Q.

End Badges.

(* ===================================================================== *)
(** * The event ledger ([src/lib/db.ts], [src/workers/indexer.ts])        *)
(* ===================================================================== *)

Module Ledger.

(** A row of the [fee_events] table ([createFeeEvent]'s [data]). *)
Record FeeEvent := {
  tokenId : Z;
  eventType : FeeEventType;
  amountLamports : Z;
  signature : string;
  blockTime : Date;
  burnedTokenMint : option string;
  burnedTokenAmount : option Z;
}.

(** The store's errors: [P2002] is the unique-constraint violation. *)
Inductive PrismaError := P2002.

(** [prisma.feeEvent.create]: the table has a unique index on
    [signature] ([fee_events_signature_key]); a row whose signature is
    already present is rejected with [P2002]. *)
Definition createFeeEvent (table : list FeeEvent) (data : FeeEvent)
  : PrismaError + list FeeEvent :=
  if existsb (fun r => String.eqb (signature r) (signature data)) table
  then inl P2002
  else inr (table ++ [data]).

(** The row [indexToken] passes to [createFeeEvent] for an event. *)
Definition row_of (tid : Z) (event : Classifier.ClassifiedEvent) : FeeEvent :=
  {| tokenId := tid;
     eventType := Classifier.type event;
     amountLamports := Classifier.amountLamports event;
     signature := Classifier.ce_signature event;
     blockTime := Classifier.blockTime event;
     burnedTokenMint := Classifier.burnedTokenMint event;
     burnedTokenAmount := Classifier.burnedTokenAmount event |}.

(** The save step of [indexToken]: [createFeeEvent] in a [try], the
    [catch] swallowing the error (a [P2002] silently, any other after
    logging it). *)
Definition saveEvent (table : list FeeEvent) (tokenId : Z)
           (event : Classifier.ClassifiedEvent) : list FeeEvent :=
  match createFeeEvent table (row_of tokenId event) with
  | inr table' => table'
  | inl _ => table
  end.

(** The aggregate written by [updateTokenStats]. *)
Record TokenStats := {
  totalFeesCollected : Z;
  totalFeesBurned : Z;
  totalFeesWithdrawn : Z;
  totalFeesHeld : Z;
  burnPercentage : Q;
  badgeTier : Badges.BadgeTier;
}.

(** [prisma.feeEvent.groupBy({ by: ["eventType"], where: { tokenId },
    _sum: { amountLamports: true } })], read for one event type: the sum
    of the amounts of the token's rows of that type, 0 if there is none. *)
Definition sum_by_type (table : list FeeEvent) (tid : Z) (ty : FeeEventType) : Z :=
  fold_right Z.add 0
    (map amountLamports
         (List.filter (fun r => (tokenId r =? tid) && FeeEventType_eqb (eventType r) ty)
                 table)).

(** Recalculate and update token statistics. *)
Definition recalculateTokenStats (table : list FeeEvent) (tid : Z) : TokenStats :=
  let totalCollected := sum_by_type table tid collect in
  let totalBurned := sum_by_type table tid burn in
  let totalWithdrawn := sum_by_type table tid withdraw in
  (* Calculate held = collected - burned - withdrawn *)
  let totalHeld := totalCollected - totalBurned - totalWithdrawn in
  (* Calculate burn percentage (of collected that was burned) *)
  let burnPercentage := Badges.calculateBurnPercentage totalCollected totalBurned in
  let badgeTier := Badges.calculateBadgeTier burnPercentage in
  {| totalFeesCollected := totalCollected;
     totalFeesBurned := totalBurned;
     totalFeesWithdrawn := totalWithdrawn;
     totalFeesHeld := if totalHeld <? 0 then 0 else totalHeld;
     burnPercentage := burnPercentage;
     badgeTier := badgeTier |}.

(** The result of [getGlobalStats]. *)
Record GlobalStats := {
  totalTokens : Z;
  g_totalFeesCollected : Z;
  g_totalFeesBurned : Z;
  g_totalFeesWithdrawn : Z;
  g_totalFeesHeld : Z;
  globalBurnPercentage : Q;
}.

(** [_sum] of a column of [prisma.token.aggregate]; over no row the sum is
    [null], which [?? BigInt(0)] reads as 0. *)
Definition sum_column (column : TokenStats -> Z) (tokens : list TokenStats) : Z :=
  fold_right Z.add 0 (map column tokens).

(** Ecosystem-wide statistics, from the statistics stored with each token
    ([tokens] holds the columns [updateTokenStats] writes, a row a
    token). *)
Definition getGlobalStats (tokens : list TokenStats) : GlobalStats :=
  let totalCollected := sum_column totalFeesCollected tokens in
  let totalBurned := sum_column totalFeesBurned tokens in
  let totalWithdrawn := sum_column totalFeesWithdrawn tokens in
  let totalHeld := sum_column totalFeesHeld tokens in
  let burnPercentage :=
    if 0 <? totalCollected
    then (inject_Z (Z.quot (totalBurned * 10000) totalCollected) / 100)%Q
    else 0%Q in
  {| totalTokens := Z.of_nat (List.length tokens);
     g_totalFeesCollected := totalCollected;
     g_totalFeesBurned := totalBurned;
     g_totalFeesWithdrawn := totalWithdrawn;
     g_totalFeesHeld := totalHeld;
     globalBurnPercentage := burnPercentage |}.

(** A row with this signature is stored. *)
Definition has_signature (table : list FeeEvent) (sig : string) : bool :=
  existsb (fun r => String.eqb (signature r) sig) table.

(** The classify-and-save loop of [indexToken] over the parsed
    transactions ([if (!tx) continue]). *)
Definition ingest (table : list FeeEvent) (tid : Z)
           (creatorVault creatorWallet mint : string)
           (parsed : list Classifier.ParsedTransaction) : list FeeEvent :=
  fold_left
    (fun table tx =>
       match Classifier.classifyTransaction (Some tx) creatorVault creatorWallet mint with
       | Some event => saveEvent table tid event
       | None => table
       end)
    parsed table.

(** Index transactions for a single token.  [history] is the transaction
    history of the vault, each signature with its parsed transaction.  The
    signatures already stored for the token are filtered out; when none is
    left the run stops without recomputing the aggregate ([None]). *)
Definition indexToken (table : list FeeEvent) (tid : Z)
           (creatorVault creatorWallet mint : string)
           (history : list Classifier.ParsedTransaction)
  : list FeeEvent * option TokenStats :=
  let existingSignatures :=
    map signature (List.filter (fun e => tokenId e =? tid) table) in
  let newTransactions :=
    List.filter (fun tx => negb (existsb (String.eqb (Classifier.signature tx))
                                         existingSignatures)) history in
  match newTransactions with
  | [] => (table, None)
  | _ :: _ =>
      let table' := ingest table tid creatorVault creatorWallet mint newTransactions in
      (table', Some (recalculateTokenStats table' tid))
  end.

End Ledger.

(* ===================================================================== *)
(** * The proof-of-history chain ([src/lib/proof-of-history.ts])          *)
(* ===================================================================== *)

Module PoH.

Inductive VaultLabel := BC | AMM | UNKNOWN.

Definition eventType_string (e : FeeEventType) : string :=
  match e with collect => "collect" | burn => "burn" | withdraw => "withdraw" end.

Definition vault_string (v : VaultLabel) : string :=
  match v with BC => "BC" | AMM => "AMM" | UNKNOWN => "UNKNOWN" end.

Record PoHRecord := {
  sequence : Z;
  hash : string;
  prevHash : string;
  timestamp : Date;
  slot : option Z;
  eventType : FeeEventType;
  vault : VaultLabel;
  tokenMint : string;
  tokenSymbol : option string;
  amountLamports : Z;
  signature : string;
}.

(** [Omit<PoHRecord, "hash">] *)
Record RecordData := {
  d_sequence : Z;
  d_prevHash : string;
  d_timestamp : Date;
  d_slot : option Z;
  d_eventType : FeeEventType;
  d_vault : VaultLabel;
  d_tokenMint : string;
  d_tokenSymbol : option string;
  d_amountLamports : Z;
  d_signature : string;
}.

(** Genesis hash for new chains *)
Definition GENESIS_HASH : string := string_repeat "0" 64.

(** A character of a [digest("hex")]: a digit or one of [a] to [f]. *)
Definition is_hex_lower (c : ascii) : bool :=
  let n := N_of_ascii c in
  ((48 <=? n)%N && (n <=? 57)%N) || ((97 <=? n)%N && (n <=? 102)%N).

(** Generate SHA-256 hash for a PoH record.
    [record.slot?.toString() || "0"]: a missing slot reads ["0"]. *)
Definition generateHash (record : RecordData) : string :=
  let data :=
    String.concat "|"
      [ Z_toString (d_sequence record);
        d_prevHash record;
        toISOString (d_timestamp record);
        match d_slot record with Some s => Z_toString s | None => "0" end;
        eventType_string (d_eventType record);
        vault_string (d_vault record);
        d_tokenMint record;
        Z_toString (d_amountLamports record);
        d_signature record ] in
  sha256_hex data.

(** The object [verifyRecordHash] passes to [generateHash]. *)
Definition omit_hash (record : PoHRecord) : RecordData :=
  {| d_sequence := sequence record;
     d_prevHash := prevHash record;
     d_timestamp := timestamp record;
     d_slot := slot record;
     d_eventType := eventType record;
     d_vault := vault record;
     d_tokenMint := tokenMint record;
     d_tokenSymbol := tokenSymbol record;
     d_amountLamports := amountLamports record;
     d_signature := signature record |}.

(** Verify a single PoH record's hash *)
Definition verifyRecordHash (record : PoHRecord) : bool :=
  let expectedHash := generateHash (omit_hash record) in
  String.eqb (hash record) expectedHash.

Inductive VerifyResult :=
| Valid
| Invalid (invalidAt : nat) (error : string).

(** [[...records].sort((a, b) => a.sequence - b.sequence)]: a stable sort
    by ascending sequence; records with equal sequence keep their order. *)
Fixpoint insert_by_sequence (r : PoHRecord) (l : list PoHRecord) : list PoHRecord :=
  match l with
  | [] => [r]
  | x :: l' =>
      if sequence r <=? sequence x then r :: l
      else x :: insert_by_sequence r l'
  end.

Fixpoint sort_by_sequence (l : list PoHRecord) : list PoHRecord :=
  match l with
  | [] => []
  | r :: l' => insert_by_sequence r (sort_by_sequence l')
  end.

(** The [for] loop of [verifyChain], at index [i] with [prev = sorted[i-1]]
    ([None] when [i = 0]) and [l] the records from index [i] on. *)
Fixpoint verify_loop (prev : option PoHRecord) (i : nat) (l : list PoHRecord)
  : VerifyResult :=
  match l with
  | [] => Valid
  | record :: rest =>
      (* Verify hash *)
      if negb (verifyRecordHash record) then
        Invalid i ("Record " ++ Z_toString (sequence record) ++ ": Hash mismatch")%string
      else
        match prev with
        | Some prevRecord =>
            (* Verify chain link (except first) *)
            if negb (String.eqb (prevHash record) (hash prevRecord)) then
              Invalid i ("Record " ++ Z_toString (sequence record)
                         ++ ": Chain link broken")%string
            (* Verify sequence *)
            else if negb (sequence record =? sequence prevRecord + 1) then
              Invalid i ("Record " ++ Z_toString (sequence record)
                         ++ ": Sequence gap detected")%string
            else verify_loop (Some record) (S i) rest
        | None => verify_loop (Some record) (S i) rest
        end
  end.

(** Verify an entire PoH chain *)
Definition verifyChain (records : list PoHRecord) : VerifyResult :=
  match records with
  | [] => Valid
  | _ :: _ =>
      (* Sort by sequence *)
      let sorted := sort_by_sequence records in
      match sorted with
      | [] => Valid
      | first :: _ =>
          (* First record should link to genesis *)
          if negb (String.eqb (prevHash first) GENESIS_HASH) && (sequence first =? 1)
          then Invalid 0 "First record does not link to genesis hash"
          else verify_loop None 0 sorted
      end
  end.

(** ** The chain manager and its store *)

(** A row of the [poh_records] table. *)
Definition Table := list PoHRecord.

(** [prisma.poHRecord.create]: the table has unique indexes on [hash]
    ([poh_records_hash_key]) and on [(token_mint, sequence)]
    ([poh_records_token_mint_sequence_key]); [None] is the rejection. *)
Definition create (table : Table) (row : PoHRecord) : option Table :=
  if existsb (fun r => String.eqb (hash r) (hash row)
                       || (String.eqb (tokenMint r) (tokenMint row)
                           && (sequence r =? sequence row))) table
  then None
  else Some (table ++ [row]).

(** The state of a [PoHChainManager]. *)
Record Manager := {
  m_tokenMint : string;
  lastHash : string;
  lastSequence : Z;
}.

(** [new PoHChainManager(tokenMint)] *)
Definition newManager (tokenMint : string) : Manager :=
  {| m_tokenMint := tokenMint; lastHash := GENESIS_HASH; lastSequence := 0 |}.

(** [findMany({ where: { tokenMint }, orderBy: { sequence: "asc" } })] *)
Definition findMany (table : Table) (mint : string) : list PoHRecord :=
  sort_by_sequence (List.filter (fun r => String.eqb (tokenMint r) mint) table).

(** Initialize from existing chain in database: the last record (highest
    sequence) of the token, if any. *)
Definition initialize (mgr : Manager) (table : Table) : Manager :=
  match last (findMany table (m_tokenMint mgr)) with
  | Some lastRecord =>
      {| m_tokenMint := m_tokenMint mgr;
         lastHash := hash lastRecord;
         lastSequence := sequence lastRecord |}
  | None => mgr
  end.

(** The [event] argument of [addEvent]. *)
Record EventInput := {
  e_eventType : FeeEventType;
  e_vault : VaultLabel;
  e_amountLamports : Z;
  e_signature : string;
  e_tokenSymbol : option string;
  e_slot : option Z;
}.

(** Add a new event to the PoH chain.  [now] is the value of [new Date()];
    the result is [None] when the store rejects the row: the promise
    rejects and the manager's state is not advanced. *)
Definition addEvent (mgr : Manager) (table : Table) (now : Date) (event : EventInput)
  : option (PoHRecord * Manager * Table) :=
  let sequence_ := lastSequence mgr + 1 in
  let recordData :=
    {| d_sequence := sequence_;
       d_prevHash := lastHash mgr;
       d_timestamp := now;
       d_slot := e_slot event;
       d_eventType := e_eventType event;
       d_vault := e_vault event;
       d_tokenMint := m_tokenMint mgr;
       d_tokenSymbol := e_tokenSymbol event;
       d_amountLamports := e_amountLamports event;
       d_signature := e_signature event |} in
  let hash_ := generateHash recordData in
  let record :=
    {| sequence := d_sequence recordData;
       hash := hash_;
       prevHash := d_prevHash recordData;
       timestamp := d_timestamp recordData;
       slot := d_slot recordData;
       eventType := d_eventType recordData;
       vault := d_vault recordData;
       tokenMint := d_tokenMint recordData;
       tokenSymbol := d_tokenSymbol recordData;
       amountLamports := d_amountLamports recordData;
       signature := d_signature recordData |} in
  (* Save to database *)
  match create table record with
  | None => None
  | Some table' =>
      (* Update state *)
      Some (record,
            {| m_tokenMint := m_tokenMint mgr; lastHash := hash_;
               lastSequence := sequence_ |},
            table')
  end.

(** A run of the single writer of a token: [addEvent] for each detected
    event in turn; a rejected append leaves manager and store as they
    were (the callers catch the error and go on). *)
Fixpoint addEvents (mgr : Manager) (table : Table) (events : list (Date * EventInput))
  : Manager * Table :=
  match events with
  | [] => (mgr, table)
  | (now, event) :: rest =>
      match addEvent mgr table now event with
      | Some (_, mgr', table') => addEvents mgr' table' rest
      | None => addEvents mgr table rest
      end
  end.

(** Get full chain for verification: the token's rows by ascending
    sequence, with [slot || undefined] and [tokenSymbol || undefined]
    (a slot of 0 and an empty symbol read as missing). *)
Definition from_row (r : PoHRecord) : PoHRecord :=
  {| sequence := sequence r;
     hash := hash r;
     prevHash := prevHash r;
     timestamp := timestamp r;
     slot := match slot r with
             | Some s => if s =? 0 then None else Some s
             | None => None
             end;
     eventType := eventType r;
     vault := vault r;
     tokenMint := tokenMint r;
     tokenSymbol := match tokenSymbol r with
                    | Some s => if String.eqb s "" then None else Some s
                    | None => None
                    end;
     amountLamports := amountLamports r;
     signature := signature r |}.

Definition getFullChain (mgr : Manager) (table : Table) : list PoHRecord :=
  map from_row (findMany table (m_tokenMint mgr)).

(** Get chain state *)
Record ChainState := {
  s_lastHash : string;
  s_lastSequence : Z;
  s_tokenMint : string;
}.

Definition getState (mgr : Manager) : ChainState :=
  {| s_lastHash := lastHash mgr;
     s_lastSequence := lastSequence mgr;
     s_tokenMint := m_tokenMint mgr |}.

(** Verify the token's entire PoH chain: [{ ...result, chainLength }]. *)
Definition verifyFullChain (mgr : Manager) (table : Table) : VerifyResult * nat :=
  let chain := getFullChain mgr table in
  let result := verifyChain chain in
  (result, List.length chain).

(** ** Export and import *)

(** A member that [JSON.stringify] leaves out when its value is
    [undefined]. *)
Definition optional_member (key : string) (v : option json) : list (string * json) :=
  match v with Some j => [(key, j)] | None => [] end.

(** The object [exportChainToJSON] builds for a record: the record's own
    fields, [amountLamports] as a decimal string and [timestamp] as ISO
    text in their places. *)
Definition export_record (r : PoHRecord) : json :=
  JObject
    ([ ("sequence", JNumber (sequence r));
       ("hash", JString (hash r));
       ("prevHash", JString (prevHash r));
       ("timestamp", JString (toISOString (timestamp r))) ]
     ++ optional_member "slot" (option_map JNumber (slot r))
     ++ [ ("eventType", JString (eventType_string (eventType r)));
          ("vault", JString (vault_string (vault r)));
          ("tokenMint", JString (tokenMint r)) ]
     ++ optional_member "tokenSymbol" (option_map JString (tokenSymbol r))
     ++ [ ("amountLamports", JString (Z_toString (amountLamports r)));
          ("signature", JString (signature r)) ]).

(** Export chain to JSON file format *)
Definition exportChainToJSON (records : list PoHRecord) : string :=
  JSON_stringify (JArray (map export_record records)).

(** Reading a member at the type the record declares for it.  The code
    does not check these types; a document whose members have other types
    does not give a [PoHRecord], and the model answers [None] for it. *)
Definition get_string (key : string) (members : list (string * json)) : option string :=
  match get_member key members with Some (JString s) => Some s | _ => None end.

Definition get_number (key : string) (members : list (string * json)) : option Z :=
  match get_member key members with Some (JNumber n) => Some n | _ => None end.

Definition get_optional_number (key : string) (members : list (string * json))
  : option (option Z) :=
  match get_member key members with
  | Some (JNumber n) => Some (Some n)
  | None => Some None
  | _ => None
  end.

Definition get_optional_string (key : string) (members : list (string * json))
  : option (option string) :=
  match get_member key members with
  | Some (JString s) => Some (Some s)
  | None => Some None
  | _ => None
  end.

Definition eventType_of_string (s : string) : option FeeEventType :=
  if String.eqb s "collect" then Some collect
  else if String.eqb s "burn" then Some burn
  else if String.eqb s "withdraw" then Some withdraw
  else None.

Definition vault_of_string (s : string) : option VaultLabel :=
  if String.eqb s "BC" then Some BC
  else if String.eqb s "AMM" then Some AMM
  else if String.eqb s "UNKNOWN" then Some UNKNOWN
  else None.

(** The record [importChainFromJSON] builds from an element of the parsed
    array; [None] when [BigInt] throws, when the timestamp does not parse
    to a valid date, or when the element is not of the declared type. *)
Definition import_record (j : json) : option PoHRecord :=
  match j with
  | JObject r =>
      sequence_ ← get_number "sequence" r;
      hash_ ← get_string "hash" r;
      prevHash_ ← get_string "prevHash" r;
      timestamp_ ← get_string "timestamp" r ≫= Date_parse;
      slot_ ← get_optional_number "slot" r;
      eventType_ ← get_string "eventType" r ≫= eventType_of_string;
      vault_ ← get_string "vault" r ≫= vault_of_string;
      tokenMint_ ← get_string "tokenMint" r;
      tokenSymbol_ ← get_optional_string "tokenSymbol" r;
      amountLamports_ ← get_string "amountLamports" r ≫= BigInt_of_string;
      signature_ ← get_string "signature" r;
      Some {| sequence := sequence_;
              hash := hash_;
              prevHash := prevHash_;
              timestamp := timestamp_;
              slot := slot_;
              eventType := eventType_;
              vault := vault_;
              tokenMint := tokenMint_;
              tokenSymbol := tokenSymbol_;
              amountLamports := amountLamports_;
              signature := signature_ |}
  | _ => None
  end.

Fixpoint import_records (data : list json) : option (list PoHRecord) :=
  match data with
  | [] => Some []
  | j :: rest =>
      r ← import_record j;
      rs ← import_records rest;
      Some (r :: rs)
  end.

(** Import chain from JSON file; [None] when [JSON.parse] or [BigInt]
    throws, or when the document is not an array of records. *)
Definition importChainFromJSON (text : string) : option (list PoHRecord) :=
  match JSON_parse text with
  | Some (JArray data) => import_records data
  | _ => None
  end.

End PoH.

(** ** What the verification loop accepts *)

Module PoHSpec.
Import PoH.

(** [links prev l]: every record of [l] carries its own digest, the hash
    of its predecessor and the next sequence number. *)
Fixpoint links (prev : PoHRecord) (l : list PoHRecord) : Prop :=
  match l with
  | [] => True
  | r :: l' =>
      verifyRecordHash r = true /\ prevHash r = hash prev /\
      sequence r = sequence prev + 1 /\ links r l'
  end.

(** A list that is consistent from its first record on. *)
Definition consistent (l : list PoHRecord) : Prop :=
  match l with
  | [] => True
  | r :: l' => verifyRecordHash r = true /\ links r l'
  end.

(** Sequence numbers that never decrease from one record to the next. *)
Fixpoint ascending (l : list PoHRecord) : Prop :=
  match l with
  | [] => True
  | x :: l' =>
      match l' with
      | [] => True
      | y :: _ => sequence x <= sequence y /\ ascending l'
      end
  end.

(** Tampering with one field of a record. *)
Definition set_hash (h : string) (r : PoHRecord) : PoHRecord :=
  {| sequence := sequence r; hash := h; prevHash := prevHash r;
     timestamp := timestamp r; slot := slot r; eventType := eventType r;
     vault := vault r; tokenMint := tokenMint r; tokenSymbol := tokenSymbol r;
     amountLamports := amountLamports r; signature := signature r |}.

Definition set_prevHash (h : string) (r : PoHRecord) : PoHRecord :=
  {| sequence := sequence r; hash := hash r; prevHash := h;
     timestamp := timestamp r; slot := slot r; eventType := eventType r;
     vault := vault r; tokenMint := tokenMint r; tokenSymbol := tokenSymbol r;
     amountLamports := amountLamports r; signature := signature r |}.

Definition set_sequence (n : Z) (r : PoHRecord) : PoHRecord :=
  {| sequence := n; hash := hash r; prevHash := prevHash r;
     timestamp := timestamp r; slot := slot r; eventType := eventType r;
     vault := vault r; tokenMint := tokenMint r; tokenSymbol := tokenSymbol r;
     amountLamports := amountLamports r; signature := signature r |}.

Definition set_tokenSymbol (sym : option string) (r : PoHRecord) : PoHRecord :=
  {| sequence := sequence r; hash := hash r; prevHash := prevHash r;
     timestamp := timestamp r; slot := slot r; eventType := eventType r;
     vault := vault r; tokenMint := tokenMint r; tokenSymbol := sym;
     amountLamports := amountLamports r; signature := signature r |}.

(** Two records that agree on every field but [tokenSymbol]. *)
Definition same_but_symbol (r r' : PoHRecord) : Prop :=
  set_tokenSymbol None r = set_tokenSymbol None r'.

(** A chain that starts at the genesis hash with sequence 1. *)
Definition rooted (l : list PoHRecord) : Prop :=
  match l with
  | [] => True
  | r :: _ => prevHash r = GENESIS_HASH /\ sequence r = 1 /\ consistent l
  end.

(** The hash and sequence the next record has to link to. *)
Definition tail_state (l : list PoHRecord) : string * Z :=
  match last l with
  | Some r => (hash r, sequence r)
  | None => (GENESIS_HASH, 0)
  end.

(** The token's rows, in insertion order. *)
Definition rows_of (mint : string) (table : Table) : list PoHRecord :=
  List.filter (fun r => String.eqb (tokenMint r) mint) table.

(** The manager is the single writer of its token's chain: the rows form
    a rooted chain and the manager holds its tail. *)
Definition manager_inv (mgr : Manager) (table : Table) : Prop :=
  rooted (rows_of (m_tokenMint mgr) table) /\
  (lastHash mgr, lastSequence mgr) = tail_state (rows_of (m_tokenMint mgr) table).

(** [Number.isSafeInteger(n)] of a whole number: below 2^53 in absolute
    value.  On these numbers the arithmetic of the code's doubles is that
    of the integers ([n + 1] is exact) and [toString] prints every
    digit. *)
Definition safe_integer (n : Z) : bool := (- 2 ^ 53 <? n) && (n <? 2 ^ 53).

(** A record whose [sequence] and [slot] are safe integers. *)
Definition safe_record (r : PoHRecord) : bool :=
  safe_integer (sequence r)
  && match slot r with
     | Some s => safe_integer s
     | None => true
     end.

End PoHSpec.

(** ** A concrete run of the chain manager *)

Module PoHExample.
Import PoH.

Definition mint : string := "61V8vBaqAGMpgDQi4JcAwo1dmBGHsyhzodcPqnEVpump".

Definition events : list (Date * EventInput) :=
  [ (1700000000000,
     {| e_eventType := collect; e_vault := BC; e_amountLamports := 1000000000;
        e_signature := "sig-collect-1"; e_tokenSymbol := Some "ARC";
        e_slot := Some 250000000 |});
    (1700000060500,
     {| e_eventType := burn; e_vault := AMM; e_amountLamports := 400000000;
        e_signature := "sig-burn-2"; e_tokenSymbol := Some "ARC";
        e_slot := None |});
    (1700000120999,
     {| e_eventType := withdraw; e_vault := UNKNOWN; e_amountLamports := 600000000;
        e_signature := "sig-withdraw-3"; e_tokenSymbol := None;
        e_slot := Some 0 |}) ].

Definition run : Manager * Table := addEvents (newManager mint) [] events.

(** The stored chain, as [getFullChain] reads it back. *)
Definition chain : list PoHRecord := getFullChain (fst run) (snd run).

End PoHExample.

(** ** The classifier's rules, in the words of the specification *)

Module ClassifierSpec.
Import Classifier.

(** [t] is the first element of [l] that satisfies [P]. *)
Definition first_where {A} (P : A -> Prop) (l : list A) (t : A) : Prop :=
  exists before after,
    l = before ++ t :: after /\ P t /\ forall x, In x before -> ~ P x.

(** A native transfer that lands on the vault from anywhere other than the
    creator wallet. *)
Definition is_inflow (creatorVault creatorWallet : string) (t : NativeTransfer) : Prop :=
  toUserAccount t = creatorVault /\ fromUserAccount t <> creatorWallet.

(** A native transfer whose source is the vault. *)
Definition is_outflow (creatorVault : string) (t : NativeTransfer) : Prop :=
  fromUserAccount t = creatorVault.

(** A native transfer that touches the vault. *)
Definition is_relevant (creatorVault : string) (t : NativeTransfer) : Prop :=
  toUserAccount t = creatorVault \/ fromUserAccount t = creatorVault.

(** The transaction carries no error marker. *)
Definition non_errored (tx : ParsedTransaction) : Prop :=
  truthy (transactionError tx) = false.

Definition is_swap_router (id : string) : Prop :=
  id = JUPITER_V6_PROGRAM_ID \/ id = RAYDIUM_AMM_PROGRAM_ID.

(** A recognized swap pattern: a known swap-router program among the
    accounts or the instructions, or a swap-router keyword in the
    description. *)
Definition swap_pattern (tx : ParsedTransaction) : Prop :=
  (exists a s id, In a (or_empty (accountData tx)) /\ account a = Some s /\
                  is_swap_router id /\ includes s id = true) \/
  (exists ix, In ix (or_empty (instructions tx)) /\ is_swap_router (programId ix)) \/
  (exists d kw, description tx = Some d /\
                (kw = "swap" \/ kw = "jupiter" \/ kw = "raydium") /\
                includes (toLowerCase d) kw = true).

(** The three kinds of burn evidence. *)
Definition burn_transfer (tokenMint : string) (t : TokenTransfer) : Prop :=
  mint t = tokenMint /\ tt_toUserAccount t = "".

Definition incinerator_transfer (tokenMint : string) (t : TokenTransfer) : Prop :=
  mint t = tokenMint /\
  (tt_toUserAccount t = BURN_ADDRESS \/ toTokenAccount t = Some "").

(** The transfer test of the second burn check of [classifyTransaction]:
    a transfer of the tracked mint to the burn address, to no user account
    or to no token account. *)
Definition fallback_transfer (tokenMint : string) (t : TokenTransfer) : Prop :=
  mint t = tokenMint /\
  (tt_toUserAccount t = BURN_ADDRESS \/ tt_toUserAccount t = "" \/
   toTokenAccount t = Some "").

Definition has_burn_instruction (tx : ParsedTransaction) : Prop :=
  exists ix inner i,
    In ix (or_empty (instructions tx)) /\ programId ix = TOKEN_PROGRAM_ID /\
    innerInstructions ix = Some inner /\ In i inner /\ inner_type i = Some "burn".

(** [burn_evidence tx mint a]: the transaction exhibits burn evidence, and
    [a] is the burned amount of the evidence that matches first: a burn
    instruction with a transfer of the tracked mint to no account, else a
    transfer of the tracked mint to the incinerator, else the burn-amount
    annotation. *)
Inductive burn_evidence (tx : ParsedTransaction) (tokenMint : string) : Z -> Prop :=
| by_instruction t :
    has_burn_instruction tx ->
    first_where (burn_transfer tokenMint) (or_empty (tokenTransfers tx)) t ->
    burn_evidence tx tokenMint (safeBigInt (tokenAmount t))
| by_incinerator t :
    ~ (has_burn_instruction tx /\
       exists t', In t' (or_empty (tokenTransfers tx)) /\ burn_transfer tokenMint t') ->
    first_where (incinerator_transfer tokenMint) (or_empty (tokenTransfers tx)) t ->
    burn_evidence tx tokenMint (safeBigInt (tokenAmount t))
| by_annotation ev b :
    ~ (has_burn_instruction tx /\
       exists t', In t' (or_empty (tokenTransfers tx)) /\ burn_transfer tokenMint t') ->
    (forall t', In t' (or_empty (tokenTransfers tx)) -> ~ incinerator_transfer tokenMint t') ->
    events tx = Some ev -> events_burn ev = Some b ->
    burn_evidence tx tokenMint (safeBigInt (burn_amount b)).

(** The amounts of the events of one type, in the order of the batch. *)
Definition amounts_of (ty : FeeEventType) (events : list ClassifiedEvent) : list Z :=
  map amountLamports (List.filter (fun e => FeeEventType_eqb (type e) ty) events).

(** [blockTime] of the events of [tx]. *)
Definition block_time (tx : ParsedTransaction) : Date :=
  (match timestamp tx with Some t => t | None => 0 end) * 1000.

(** Truncation toward zero, which the specification's numeric policy names. *)
Definition Qtruncate (q : Q) : Z := Z.quot (Qnum q) (Z.pos (Qden q)).

(** A value whose coercion cannot be negative: everything but a negative
    [bigint] and a negative finite number. *)
Definition nonneg_value (v : JsValue) : Prop :=
  match v with
  | VBigInt z => 0 <= z
  | VNumber (Finite q) => (0 <= q)%Q
  | _ => True
  end.

End ClassifierSpec.

(** ** Concrete transactions (after [src/lib/classifier.test.ts]) *)

Module ClassifierExample.
Import Classifier.

Definition CREATOR_VAULT : string := "4NQ4yGprSPCqvRJmMNV7rnJ81BUcCrgPEq4TVQ1FthYi".
Definition CREATOR_WALLET : string := "TSLvdd1pWpHVjahSpsvCXUbgwsL3JAcvokwaKt1eokM".
Definition TOKEN_MINT : string := "61V8vBaqAGMpgDQi4JcAwo1dmBGHsyhzodcPqnEVpump".

Definition lamports (n : Z) : JsValue := VNumber (Finite (inject_Z n)).

(** [createBaseTx] with the given native transfers. *)
Definition baseTx (sig : string) (transfers : list NativeTransfer) : ParsedTransaction :=
  {| signature := sig;
     timestamp := Some 1700000000;
     description := None;
     transactionError := VUndefined;
     accountData := Some [];
     nativeTransfers := Some transfers;
     tokenTransfers := Some [];
     instructions := Some [];
     events := None |}.

(** Two buyers pay into the vault in one transaction. *)
Definition tx_two_inflows : ParsedTransaction :=
  baseTx "sig-two-inflows"
    [ {| fromUserAccount := "buyer-1"; toUserAccount := CREATOR_VAULT;
         amount := lamports 1000000000 |};
      {| fromUserAccount := "buyer-2"; toUserAccount := CREATOR_VAULT;
         amount := lamports 250000000 |} ].

(** The creator funds the vault. *)
Definition tx_funding : ParsedTransaction :=
  baseTx "sig-funding"
    [ {| fromUserAccount := CREATOR_WALLET; toUserAccount := CREATOR_VAULT;
         amount := lamports 1000000000 |};
      {| fromUserAccount := "random1"; toUserAccount := "random2";
         amount := lamports 1000000 |} ].

(** The vault pays out to the creator wallet, no swap markers. *)
Definition tx_withdraw : ParsedTransaction :=
  baseTx "sig-withdraw"
    [ {| fromUserAccount := CREATOR_VAULT; toUserAccount := CREATOR_WALLET;
         amount := lamports 900000000 |} ].

(** The vault pays into a Jupiter swap, with a burn-amount annotation. *)
Definition tx_burn : ParsedTransaction :=
  {| signature := "sig-burn";
     timestamp := Some 1700000000;
     description := None;
     transactionError := VUndefined;
     accountData := Some [];
     nativeTransfers :=
       Some [ {| fromUserAccount := CREATOR_VAULT; toUserAccount := "jupiter-pool";
                 amount := lamports 2000000000 |} ];
     tokenTransfers := Some [];
     instructions :=
       Some [ {| programId := JUPITER_V6_PROGRAM_ID; innerInstructions := None |} ];
     events := Some {| events_burn := Some {| burn_amount := lamports 50000 |} |} |}.

(** A transfer into the vault whose amount is a negative number. *)
Definition tx_negative : ParsedTransaction :=
  baseTx "sig-negative"
    [ {| fromUserAccount := "user"; toUserAccount := CREATOR_VAULT;
         amount := VNumber (Finite (-5 # 1)) |} ].

(** The vault pays into a Jupiter swap, with a burn-amount annotation; the
    amount of the payment is a negative number. *)
Definition tx_burn_negative : ParsedTransaction :=
  {| signature := "sig-burn-negative";
     timestamp := Some 1700000000;
     description := None;
     transactionError := VUndefined;
     accountData := Some [];
     nativeTransfers :=
       Some [ {| fromUserAccount := CREATOR_VAULT; toUserAccount := "jupiter-pool";
                 amount := VNumber (Finite (-5 # 1)) |} ];
     tokenTransfers := Some [];
     instructions :=
       Some [ {| programId := JUPITER_V6_PROGRAM_ID; innerInstructions := None |} ];
     events := Some {| events_burn := Some {| burn_amount := lamports 50000 |} |} |}.

(** The vault pays into a Jupiter swap and the Token program runs a burn
    instruction; no token transfer and no annotation tell of a burn. *)
Definition tx_burn_instruction_only : ParsedTransaction :=
  {| signature := "sig-burn-instruction";
     timestamp := Some 1700000000;
     description := None;
     transactionError := VUndefined;
     accountData := Some [];
     nativeTransfers :=
       Some [ {| fromUserAccount := CREATOR_VAULT; toUserAccount := "jupiter-pool";
                 amount := lamports 2000000000 |} ];
     tokenTransfers := Some [];
     instructions :=
       Some [ {| programId := JUPITER_V6_PROGRAM_ID; innerInstructions := None |};
              {| programId := TOKEN_PROGRAM_ID;
                 innerInstructions := Some [ {| inner_type := Some "burn" |} ] |} ];
     events := None |}.

(** The vault pays a negative amount out to the creator wallet. *)
Definition tx_withdraw_negative : ParsedTransaction :=
  baseTx "sig-withdraw-negative"
    [ {| fromUserAccount := CREATOR_VAULT; toUserAccount := CREATOR_WALLET;
         amount := VNumber (Finite (-5 # 1)) |} ].

(** Two payments out of the vault in one transaction. *)
Definition tx_two_outflows : ParsedTransaction :=
  baseTx "sig-two-outflows"
    [ {| fromUserAccount := CREATOR_VAULT; toUserAccount := CREATOR_WALLET;
         amount := lamports 300000000 |};
      {| fromUserAccount := CREATOR_VAULT; toUserAccount := "other";
         amount := lamports 700000000 |} ].

End ClassifierExample.

(** ** A concrete ledger *)

Module LedgerExample.
Import Ledger.

(** A token whose vault was funded by its creator (no event) after one fee
    of 100 lamports, and then burned 200 lamports. *)
Definition table : list FeeEvent :=
  [ {| tokenId := 1; eventType := collect; amountLamports := 100;
       signature := "sig-collect"; blockTime := 1700000000000;
       burnedTokenMint := None; burnedTokenAmount := None |};
    {| tokenId := 1; eventType := burn; amountLamports := 200;
       signature := "sig-burn"; blockTime := 1700000060000;
       burnedTokenMint := Some "61V8vBaqAGMpgDQi4JcAwo1dmBGHsyhzodcPqnEVpump";
       burnedTokenAmount := Some 5000 |} ].

Definition event : Classifier.ClassifiedEvent :=
  Classifier.mkEvent withdraw 900000000 "sig-withdraw" 1700000120000 None None.

End LedgerExample.

(** ** The ledger as a whole *)

Module LedgerSpec.
Import Ledger.

(** The sum of the amounts of all rows of one event type, whatever their
    token. *)
Definition total_by_type (table : list FeeEvent) (ty : FeeEventType) : Z :=
  fold_right Z.add 0
    (map amountLamports (List.filter (fun r => FeeEventType_eqb (eventType r) ty) table)).

(** A row that a run of [indexToken] over [history] may add to [table]:
    a row of the token, with a signature that [table] does not hold, that
    is the event of a transaction of the history. *)
Definition added_by (table : list FeeEvent) (tid : Z) (cv cw mint : string)
           (history : list Classifier.ParsedTransaction) (row : FeeEvent) : Prop :=
  tokenId row = tid /\ has_signature table (signature row) = false /\
  exists tx ev,
    In tx history /\
    Classifier.classifyTransaction (Some tx) cv cw mint = Some ev /\
    row = row_of tid ev.

End LedgerSpec.

(** ** Measures for the JSON round trip *)

(** The number of parser calls a document takes. *)
Fixpoint json_size (v : json) : nat :=
  match v with
  | JArray items => S (fold_right (fun x n => S (json_size x + n)) 0%nat items)
  | JObject members =>
      S (fold_right (fun m n => S (json_size (snd m) + n)) 0%nat members)
  | _ => 1%nat
  end.

Definition items_size (items : list json) : nat :=
  fold_right (fun x n => S (json_size x + n)) 0%nat items.

Definition members_size (members : list (string * json)) : nat :=
  fold_right (fun m n => S (json_size (snd m) + n)) 0%nat members.

(** A member of an object, as [print_value] prints it. *)
Definition member_printer (indent : nat) (m : string * json) (k : string) : string :=
  quote_k (fst m) (String ":" (String " " (print_value (snd m) indent k))).

(** [k] does not go on as a number would. *)
Definition value_end (k : string) : bool :=
  match k with
  | String c _ =>
      negb (is_digit c || Ascii.eqb c "." || Ascii.eqb c "e" || Ascii.eqb c "E")
  | EmptyString => true
  end.

(** [s] starts with a character that is neither white space nor a closing
    bracket. *)
Definition value_head (s : string) : bool :=
  match s with
  | String c _ => negb (is_ws c || Ascii.eqb c "]" || Ascii.eqb c "}")
  | EmptyString => false
  end.

(* ===================================================================== *)
(** * Platform: more of strings and arrays                                *)
(* ===================================================================== *)

(** [s.length]: the number of UTF-16 code units of the text whose UTF-8
    bytes [s] holds, one for a character of up to three bytes and two for
    a character of four bytes (a continuation byte counts for nothing). *)
Fixpoint utf16_length (s : string) : nat :=
  match s with
  | EmptyString => O
  | String c s' =>
      let n := N_of_ascii c in
      ((if (n <? 128)%N || ((192 <=? n)%N && (n <? 240)%N) then 1
        else if (240 <=? n)%N then 2 else 0)
       + utf16_length s')%nat
  end.

Definition string_of_bytes (l : list N) : string :=
  string_of_list_ascii (map ascii_of_N l).

Fixpoint string_rev_k (s : string) (k : string) : string :=
  match s with
  | EmptyString => k
  | String c s' => string_rev_k s' (String c k)
  end.

(** The bytes of [s] in reverse order. *)
Definition string_rev (s : string) : string := string_rev_k s "".

(** White space and line terminators, as [trim] and the numeric
    conversions know them, in UTF-8: TAB, LF, VT, FF, CR, SP, U+00A0,
    U+1680, U+2000 to U+200A, U+2028, U+2029, U+202F, U+205F, U+3000 and
    U+FEFF. *)
Definition white_space : list string :=
  map string_of_bytes
    [ [9]; [10]; [11]; [12]; [13]; [32]; [194; 160]; [225; 154; 128];
      [226; 128; 128]; [226; 128; 129]; [226; 128; 130]; [226; 128; 131];
      [226; 128; 132]; [226; 128; 133]; [226; 128; 134]; [226; 128; 135];
      [226; 128; 136]; [226; 128; 137]; [226; 128; 138];
      [226; 128; 168]; [226; 128; 169]; [226; 128; 175]; [226; 129; 159];
      [227; 128; 128]; [239; 187; 191] ]%N.

(** [s] without the prefix [p], if it starts with it. *)
Fixpoint strip_prefix (p s : string) : option string :=
  match p, s with
  | EmptyString, _ => Some s
  | String a p', String b s' => if Ascii.eqb a b then strip_prefix p' s' else None
  | String _ _, EmptyString => None
  end.

(** [s] without the one of [seqs] it starts with, if any. *)
Fixpoint strip_one (seqs : list string) (s : string) : option string :=
  match seqs with
  | [] => None
  | w :: seqs' =>
      match strip_prefix w s with
      | Some s' => Some s'
      | None => strip_one seqs' s
      end
  end.

Fixpoint strip_all (seqs : list string) (fuel : nat) (s : string) : string :=
  match fuel with
  | O => s
  | S fuel' =>
      match strip_one seqs s with
      | Some s' => strip_all seqs fuel' s'
      | None => s
      end
  end.

(** [s.trimStart()], [s.trimEnd()] and [s.trim()]. *)
Definition trimStart (s : string) : string := strip_all white_space (String.length s) s.

Definition trimEnd (s : string) : string :=
  string_rev (strip_all (map string_rev white_space) (String.length s) (string_rev s)).

Definition trim (s : string) : string := trimEnd (trimStart s).

(** The relative index of [slice]: counted from the end when negative,
    and kept within the bounds. *)
Definition slice_index (len i : Z) : Z :=
  if i <? 0 then Z.max (len + i) 0 else Z.min i len.

(** [array.slice(start, end)] *)
Definition Array_slice {A} (array : list A) (start end_ : Z) : list A :=
  let len := Z.of_nat (List.length array) in
  let k := slice_index len start in
  let final := slice_index len end_ in
  firstn (Z.to_nat (final - k)) (skipn (Z.to_nat k) array).

(** [s.slice(start, end)] and [s.slice(start)], on a string of ASCII
    characters (a code unit a byte). *)
Definition String_slice (s : string) (start : Z) (end_ : option Z) : string :=
  let len := Z.of_nat (String.length s) in
  let k := slice_index len start in
  let final := match end_ with Some e => slice_index len e | None => len end in
  substring (Z.to_nat k) (Z.to_nat (final - k)) s.

(** Digits of a radix up to 16, in either case, one digit at least being
    read by the caller. *)
Fixpoint scan_radix (radix : Z) (acc : Z) (s : string) : option Z :=
  match s with
  | EmptyString => Some acc
  | String c s' =>
      match hex_value c with
      | Some d =>
          if Z.of_N d <? radix then scan_radix radix (radix * acc + Z.of_N d) s'
          else None
      | None => None
      end
  end.

Definition radix_literal (radix : Z) (digits : string) : option Z :=
  match digits with
  | EmptyString => None
  | _ => scan_radix radix 0 digits
  end.

(** [BigInt(s)] of a string, in full ([StringToBigInt]): white space
    around is dropped; nothing is 0; then a hexadecimal, octal or binary
    literal without sign, or decimal digits with an optional sign.
    [None] is the [SyntaxError]. *)
Definition StringToBigInt (str : string) : option Z :=
  match trim str with
  | EmptyString => Some 0
  | String c rest as s =>
      let prefixed :=
        match rest with
        | String x digits =>
            if Ascii.eqb c "0" then
              if Ascii.eqb x "x" || Ascii.eqb x "X" then Some (radix_literal 16 digits)
              else if Ascii.eqb x "o" || Ascii.eqb x "O" then Some (radix_literal 8 digits)
              else if Ascii.eqb x "b" || Ascii.eqb x "B" then Some (radix_literal 2 digits)
              else None
            else None
        | EmptyString => None
        end in
      match prefixed with
      | Some r => r
      | None =>
          if Ascii.eqb c "-" then
            (if is_digit_string rest then Some (- digits_value rest) else None)
          else if Ascii.eqb c "+" then
            (if is_digit_string rest then Some (digits_value rest) else None)
          else (if is_digit_string s then Some (digits_value s) else None)
      end
  end.

(** [BigInt(n)] of a number: its value when it is an integer; [None] is
    the [RangeError] for the others. *)
Definition NumberToBigInt (n : JsNumber) : option Z :=
  match n with
  | Finite q => if Qeq_bool q (inject_Z (Qfloor q)) then Some (Qfloor q) else None
  | _ => None
  end.

(* ===================================================================== *)
(** * Input validation ([src/lib/validation.ts])                          *)
(* ===================================================================== *)

Module Validation.

Definition in_range (lo hi c : ascii) : bool :=
  (N_of_ascii lo <=? N_of_ascii c)%N && (N_of_ascii c <=? N_of_ascii hi)%N.

(** The character class [[1-9A-HJ-NP-Za-km-z]]. *)
Definition is_base58 (c : ascii) : bool :=
  in_range "1" "9" c || in_range "A" "H" c || in_range "J" "N" c
  || in_range "P" "Z" c || in_range "a" "k" c || in_range "m" "z" c.

(** [SOLANA_ADDRESS_REGEX.test(s)], for
    [/^[1-9A-HJ-NP-Za-km-z]{32,44}$/]: 32 to 44 characters of the class
    and nothing else. *)
Definition SOLANA_ADDRESS_REGEX_test (s : string) : bool :=
  (32 <=? String.length s)%nat && (String.length s <=? 44)%nat
  && forallb is_base58 (list_ascii_of_string s).

(** The issues [SolanaAddressSchema] raises on a string, check by check:
    [.min(32)], [.max(44)], [.regex(...)]. *)
Definition SolanaAddressSchema_issues (s : string) : list string :=
  (if (utf16_length s <? 32)%nat then ["Address too short"] else [])
  ++ (if (44 <? utf16_length s)%nat then ["Address too long"] else [])
  ++ (if SOLANA_ADDRESS_REGEX_test s then [] else ["Invalid Solana address format"]).

(** Validate and sanitize a Solana address; [None] if invalid. *)
Definition validateSolanaAddress (address : string) : option string :=
  match SolanaAddressSchema_issues address with
  | [] => Some address
  | _ :: _ => None
  end.

(** The argument of [safeParseBigInt]:
    [string | number | undefined | null]. *)
Inductive BigIntInput :=
| InString (s : string)
| InNumber (n : JsNumber)
| InUndefined
| InNull.

(** Safely parse a BigInt from string; [None] is [null]. *)
Definition safeParseBigInt (value : BigIntInput) : option Z :=
  match value with
  | InUndefined | InNull => None
  | InString s => StringToBigInt s
  | InNumber n => NumberToBigInt n
  end.

(** Parse BigInt with default value. *)
Definition parseBigIntOrDefault (value : BigIntInput) (defaultValue : Z) : Z :=
  match safeParseBigInt value with
  | Some result => result
  | None => defaultValue
  end.

End Validation.

(** After [src/lib/validation.test.ts]. *)
Example safeParseBigInt_tests :
  Validation.safeParseBigInt (Validation.InString "123") = Some 123 /\
  Validation.safeParseBigInt (Validation.InString "0") = Some 0 /\
  Validation.safeParseBigInt (Validation.InString "999999999999999999")
  = Some 999999999999999999 /\
  Validation.safeParseBigInt (Validation.InNumber (Finite 123)) = Some 123 /\
  Validation.safeParseBigInt (Validation.InString "") = Some 0 /\
  Validation.safeParseBigInt (Validation.InString "not a number") = None /\
  Validation.safeParseBigInt Validation.InNull = None /\
  Validation.safeParseBigInt Validation.InUndefined = None.
Proof. repeat split. Qed.

Example StringToBigInt_forms :
  StringToBigInt "  42 " = Some 42 /\ StringToBigInt "-7" = Some (-7) /\
  StringToBigInt "+7" = Some 7 /\ StringToBigInt "0x1F" = Some 31 /\
  StringToBigInt "0b101" = Some 5 /\ StringToBigInt "0o17" = Some 15 /\
  StringToBigInt "-0x1F" = None /\ StringToBigInt "1.5" = None /\
  StringToBigInt "1e3" = None /\ StringToBigInt "0x" = None /\
  StringToBigInt "1 2" = None.
Proof. repeat split. Qed.

Example validateSolanaAddress_tests :
  Validation.validateSolanaAddress "61V8vBaqAGMpgDQi4JcAwo1dmBGHsyhzodcPqnEVpump"
  = Some "61V8vBaqAGMpgDQi4JcAwo1dmBGHsyhzodcPqnEVpump" /\
  Validation.validateSolanaAddress "11111111111111111111111111111111"
  = Some "11111111111111111111111111111111" /\
  Validation.validateSolanaAddress "invalid" = None /\
  Validation.validateSolanaAddress "" = None /\
  Validation.SolanaAddressSchema_issues "0OIl"
  = ["Address too short"; "Invalid Solana address format"].
Proof. repeat split. Qed.

(* ===================================================================== *)
(** * Utilities ([src/lib/utils.ts])                                      *)
(* ===================================================================== *)

Module Utils.

(** Validate Solana address format ([base58Regex.test(address)], the
    same expression as [SOLANA_ADDRESS_REGEX]). *)
Definition isValidSolanaAddress (address : string) : bool :=
  Validation.SOLANA_ADDRESS_REGEX_test address.

(** Shorten Solana address for display. *)
Definition shortenAddress (address : string) (chars : Z) : string :=
  if String.eqb address "" then ""
  else (String_slice address 0 (Some chars) ++ "..."
        ++ String_slice address (- chars) None)%string.

(** The loop of [chunk], at index [i] with the chunks pushed so far, run
    for at most [fuel] tests of its condition; [None] when it has not
    ended by then. *)
Fixpoint chunk_loop {A} (fuel : nat) (array : list A) (size i : Z)
         (chunks : list (list A)) : option (list (list A)) :=
  match fuel with
  | O => None
  | S fuel' =>
      if i <? Z.of_nat (List.length array)
      then chunk_loop fuel' array size (i + size)
                      (chunks ++ [Array_slice array i (i + size)])
      else Some chunks
  end.

(** Chunk array into smaller arrays.  The condition is tested one time
    more than the array has elements, which is enough for any [size] of 1
    or more. *)
Definition chunk {A} (array : list A) (size : Z) : option (list (list A)) :=
  chunk_loop (S (List.length array)) array size 0 [].

End Utils.

(** After [src/lib/utils.test.ts]. *)
Example chunk_tests :
  Utils.chunk [1; 2; 3; 4; 5] 2 = Some [[1; 2]; [3; 4]; [5]] /\
  Utils.chunk [1; 2; 3; 4; 5] 3 = Some [[1; 2; 3]; [4; 5]] /\
  Utils.chunk (@nil Z) 2 = Some [] /\
  Utils.chunk [1; 2] 5 = Some [[1; 2]].
Proof. repeat split. Qed.

Example shortenAddress_tests :
  Utils.shortenAddress "61V8vBaqAGMpgDQi4JcAwo1dmBGHsyhzodcPqnEVpump" 4 = "61V8...pump" /\
  Utils.shortenAddress "61V8vBaqAGMpgDQi4JcAwo1dmBGHsyhzodcPqnEVpump" 6
  = "61V8vB...EVpump" /\
  Utils.shortenAddress "" 4 = "" /\
  Utils.shortenAddress "abc" 4 = "abc...abc" /\
  Utils.shortenAddress "abcdef" 0 = "...abcdef".
Proof. repeat split. Qed.

(* ===================================================================== *)
(** * Rate limiting ([src/lib/rate-limit.ts], [src/middleware.ts])        *)
(* ===================================================================== *)

(** [s.split(sep)] for a separator of one character. *)
Fixpoint String_split (sep : ascii) (s : string) : list string :=
  match s with
  | EmptyString => [EmptyString]
  | String c s' =>
      if Ascii.eqb c sep then EmptyString :: String_split sep s'
      else match String_split sep s' with
           | x :: l => String c x :: l
           | [] => [String c EmptyString]
           end
  end.

(** [request.headers.get(name)] is an [option string]; [if (value)] on it
    holds for a string that is not empty. *)
Definition present (value : option string) : option string :=
  match value with
  | Some s => if String.eqb s "" then None else Some s
  | None => None
  end.

Module RateLimit.
Import stdpp.gmap.
Local Open Scope Z_scope.

Record RateLimitConfig := {
  windowMs : Z;
  maxRequests : Z;
}.

Record RateLimitResult := {
  success : bool;
  remaining : Z;
  resetTime : Z;
  retryAfter : option Z;
}.

Record RateLimitEntry := {
  count : Z;
  e_resetTime : Z;
}.

(** [rateLimitStore], a [Map] from identifiers to entries. *)
Definition Store := gmap string RateLimitEntry.

(** [Math.ceil(ms / 1000)] of a whole number of milliseconds. *)
Definition ceil_seconds (ms : Z) : Z := - ((- ms) / 1000).

(** The callback of the cleanup timer, at time [now]: the entries whose
    [resetTime] is before [now] are deleted. *)
Definition cleanup (store : Store) (now : Z) : Store :=
  filter (fun kv : string * RateLimitEntry => ~ (e_resetTime (snd kv) < now)) store.

(** [checkRateLimitInMemory], with the value [now] of [Date.now()]: the
    result and the store after the call. *)
Definition checkRateLimitInMemory (store : Store) (now : Z) (identifier : string)
           (config : RateLimitConfig) : RateLimitResult * Store :=
  let fresh :=
    ({| success := true;
        remaining := maxRequests config - 1;
        resetTime := now + windowMs config;
        retryAfter := None |},
     <[identifier := {| count := 1; e_resetTime := now + windowMs config |}]> store) in
  match store !! identifier with
  | None => fresh
  | Some entry =>
      if e_resetTime entry <? now then fresh
      else if maxRequests config <=? count entry then
        ({| success := false;
            remaining := 0;
            resetTime := e_resetTime entry;
            retryAfter := Some (ceil_seconds (e_resetTime entry - now)) |},
         store)
      else
        let entry' := {| count := count entry + 1; e_resetTime := e_resetTime entry |} in
        ({| success := true;
            remaining := maxRequests config - count entry';
            resetTime := e_resetTime entry';
            retryAfter := None |},
         <[identifier := entry']> store)
  end.

(** Synchronous rate limit check (in-memory only). *)
Definition checkRateLimit := checkRateLimitInMemory.

(** Get client identifier from request: the [x-forwarded-for] and
    [x-real-ip] headers. *)
Definition getClientIdentifier (forwarded realIp : option string) : string :=
  let fromRealIp :=
    match present realIp with
    | Some ip => ip
    | None => "unknown"
    end in
  match present forwarded with
  | Some f =>
      let firstIp := trim (hd "" (String_split "," f)) in
      if String.eqb firstIp "" then fromRealIp else firstIp
  | None => fromRealIp
  end.

Definition RATE_LIMIT_PRESETS_standard : RateLimitConfig :=
  {| windowMs := 60 * 1000; maxRequests := 100 |}.
Definition RATE_LIMIT_PRESETS_strict : RateLimitConfig :=
  {| windowMs := 60 * 1000; maxRequests := 20 |}.
Definition RATE_LIMIT_PRESETS_lenient : RateLimitConfig :=
  {| windowMs := 60 * 1000; maxRequests := 300 |}.
Definition RATE_LIMIT_PRESETS_sync : RateLimitConfig :=
  {| windowMs := 5 * 60 * 1000; maxRequests := 5 |}.

End RateLimit.

Module Middleware.
Import stdpp.gmap.
Import RateLimit.
Local Open Scope Z_scope.

Definition RATE_LIMIT_WINDOW : Z := 60 * 1000.

Definition getRateLimit (pathname : string) : Z :=
  if String.prefix "/api/sync" pathname then 5
  else if String.prefix "/api/tokens" pathname then 100
  else if String.prefix "/api/stats" pathname then 100
  else 60.

Definition getClientIP (forwarded realIp : option string) : string :=
  match present forwarded with
  | Some f => trim (hd "" (String_split "," f))
  | None =>
      match present realIp with
      | Some ip => ip
      | None => "unknown"
      end
  end.

(** What [middleware] answers: the request goes on, with or without the
    rate-limit headers, or it is refused with status 429. *)
Inductive Response :=
| Next
| NextLimited (limit remaining : Z)
| TooManyRequests (retryAfter limit reset : Z).

(** The rate-limit part of [middleware], on [rateLimitMap], for a key. *)
Definition limit (map : Store) (now : Z) (key : string) (maxRequests : Z)
  : Response * Store :=
  let entry := map !! key in
  (* Clean up old entry *)
  let map :=
    match entry with
    | Some e => if e_resetTime e <? now then delete key map else map
    | None => map
    end in
  let currentEntry := map !! key in
  let after (map : Store) :=
    let count_or_1 :=
      match map !! key with
      | Some e => if count e =? 0 then 1 else count e
      | None => 1
      end in
    (NextLimited maxRequests (Z.max 0 (maxRequests - count_or_1)), map) in
  match currentEntry with
  | None => after (<[key := {| count := 1; e_resetTime := now + RATE_LIMIT_WINDOW |}]> map)
  | Some currentEntry =>
      if maxRequests <=? count currentEntry then
        (TooManyRequests (ceil_seconds (e_resetTime currentEntry - now)) maxRequests
                         (e_resetTime currentEntry),
         map)
      else
        after (<[key := {| count := count currentEntry + 1;
                           e_resetTime := e_resetTime currentEntry |}]> map)
  end.

(** [middleware]; [development] is [NODE_ENV === "development"]. *)
Definition middleware (development : bool) (map : Store) (now : Z)
           (pathname : string) (forwarded realIp : option string) : Response * Store :=
  if negb (String.prefix "/api" pathname) then (Next, map)
  else if development then (Next, map)
  else
    let clientIP := getClientIP forwarded realIp in
    let key :=
      (clientIP ++ ":" ++ String.concat "/" (firstn 3 (String_split "/" pathname)))%string in
    let maxRequests := getRateLimit pathname in
    limit map now key maxRequests.

End Middleware.

(** Runs of requests, and what a window answers, to state the limiter's
    behaviour. *)
Module RateLimitSpec.
Import stdpp.gmap.
Import RateLimit.
Local Open Scope Z_scope.

(** Requests checked in turn, each at its time for its identifier: the
    results, each with the identifier it answers, and the store at the
    end. *)
Fixpoint serve (config : RateLimitConfig) (store : Store) (requests : list (Z * string))
  : list (string * RateLimitResult) * Store :=
  match requests with
  | [] => ([], store)
  | (now, identifier) :: rest =>
      let '(result, store') := checkRateLimit store now identifier config in
      let '(results, store'') := serve config store' rest in
      ((identifier, result) :: results, store'')
  end.

(** The result of the request number [k] (from 0) of a window that opens
    at [t0], made at time [t]. *)
Definition window_result (config : RateLimitConfig) (t0 : Z) (k : nat) (t : Z)
  : RateLimitResult :=
  if Z.of_nat k <? Z.max 1 (maxRequests config) then
    {| success := true;
       remaining := maxRequests config - (Z.of_nat k + 1);
       resetTime := t0 + windowMs config;
       retryAfter := None |}
  else
    {| success := false;
       remaining := 0;
       resetTime := t0 + windowMs config;
       retryAfter := Some (ceil_seconds (t0 + windowMs config - t)) |}.

End RateLimitSpec.

Example String_split_tests :
  String_split "/" "/api/tokens/abc" = [""; "api"; "tokens"; "abc"] /\
  String_split "," "1.2.3.4, 5.6.7.8" = ["1.2.3.4"; " 5.6.7.8"] /\
  String_split "," "" = [""] /\
  String.concat "/" (firstn 3 (String_split "/" "/api/tokens/abc")) = "/api/tokens".
Proof. repeat split. Qed.

Example getClientIdentifier_tests :
  RateLimit.getClientIdentifier (Some "1.2.3.4, 5.6.7.8") None = "1.2.3.4" /\
  RateLimit.getClientIdentifier (Some " , 5.6.7.8") (Some "9.9.9.9") = "9.9.9.9" /\
  RateLimit.getClientIdentifier None None = "unknown" /\
  Middleware.getClientIP (Some " , 5.6.7.8") (Some "9.9.9.9") = "".
Proof. repeat split. Qed.

(* ===================================================================== *)
(** * Platform: HMAC-SHA256 and buffers                                   *)
(* ===================================================================== *)

Module HMAC.
Import SHA256.

(** The digest as its 32 bytes. *)
Definition digest_bytes (msg : list Z) : list Z :=
  let r := digest msg in
  concat (map (be_bytes 4) [ra r; rb r; rc r; rd r; re r; rf r; rg r; rh r]).

(** The key on one block of 64 bytes: hashed when it is longer, then
    filled up with zeros. *)
Definition block_key (key : list Z) : list Z :=
  let k := if (64 <? List.length key)%nat then digest_bytes key else key in
  k ++ repeat 0 (64 - List.length k).

(** [createHmac("sha256", key).update(data).digest("hex")] (RFC 2104). *)
Definition createHmac_sha256_hex (key data : string) : string :=
  let k := block_key (map byte_of_ascii (list_ascii_of_string key)) in
  let inner :=
    digest_bytes (map (Z.lxor 0x36) k ++ map byte_of_ascii (list_ascii_of_string data)) in
  let r := digest (map (Z.lxor 0x5c) k ++ inner) in
  String.concat ""
    (map (hex_word 8) [ra r; rb r; rc r; rd r; re r; rf r; rg r; rh r]).

End HMAC.

Definition createHmac_sha256_hex := HMAC.createHmac_sha256_hex.
Arguments createHmac_sha256_hex : simpl never.

Example createHmac_rfc4231_2 :
  createHmac_sha256_hex "Jefe" "what do ya want for nothing?"
  = "5bdcc146bf60754e6a042426089575c75a003f089d2739839dec58b964ec3843".
Proof. vm_compute. reflexivity. Qed.

(** A byte from 0x80 to 0xBF, which goes on a character and starts none. *)
Definition is_continuation (c : ascii) : bool :=
  let n := N_of_ascii c in ((128 <=? n) && (n <? 192))%N.

(** The number of bytes of the character that the byte [c] starts (a byte
    that starts none stands for itself). *)
Definition char_bytes (c : ascii) : nat :=
  let n := N_of_ascii c in
  if (n <? 192)%N then 1 else if (n <? 224)%N then 2 else if (n <? 240)%N then 3 else 4.

(** The strings that hold a text: every character has its first byte and
    the continuation bytes that this byte announces.  [pending] is the
    number of continuation bytes still due. *)
Fixpoint utf8_text_from (pending : nat) (s : string) : bool :=
  match s with
  | EmptyString => (pending =? 0)%nat
  | String c s' =>
      match pending with
      | O => negb (is_continuation c) && utf8_text_from (char_bytes c - 1) s'
      | S p => is_continuation c && utf8_text_from p s'
      end
  end.

Definition utf8_text (s : string) : bool := utf8_text_from 0 s.

(** Bytes from 1 to 127: ASCII without the character NUL. *)
Definition ascii_no_nul (s : string) : bool :=
  forallb (fun c => let n := N_of_ascii c in ((1 <=? n) && (n <? 128))%N)
          (list_ascii_of_string s).

Module Buffer.

(** [Buffer.alloc(size)]: [size] bytes, all zero. *)
Definition alloc (size : nat) : list ascii := repeat zero size.

(** The bytes that [buf.write(s)] writes when [room] bytes are free: the
    characters of [s] in UTF-8, as long as they fit whole; a character
    that would be cut is not written, nor is what follows it.  [pending]
    counts the bytes still to copy of the character under way. *)
Fixpoint written (s : string) (room pending : nat) : list ascii :=
  match s with
  | EmptyString => []
  | String c s' =>
      match pending with
      | S p => c :: written s' (room - 1) p
      | O =>
          if (char_bytes c <=? room)%nat
          then c :: written s' (room - 1) (char_bytes c - 1)
          else []
      end
  end.

(** [buf.write(s)] at offset 0: the buffer afterwards. *)
Definition write (buf : list ascii) (s : string) : list ascii :=
  let w := written s (List.length buf) 0 in
  w ++ skipn (List.length w) buf.

Fixpoint equal_bytes (a b : list ascii) : bool :=
  match a, b with
  | [], [] => true
  | x :: a', y :: b' => Ascii.eqb x y && equal_bytes a' b'
  | _, _ => false
  end.

(** [crypto.timingSafeEqual(a, b)]; it throws when the byte lengths
    differ. *)
Definition timingSafeEqual (a b : list ascii) : option bool :=
  if (List.length a =? List.length b)%nat then Some (equal_bytes a b) else None.

End Buffer.

Example Buffer_write_tests :
  Buffer.write (Buffer.alloc 4) "ab" = ["a"; "b"; zero; zero]%char /\
  List.length (Buffer.written "aé" 2 0) = 1%nat /\
  List.length (Buffer.written "éa" 2 0) = 2%nat /\
  List.length (Buffer.written "abc" 2 0) = 2%nat.
Proof. repeat split. Qed.

(* ===================================================================== *)
(** * The sync route: authentication ([src/app/api/sync/route.ts])        *)
(* ===================================================================== *)

Module SyncRoute.

Record AuthResult := {
  valid : bool;
  error : option string;
}.

(** Timing-safe string comparison; [None] when [timingSafeEqual] throws.
    Both arguments are strings at every call. *)
Definition secureCompare (a b : string) : option bool :=
  (* Pad to same length to prevent length-based timing leaks *)
  let maxLength := Nat.max (utf16_length a) (utf16_length b) in
  let bufA := Buffer.write (Buffer.alloc maxLength) a in
  let bufB := Buffer.write (Buffer.alloc maxLength) b in
  if (utf16_length a =? utf16_length b)%nat then Buffer.timingSafeEqual bufA bufB
  else Some false.

(** Verify HMAC signature for Vercel Cron requests. *)
Definition verifyVercelSignature (CRON_SECRET : option string) (signature path : string)
  : bool :=
  match present CRON_SECRET, present (Some signature) with
  | Some secret, Some signature =>
      let expectedSignature := createHmac_sha256_hex secret path in
      match secureCompare signature expectedSignature with
      | Some r => r
      | None => false
      end
  | _, _ => false
  end.

(** Validate CRON authentication, from [CRON_SECRET], whether [NODE_ENV]
    is [development], the headers [x-vercel-cron-signature] and
    [authorization], and the path and search of the request's URL; [None]
    when it throws. *)
Definition validateCronAuth (CRON_SECRET : option string) (development : bool)
           (vercelSignature : option string) (pathname search : string)
           (authHeader : option string) : option AuthResult :=
  let unauthorized := Some {| valid := false; error := Some "Unauthorized" |} in
  let configured :=
    match present CRON_SECRET with
    | Some secret => if String.eqb (trim secret) "" then None else Some secret
    | None => None
    end in
  match configured with
  | None =>
      if development then Some {| valid := true; error := None |}
      else Some {| valid := false; error := Some "Server configuration error" |}
  | Some secret =>
      let bySignature :=
        match present vercelSignature with
        | Some vercelSignature =>
            let requestPath := (pathname ++ search)%string in
            verifyVercelSignature CRON_SECRET vercelSignature requestPath
        | None => false
        end in
      if bySignature then Some {| valid := true; error := None |}
      else
        match present authHeader with
        | Some authHeader =>
            let expectedToken := ("Bearer " ++ secret)%string in
            match secureCompare authHeader expectedToken with
            | Some true => Some {| valid := true; error := None |}
            | Some false => unauthorized
            | None => None
            end
        | None => unauthorized
        end
  end.

End SyncRoute.

Example secureCompare_tests :
  SyncRoute.secureCompare "Bearer abc" "Bearer abc" = Some true /\
  SyncRoute.secureCompare "Bearer abc" "Bearer abd" = Some false /\
  SyncRoute.secureCompare "Bearer abc" "Bearer ab" = Some false /\
  SyncRoute.secureCompare "éa" "éb" = Some true.
Proof. repeat split. Qed.

(* ===================================================================== *)
(** * The columns of the ledger (the migration that creates [fee_events]) *)
(* ===================================================================== *)

Module FeeEventsTable.

(** What a [BIGINT] column holds: the signed integers of 64 bits. *)
Definition int64 (n : Z) : bool := (- 2 ^ 63 <=? n) && (n <? 2 ^ 63).

(** An event that every column of [fee_events] takes as it is:
    [amount_lamports] and [burned_token_amount] are [BIGINT],
    [signature] is [VARCHAR(88)], [burned_token_mint] is [VARCHAR(44)]
    and [block_time] is [TIMESTAMP(3)].  The strings are kept to ASCII
    without NUL and the time to the years 1970 to 9999, which the store
    takes for certain. *)
Definition fits (ev : Classifier.ClassifiedEvent) : bool :=
  int64 (Classifier.amountLamports ev)
  && ascii_no_nul (Classifier.ce_signature ev)
  && (String.length (Classifier.ce_signature ev) <=? 88)%nat
  && (0 <=? Classifier.blockTime ev) && (Classifier.blockTime ev <? 253402300800000)
  && match Classifier.burnedTokenMint ev with
     | Some m => ascii_no_nul m && (String.length m <=? 44)%nat
     | None => true
     end
  && match Classifier.burnedTokenAmount ev with
     | Some a => int64 a
     | None => true
     end.

End FeeEventsTable.

(* ********************************************************************* *)
(** * Properties                                                          *)
(* ********************************************************************* *)

(* ===================================================================== *)
(** * The proof-of-history chain                                          *)
(* ===================================================================== *)

Section PoHFacts.
Import PoH PoHSpec.

Lemma verify_loop_links (prev : PoHRecord) (l : list PoHRecord) (i : nat) :
  links prev l -> verify_loop (Some prev) i l = Valid.
Proof.
  revert prev i. induction l as [|r l IH]; intros prev i H; [reflexivity|].
  destruct H as (Hh & Hp & Hs & Hl). cbn [verify_loop].
  rewrite Hh, Hp, String.eqb_refl, Hs, Z.eqb_refl. cbn. now apply IH.
Qed.

Lemma verify_loop_consistent (l : list PoHRecord) (i : nat) :
  consistent l -> verify_loop None i l = Valid.
Proof.
  destruct l as [|r l]; [reflexivity|]. intros [Hh Hl].
  cbn [verify_loop]. rewrite Hh. cbn. now apply verify_loop_links.
Qed.

Lemma links_valid_inv (prev : PoHRecord) (l : list PoHRecord) (i : nat) :
  verify_loop (Some prev) i l = Valid -> links prev l.
Proof.
  revert prev i. induction l as [|r l IH]; intros prev i H; [exact I|].
  cbn [verify_loop] in H.
  destruct (verifyRecordHash r) eqn:Hh; cbn in H; [|discriminate].
  destruct (String.eqb_spec (prevHash r) (hash prev)) as [Hp|]; cbn in H; [|discriminate].
  destruct (Z.eqb_spec (sequence r) (sequence prev + 1)) as [Hs|]; cbn in H; [|discriminate].
  cbn [links]. eauto.
Qed.

Lemma consistent_valid_inv (l : list PoHRecord) (i : nat) :
  verify_loop None i l = Valid -> consistent l.
Proof.
  destruct l as [|r l]; [intros; exact I|]. cbn [verify_loop].
  destruct (verifyRecordHash r) eqn:Hh; cbn; [|discriminate].
  intros H. split; [exact Hh|]. eapply links_valid_inv, H.
Qed.

(** ** Sorting *)

Lemma links_ascending (prev : PoHRecord) (l : list PoHRecord) :
  links prev l -> ascending (prev :: l).
Proof.
  revert prev. induction l as [|r l IH]; intros prev H; [exact I|].
  destruct H as (_ & _ & Hs & Hl). split; [lia|]. now apply IH.
Qed.

Lemma consistent_ascending (l : list PoHRecord) : consistent l -> ascending l.
Proof.
  destruct l as [|r l]; [trivial|]. intros [_ H]. now apply links_ascending.
Qed.

Lemma sort_ascending (l : list PoHRecord) : ascending l -> sort_by_sequence l = l.
Proof.
  induction l as [|x l IH]; [reflexivity|]. intros H. cbn [sort_by_sequence].
  destruct l as [|y l']; [reflexivity|]. destruct H as [Hxy Hl].
  rewrite (IH Hl). cbn [insert_by_sequence].
  destruct (Z.leb_spec (sequence x) (sequence y)); [reflexivity|lia].
Qed.

Lemma insert_Permutation (r : PoHRecord) (l : list PoHRecord) :
  Permutation (r :: l) (insert_by_sequence r l).
Proof.
  induction l as [|x l IH]; cbn [insert_by_sequence]; [reflexivity|].
  destruct (sequence r <=? sequence x); [reflexivity|].
  rewrite perm_swap. now constructor.
Qed.

Lemma sort_Permutation (l : list PoHRecord) : Permutation l (sort_by_sequence l).
Proof.
  induction l as [|x l IH]; cbn [sort_by_sequence]; [constructor|].
  rewrite <- insert_Permutation. now constructor.
Qed.

Lemma insert_ascending (r : PoHRecord) (l : list PoHRecord) :
  ascending l -> ascending (insert_by_sequence r l).
Proof.
  induction l as [|x l IH]; intros H; [exact I|]. cbn [insert_by_sequence].
  destruct (Z.leb_spec (sequence r) (sequence x)) as [Hle|Hgt].
  - split; assumption.
  - destruct l as [|y l'].
    + cbn. split; [lia|exact I].
    + destruct H as [Hxy Hl]. specialize (IH Hl). cbn [insert_by_sequence] in *.
      destruct (sequence r <=? sequence y) eqn:E.
      * split; [lia|]. exact IH.
      * split; [lia|]. exact IH.
Qed.

Lemma sort_is_ascending (l : list PoHRecord) : ascending (sort_by_sequence l).
Proof.
  induction l as [|x l IH]; [exact I|]. cbn [sort_by_sequence].
  now apply insert_ascending.
Qed.

(** ** The chain a manager builds *)

Lemma last_cons_default {A} (x : A) (l : list A) (d : A) :
  List.last (x :: l) d = List.last l x.
Proof.
  revert x d. induction l as [|y l IH]; intros x d; [reflexivity|].
  change (List.last (x :: y :: l) d) with (List.last (y :: l) d).
  now rewrite !IH.
Qed.

Lemma links_snoc (prev r : PoHRecord) (l : list PoHRecord) :
  links prev l ->
  verifyRecordHash r = true ->
  prevHash r = hash (List.last l prev) ->
  sequence r = sequence (List.last l prev) + 1 ->
  links prev (l ++ [r]).
Proof.
  revert prev. induction l as [|x l IH]; intros prev Hl Hv Hp Hs.
  - cbn in *. auto.
  - destruct Hl as (? & ? & ? & Hl). cbn [app links]. repeat split; try assumption.
    rewrite last_cons_default in Hp, Hs. apply IH; assumption.
Qed.

Lemma tail_state_cons (x : PoHRecord) (l : list PoHRecord) :
  tail_state (x :: l) = (hash (List.last l x), sequence (List.last l x)).
Proof.
  unfold tail_state. revert x. induction l as [|y l IH]; intros x; [reflexivity|].
  rewrite last_cons_default. rewrite <- (IH y). reflexivity.
Qed.

Lemma tail_state_snoc (l : list PoHRecord) (r : PoHRecord) :
  tail_state (l ++ [r]) = (hash r, sequence r).
Proof. unfold tail_state. now rewrite last_snoc. Qed.

Lemma rooted_snoc (l : list PoHRecord) (r : PoHRecord) :
  rooted l ->
  verifyRecordHash r = true ->
  (prevHash r, sequence r - 1) = tail_state l ->
  rooted (l ++ [r]).
Proof.
  destruct l as [|x l]; intros Hr Hv Ht.
  - unfold tail_state in Ht. cbn in Ht. injection Ht as Hp Hs.
    cbn. repeat split; auto. lia.
  - rewrite tail_state_cons in Ht. injection Ht as Hp Hs.
    destruct Hr as (Hg & H1 & Hx & Hl). cbn [app rooted consistent].
    repeat split; try assumption. apply links_snoc; auto. lia.
Qed.

Lemma verifyRecordHash_from_row (r : PoHRecord) :
  verifyRecordHash (from_row r) = verifyRecordHash r.
Proof.
  unfold verifyRecordHash, generateHash. destruct r as [sq h p t sl e v m sy a sg].
  cbn [from_row omit_hash hash d_sequence d_prevHash d_timestamp d_slot d_eventType
       d_vault d_tokenMint d_amountLamports d_signature sequence prevHash timestamp
       slot eventType vault tokenMint amountLamports signature].
  destruct sl as [n|]; [|reflexivity].
  destruct (Z.eqb_spec n 0) as [->|]; reflexivity.
Qed.

Lemma links_from_row (prev : PoHRecord) (l : list PoHRecord) :
  links prev l -> links (from_row prev) (map from_row l).
Proof.
  revert prev. induction l as [|r l IH]; intros prev H; [exact I|].
  destruct H as (Hh & Hp & Hs & Hl). cbn [map links].
  rewrite verifyRecordHash_from_row. repeat split; auto.
Qed.

Lemma rooted_from_row (l : list PoHRecord) : rooted l -> rooted (map from_row l).
Proof.
  destruct l as [|r l]; [trivial|]. intros (Hg & H1 & Hh & Hl).
  cbn [map rooted consistent]. rewrite verifyRecordHash_from_row.
  repeat split; auto using links_from_row.
Qed.

Lemma rooted_consistent (l : list PoHRecord) : rooted l -> consistent l.
Proof. destruct l; [trivial|]. now intros (_ & _ & H). Qed.

Lemma verifyChain_rooted (l : list PoHRecord) : rooted l -> verifyChain l = Valid.
Proof.
  intros Hr. pose proof (rooted_consistent _ Hr) as Hc.
  unfold verifyChain. destruct l as [|r l]; [reflexivity|].
  rewrite (sort_ascending _ (consistent_ascending _ Hc)).
  destruct Hr as (Hg & _ & _). rewrite Hg, String.eqb_refl. cbn [negb andb].
  now apply verify_loop_consistent.
Qed.

Lemma rows_of_snoc (mint : string) (table : Table) (r : PoHRecord) :
  tokenMint r = mint -> rows_of mint (table ++ [r]) = rows_of mint table ++ [r].
Proof.
  intros <-. unfold rows_of. rewrite List.filter_app. cbn.
  now rewrite String.eqb_refl.
Qed.

Lemma addEvent_inv (mgr mgr' : Manager) (table table' : Table) (now : Date)
      (event : EventInput) (record : PoHRecord) :
  manager_inv mgr table ->
  addEvent mgr table now event = Some (record, mgr', table') ->
  m_tokenMint mgr' = m_tokenMint mgr /\ manager_inv mgr' table' /\
  table' = table ++ [record] /\ verifyRecordHash record = true.
Proof.
  intros [Hr Ht] H. unfold addEvent in H.
  match type of H with context [create table ?r] => set (rec := r) in * end.
  unfold create in H. destruct (existsb _ table); [discriminate|].
  injection H as <- <- <-.
  assert (Hv : verifyRecordHash rec = true).
  { unfold verifyRecordHash. cbn. apply String.eqb_refl. }
  split; [reflexivity|]. split; [|split; [reflexivity|exact Hv]].
  unfold manager_inv. cbn [m_tokenMint lastHash lastSequence].
  rewrite rows_of_snoc by reflexivity. split.
  - apply rooted_snoc; auto. rewrite <- Ht. cbn. f_equal. lia.
  - now rewrite tail_state_snoc.
Qed.

Lemma addEvents_inv (events : list (Date * EventInput)) (mgr mgr' : Manager)
      (table table' : Table) :
  manager_inv mgr table ->
  addEvents mgr table events = (mgr', table') ->
  m_tokenMint mgr' = m_tokenMint mgr /\ manager_inv mgr' table'.
Proof.
  revert mgr table. induction events as [|[now ev] events IH]; intros mgr table Hi H.
  - injection H as <- <-. auto.
  - cbn [addEvents] in H.
    destruct (addEvent mgr table now ev) as [[[rec m1] t1]|] eqn:E.
    + destruct (addEvent_inv _ _ _ _ _ _ _ Hi E) as (Hm & Hi1 & _).
      destruct (IH _ _ Hi1 H) as [Hm' Hi']. split; [congruence|assumption].
    + eauto.
Qed.

Lemma newManager_inv (mint : string) (table : Table) :
  rows_of mint table = [] -> manager_inv (newManager mint) table.
Proof.
  intros H. unfold manager_inv. cbn [newManager m_tokenMint lastHash lastSequence].
  rewrite H. split; [exact I|reflexivity].
Qed.

Lemma getFullChain_inv (mgr : Manager) (table : Table) :
  manager_inv mgr table ->
  getFullChain mgr table = map from_row (rows_of (m_tokenMint mgr) table) /\
  rooted (getFullChain mgr table).
Proof.
  intros [Hr _]. unfold getFullChain, findMany. fold (rows_of (m_tokenMint mgr) table).
  rewrite (sort_ascending _ (consistent_ascending _ (rooted_consistent _ Hr))).
  split; [reflexivity|]. now apply rooted_from_row.
Qed.

(** Any run of appends by the single writer, started on a store without
    rows of the token, leaves a chain that verifies. *)
Lemma appended_chain_verifies (mint : string) (table0 : Table)
      (events : list (Date * EventInput)) (mgr : Manager) (table : Table) :
  rows_of mint table0 = [] ->
  addEvents (newManager mint) table0 events = (mgr, table) ->
  verifyChain (getFullChain mgr table) = Valid.
Proof.
  intros H0 H. destruct (addEvents_inv _ _ _ _ _ (newManager_inv _ _ H0) H) as [_ Hi].
  apply verifyChain_rooted. now apply getFullChain_inv.
Qed.

(** ** Tampering *)

Lemma verify_loop_reject (l : list PoHRecord) (prev : option PoHRecord)
      (i p : nat) (r : PoHRecord) :
  l !! p = Some r -> verifyRecordHash r = false ->
  exists j e, verify_loop prev i l = Invalid j e /\ (i <= j <= i + p)%nat.
Proof.
  revert prev i p. induction l as [|x l IH]; intros prev i p Hp Hr; [discriminate|].
  cbn [verify_loop]. destruct p as [|p].
  - injection Hp as ->. rewrite Hr. cbn [negb]. eexists _, _. split; [reflexivity|lia].
  - cbn in Hp.
    destruct (negb (verifyRecordHash x)); [eexists _, _; split; [reflexivity|lia]|].
    destruct prev as [q|].
    + destruct (negb (String.eqb (prevHash x) (hash q)));
        [eexists _, _; split; [reflexivity|lia]|].
      destruct (negb (sequence x =? sequence q + 1));
        [eexists _, _; split; [reflexivity|lia]|].
      destruct (IH (Some x) (S i) p Hp Hr) as (j & e & -> & ?).
      eexists _, _. split; [reflexivity|lia].
    + destruct (IH (Some x) (S i) p Hp Hr) as (j & e & -> & ?).
      eexists _, _. split; [reflexivity|lia].
Qed.

Lemma sort_nil_inv (l : list PoHRecord) : sort_by_sequence l = [] -> l = [].
Proof.
  intros H. pose proof (sort_Permutation l) as P. rewrite H in P.
  now apply Permutation_nil_r in P.
Qed.

(** A record that does not carry its own digest is found at its position
    in sequence order, or earlier. *)
Lemma verifyChain_reject (records : list PoHRecord) (p : nat) (r : PoHRecord) :
  sort_by_sequence records !! p = Some r -> verifyRecordHash r = false ->
  exists j e, verifyChain records = Invalid j e /\ (j <= p)%nat.
Proof.
  intros Hp Hr. unfold verifyChain. destruct records as [|x records]; [discriminate|].
  destruct (sort_by_sequence (x :: records)) as [|first rest] eqn:E; [discriminate|].
  destruct (negb (String.eqb (prevHash first) GENESIS_HASH) && (sequence first =? 1)).
  - eexists _, _. split; [reflexivity|lia].
  - destruct (verify_loop_reject _ None 0 p r Hp Hr) as (j & e & -> & ?).
    eexists _, _. split; [reflexivity|lia].
Qed.

Lemma verifyRecordHash_true (r : PoHRecord) :
  verifyRecordHash r = true <-> hash r = generateHash (omit_hash r).
Proof. unfold verifyRecordHash. apply String.eqb_eq. Qed.

Lemma verifyRecordHash_false (r : PoHRecord) :
  verifyRecordHash r = false <-> hash r <> generateHash (omit_hash r).
Proof. unfold verifyRecordHash. apply String.eqb_neq. Qed.

Lemma set_hash_rejected (h : string) (r : PoHRecord) :
  verifyRecordHash r = true -> h <> hash r -> verifyRecordHash (set_hash h r) = false.
Proof.
  rewrite verifyRecordHash_true, verifyRecordHash_false. intros Hr Hh.
  change (omit_hash (set_hash h r)) with (omit_hash r). cbn [set_hash hash]. congruence.
Qed.

Lemma alter_middle {A} (f : A -> A) (l1 l2 : list A) (x : A) :
  alter f (length l1) (l1 ++ x :: l2) = l1 ++ f x :: l2.
Proof. induction l1 as [|y l1 IH]; [reflexivity|]. cbn. now f_equal. Qed.

Lemma lookup_split {A} (l : list A) (i : nat) (x : A) :
  l !! i = Some x -> exists l1 l2, l = l1 ++ x :: l2 /\ length l1 = i.
Proof.
  revert i. induction l as [|y l IH]; intros i H; [discriminate|].
  destruct i as [|i].
  - injection H as ->. now exists [], l.
  - destruct (IH i H) as (l1 & l2 & -> & <-). now exists (y :: l1), l2.
Qed.

Lemma ascending_same_sequence (l l' : list PoHRecord) :
  map sequence l = map sequence l' -> ascending l -> ascending l'.
Proof.
  revert l'. induction l as [|x l IH]; intros l' Hm Ha.
  - destruct l'; [exact I|discriminate].
  - destruct l' as [|x' l']; [discriminate|]. injection Hm as Hx Hm.
    destruct l as [|y l]; destruct l' as [|y' l'']; try discriminate; [exact I|].
    destruct Ha as [Hxy Ha]. split.
    + injection Hm as Hy _. lia.
    + now apply IH.
Qed.

Lemma last_cons_Some (x : PoHRecord) (l : list PoHRecord) :
  last (x :: l) = Some (List.last l x).
Proof.
  revert x. induction l as [|y l IH]; intros x; [reflexivity|].
  rewrite last_cons_default. rewrite <- IH. reflexivity.
Qed.

Lemma verify_loop_app (l1 rest : list PoHRecord) (prev : option PoHRecord) (i : nat) :
  verify_loop prev i l1 = Valid ->
  verify_loop prev i (l1 ++ rest)
  = verify_loop (match last l1 with Some x => Some x | None => prev end)
                (i + length l1) rest.
Proof.
  revert prev i. induction l1 as [|x l1 IH]; intros prev i H.
  - cbn. now rewrite Nat.add_0_r.
  - cbn [app verify_loop] in *.
    destruct (negb (verifyRecordHash x)); [discriminate|].
    assert (Hlast : match last (x :: l1) with Some y => Some y | None => prev end
                    = match last l1 with Some y => Some y | None => Some x end).
    { rewrite last_cons_Some. destruct l1 as [|y l1]; [reflexivity|].
      now rewrite last_cons_Some, last_cons_default. }
    rewrite Hlast. cbn [length]. replace (i + S (length l1))%nat with (S i + length l1)%nat by lia.
    destruct prev as [q|].
    + destruct (negb (String.eqb (prevHash x) (hash q))); [discriminate|].
      destruct (negb (sequence x =? sequence q + 1)); [discriminate|].
      now apply IH.
    + now apply IH.
Qed.

Lemma rooted_split_link (l1 l2 : list PoHRecord) (x r : PoHRecord) :
  consistent (x :: l1 ++ r :: l2) ->
  prevHash r = hash (List.last l1 x) /\ consistent (x :: l1).
Proof.
  revert x. induction l1 as [|y l1 IH]; intros x [Hx Hl].
  - cbn in Hl. destruct Hl as (_ & Hp & _). split; [exact Hp|]. split; [exact Hx|exact I].
  - cbn [app links] in Hl. destruct Hl as (Hy & Hp & Hs & Hl).
    destruct (IH y (conj Hy Hl)) as [Hr [_ Hc]]. rewrite last_cons_default.
    split; [exact Hr|]. split; [exact Hx|]. cbn [links]. auto.
Qed.

(** On a rooted chain, a record whose [prevHash] was altered is rejected
    at its own index. *)
Lemma set_prevHash_rejected (chain : list PoHRecord) (i : nat) (r : PoHRecord)
      (h : string) :
  rooted chain -> chain !! i = Some r -> h <> prevHash r ->
  exists e, verifyChain (alter (set_prevHash h) i chain) = Invalid i e.
Proof.
  intros Hroot Hi Hh.
  pose proof (consistent_ascending _ (rooted_consistent _ Hroot)) as Hasc.
  destruct (lookup_split _ _ _ Hi) as (l1 & l2 & -> & <-).
  rewrite alter_middle.
  assert (Hsort : sort_by_sequence (l1 ++ set_prevHash h r :: l2)
                  = l1 ++ set_prevHash h r :: l2).
  { apply sort_ascending. eapply ascending_same_sequence; [|exact Hasc].
    rewrite !map_app. reflexivity. }
  unfold verifyChain. rewrite Hsort.
  destruct l1 as [|x l1].
  - cbn [app length]. destruct Hroot as (Hg & H1 & _).
    cbn [set_prevHash prevHash sequence]. rewrite H1.
    destruct (String.eqb_spec h GENESIS_HASH) as [->|_]; [congruence|].
    cbn. eauto.
  - cbn [app]. destruct Hroot as (Hg & H1 & Hc).
    rewrite Hg, String.eqb_refl. cbn [negb andb].
    destruct (rooted_split_link _ _ _ _ Hc) as [Hp Hc1].
    change (x :: l1 ++ set_prevHash h r :: l2)
      with ((x :: l1) ++ set_prevHash h r :: l2).
    rewrite verify_loop_app by (now apply verify_loop_consistent).
    rewrite last_cons_Some. cbn [verify_loop Nat.add].
    destruct (negb (verifyRecordHash (set_prevHash h r))); [eauto|].
    cbn [set_prevHash prevHash]. rewrite <- Hp.
    destruct (String.eqb_spec h (prevHash r)) as [->|_]; [congruence|].
    cbn. eauto.
Qed.

(** On a list in sequence order, a record whose [hash] was altered is
    rejected at its own index or before. *)
Lemma set_hash_rejected_at (chain : list PoHRecord) (i : nat) (r : PoHRecord)
      (h : string) :
  ascending chain -> chain !! i = Some r ->
  verifyRecordHash r = true -> h <> hash r ->
  exists j e, verifyChain (alter (set_hash h) i chain) = Invalid j e /\ (j <= i)%nat.
Proof.
  intros Hasc Hi Hr Hh.
  destruct (lookup_split _ _ _ Hi) as (l1 & l2 & -> & <-).
  rewrite alter_middle. apply (verifyChain_reject _ _ (set_hash h r)).
  - rewrite sort_ascending.
    + now rewrite list_lookup_middle.
    + eapply ascending_same_sequence; [|exact Hasc]. rewrite !map_app. reflexivity.
  - now apply set_hash_rejected.
Qed.

Lemma consistent_lookup (l : list PoHRecord) (i : nat) (r : PoHRecord) :
  consistent l -> l !! i = Some r -> verifyRecordHash r = true.
Proof.
  destruct l as [|x l]; [discriminate|]. intros [Hx Hl]. revert x i Hx Hl.
  induction l as [|y l IH]; intros x i Hx Hl Hi.
  - destruct i as [|i]; [injection Hi as <-; exact Hx|discriminate].
  - destruct i as [|i]; [injection Hi as <-; exact Hx|].
    destruct Hl as (Hy & _ & _ & Hl). exact (IH y i Hy Hl Hi).
Qed.

(** A record whose [sequence] was altered is rejected at its position in
    sequence order or before, provided the digest of the altered record
    is not the stored one. *)
Lemma set_sequence_rejected (chain : list PoHRecord) (i : nat) (r : PoHRecord)
      (n : Z) :
  chain !! i = Some r ->
  generateHash (omit_hash (set_sequence n r)) <> hash r ->
  let tampered := alter (set_sequence n) i chain in
  exists j e, verifyChain tampered = Invalid j e /\
    (exists p, sort_by_sequence tampered !! p = Some (set_sequence n r)) /\
    (forall p, sort_by_sequence tampered !! p = Some (set_sequence n r) -> (j <= p)%nat).
Proof.
  intros Hi Hn tampered.
  assert (Hrej : verifyRecordHash (set_sequence n r) = false).
  { apply verifyRecordHash_false. cbn [set_sequence hash] in *. congruence. }
  assert (Hin : exists p, sort_by_sequence tampered !! p = Some (set_sequence n r)).
  { apply list_elem_of_lookup_1, list_elem_of_In.
    apply (Permutation_in _ (sort_Permutation tampered)).
    apply list_elem_of_In, list_elem_of_lookup. exists i. subst tampered.
    now rewrite list_lookup_alter_eq, Hi. }
  destruct Hin as [p0 Hp0].
  destruct (verifyChain_reject _ _ _ Hp0 Hrej) as (j & e & Hv & _).
  exists j, e. split; [exact Hv|]. split; [eauto|].
  intros p Hp. destruct (verifyChain_reject _ _ _ Hp Hrej) as (j' & e' & Hv' & Hle).
  rewrite Hv in Hv'. injection Hv' as -> _. exact Hle.
Qed.

(** ** Suffixes of a chain *)

Lemma links_sequence (x : PoHRecord) (l : list PoHRecord) (i : nat) (r : PoHRecord) :
  links x l -> l !! i = Some r -> sequence r = sequence x + Z.of_nat i + 1.
Proof.
  revert x i. induction l as [|y l IH]; intros x i Hl Hi; [discriminate|].
  destruct Hl as (_ & _ & Hs & Hl). destruct i as [|i].
  - injection Hi as <-. lia.
  - rewrite (IH y i Hl Hi). lia.
Qed.

Lemma links_drop (x : PoHRecord) (l : list PoHRecord) (k : nat) :
  links x l -> consistent (drop k l).
Proof.
  revert x k. induction l as [|y l IH]; intros x k Hl.
  - now destruct k.
  - destruct Hl as (Hy & _ & _ & Hl). destruct k as [|k].
    + split; assumption.
    + cbn [drop]. now apply (IH y).
Qed.

Lemma consistent_drop (l : list PoHRecord) (k : nat) :
  consistent l -> consistent (drop k l).
Proof.
  destruct l as [|x l]; [now destruct k|]. intros [Hx Hl].
  destruct k as [|k]; [split; assumption|]. cbn [drop]. exact (links_drop x l k Hl).
Qed.

(** The verdict on a list in sequence order. *)
Lemma verifyChain_sorted (first : PoHRecord) (rest : list PoHRecord)
      (records : list PoHRecord) :
  sort_by_sequence records = first :: rest ->
  verifyChain records
  = if negb (String.eqb (prevHash first) GENESIS_HASH) && (sequence first =? 1)
    then Invalid 0 "First record does not link to genesis hash"
    else verify_loop None 0 (first :: rest).
Proof.
  intros H. unfold verifyChain. destruct records as [|x records]; [discriminate|].
  now rewrite H.
Qed.

(** The head of the sorted list carries the lowest sequence number. *)
Lemma ascending_head_min (first : PoHRecord) (rest : list PoHRecord) (r : PoHRecord) :
  ascending (first :: rest) -> In r (first :: rest) -> sequence first <= sequence r.
Proof.
  revert first. induction rest as [|y rest IH]; intros first Ha [<-|Hin];
    try lia; try contradiction.
  destruct Ha as [Hxy Ha]. specialize (IH y Ha Hin). lia.
Qed.

Lemma sorted_head_min (records : list PoHRecord) (first : PoHRecord)
      (rest : list PoHRecord) (r : PoHRecord) :
  sort_by_sequence records = first :: rest -> In r records ->
  sequence first <= sequence r.
Proof.
  intros H Hin. apply (ascending_head_min first rest).
  - rewrite <- H. apply sort_is_ascending.
  - rewrite <- H. now apply (Permutation_in _ (sort_Permutation records)).
Qed.

(** ** The token symbol *)

Lemma same_but_symbol_set (sym : option string) (r : PoHRecord) :
  same_but_symbol r (set_tokenSymbol sym r).
Proof. reflexivity. Qed.

Lemma same_but_symbol_fields (r r' : PoHRecord) :
  same_but_symbol r r' ->
  sequence r = sequence r' /\ hash r = hash r' /\ prevHash r = prevHash r' /\
  generateHash (omit_hash r) = generateHash (omit_hash r').
Proof.
  intros H. repeat split.
  - exact (f_equal sequence H).
  - exact (f_equal hash H).
  - exact (f_equal prevHash H).
  - change (generateHash (omit_hash (set_tokenSymbol None r))
            = generateHash (omit_hash (set_tokenSymbol None r'))).
    now rewrite H.
Qed.

Lemma same_but_symbol_verify (r r' : PoHRecord) :
  same_but_symbol r r' -> verifyRecordHash r = verifyRecordHash r'.
Proof.
  intros H. destruct (same_but_symbol_fields _ _ H) as (_ & Hh & _ & Hg).
  unfold verifyRecordHash. now rewrite Hh, Hg.
Qed.

Lemma insert_same_but_symbol (r r' : PoHRecord) (l l' : list PoHRecord) :
  same_but_symbol r r' -> Forall2 same_but_symbol l l' ->
  Forall2 same_but_symbol (insert_by_sequence r l) (insert_by_sequence r' l').
Proof.
  intros Hr Hl. induction Hl as [|x x' l l' Hx Hl IH]; cbn [insert_by_sequence].
  - repeat constructor. exact Hr.
  - destruct (same_but_symbol_fields _ _ Hr) as (<- & _).
    destruct (same_but_symbol_fields _ _ Hx) as (<- & _).
    destruct (sequence r <=? sequence x); repeat constructor; assumption.
Qed.

Lemma sort_same_but_symbol (l l' : list PoHRecord) :
  Forall2 same_but_symbol l l' ->
  Forall2 same_but_symbol (sort_by_sequence l) (sort_by_sequence l').
Proof.
  induction 1; cbn [sort_by_sequence]; [constructor|].
  now apply insert_same_but_symbol.
Qed.

Lemma verify_loop_same_but_symbol (l l' : list PoHRecord) (prev prev' : option PoHRecord)
      (i : nat) :
  Forall2 same_but_symbol l l' -> option_Forall2 same_but_symbol prev prev' ->
  verify_loop prev i l = verify_loop prev' i l'.
Proof.
  intros Hl. revert prev prev' i.
  induction Hl as [|x x' l l' Hx Hl IH]; intros prev prev' i Hp; [reflexivity|].
  cbn [verify_loop]. rewrite (same_but_symbol_verify _ _ Hx).
  destruct (same_but_symbol_fields _ _ Hx) as (Hs & _ & Hph & _). rewrite Hs, Hph.
  destruct (negb (verifyRecordHash x')); [reflexivity|].
  destruct Hp as [q q' Hq|].
  - destruct (same_but_symbol_fields _ _ Hq) as (Hqs & Hqh & _). rewrite Hqs, Hqh.
    destruct (negb (String.eqb (prevHash x') (hash q'))); [reflexivity|].
    destruct (negb (sequence x' =? sequence q' + 1)); [reflexivity|].
    apply IH. now constructor.
  - apply IH. now constructor.
Qed.

Lemma verifyChain_same_but_symbol (l l' : list PoHRecord) :
  Forall2 same_but_symbol l l' -> verifyChain l = verifyChain l'.
Proof.
  intros Hl. pose proof (sort_same_but_symbol _ _ Hl) as Hs.
  unfold verifyChain. destruct Hl as [|x x' l l' Hx Hl]; [reflexivity|].
  destruct Hs as [|f f' s s' Hf Hs]; [reflexivity|].
  destruct (same_but_symbol_fields _ _ Hf) as (-> & _ & -> & _).
  destruct (negb (String.eqb (prevHash f') GENESIS_HASH) && (sequence f' =? 1));
    [reflexivity|].
  apply verify_loop_same_but_symbol; now constructor.
Qed.

Lemma alter_same_but_symbol (sym : option string) (i : nat) (l : list PoHRecord) :
  Forall2 same_but_symbol l (alter (set_tokenSymbol sym) i l).
Proof.
  revert i. induction l as [|x l IH]; intros i; [constructor|].
  destruct i as [|i]; cbn.
  - constructor; [apply same_but_symbol_set|].
    clear. induction l; constructor; [reflexivity|assumption].
  - constructor; [reflexivity|apply IH].
Qed.

End PoHFacts.

Section PoHClaims.
Import PoH PoHSpec.

(** A chain whose leading records were dropped still verifies. *)
Lemma dropped_prefix_verifies (chain : list PoHRecord) (k : nat) :
  rooted chain -> verifyChain (drop k chain) = Valid.
Proof.
  intros Hr. destruct k as [|k]; [now apply verifyChain_rooted|].
  destruct chain as [|x l]; [reflexivity|]. destruct Hr as (_ & H1 & _ & Hl).
  cbn [drop]. pose proof (links_drop x l k Hl) as Hc.
  destruct (drop k l) as [|first rest] eqn:E; [reflexivity|].
  rewrite (verifyChain_sorted first rest)
    by (apply sort_ascending, consistent_ascending, Hc).
  assert (Hi : l !! k = Some first).
  { rewrite <- (Nat.add_0_r k), <- lookup_drop, E. reflexivity. }
  rewrite (links_sequence _ _ _ _ Hl Hi).
  destruct (Z.eqb_spec (sequence x + Z.of_nat k + 1) 1); [lia|].
  rewrite andb_false_r. now apply verify_loop_consistent.
Qed.

(** When the lowest sequence number is 1, the genesis link is enforced. *)
Lemma genesis_enforced_at_sequence_1 (records : list PoHRecord)
      (first : PoHRecord) (rest : list PoHRecord) :
  sort_by_sequence records = first :: rest ->
  sequence first = 1 -> prevHash first <> GENESIS_HASH ->
  verifyChain records = Invalid 0 "First record does not link to genesis hash".
Proof.
  intros H H1 Hg. rewrite (verifyChain_sorted _ _ _ H), H1.
  destruct (String.eqb_spec (prevHash first) GENESIS_HASH); [contradiction|reflexivity].
Qed.

(** C1 (amended).  Chain integrity: the chain stored by any run of appends
    of one manager, started on a store without rows of the token, verifies
    as valid.  Altering the [hash] or the [prevHash] of the record at index
    [i] makes [verifyChain] answer invalid with [invalidAt <= i].  Altering
    its [sequence] (so that the record's digest is no longer its stored
    hash) makes [verifyChain] answer invalid with [invalidAt] at or before
    the position the altered record takes in sequence order. *)
Theorem chain_integrity (mint : string) (table0 : Table)
        (events : list (Date * EventInput)) (mgr : Manager) (table : Table) :
  rows_of mint table0 = [] ->
  addEvents (newManager mint) table0 events = (mgr, table) ->
  let chain := getFullChain mgr table in
  verifyChain chain = Valid /\
  forall (i : nat) (r : PoHRecord), chain !! i = Some r ->
    (forall h, h <> hash r ->
       exists j e, verifyChain (alter (set_hash h) i chain) = Invalid j e /\ (j <= i)%nat) /\
    (forall h, h <> prevHash r ->
       exists j e, verifyChain (alter (set_prevHash h) i chain) = Invalid j e
                   /\ (j <= i)%nat) /\
    (forall n, generateHash (omit_hash (set_sequence n r)) <> hash r ->
       let tampered := alter (set_sequence n) i chain in
       exists j e, verifyChain tampered = Invalid j e /\
         (exists p, sort_by_sequence tampered !! p = Some (set_sequence n r)) /\
         (forall p, sort_by_sequence tampered !! p = Some (set_sequence n r) ->
                    (j <= p)%nat)).
Proof.
  intros H0 H chain.
  destruct (addEvents_inv _ _ _ _ _ (newManager_inv _ _ H0) H) as [_ Hi].
  destruct (getFullChain_inv _ _ Hi) as [_ Hroot]. fold chain in Hroot.
  split; [now apply verifyChain_rooted|].
  intros i r Hr. pose proof (rooted_consistent _ Hroot) as Hc. repeat split.
  - intros h Hh. apply (set_hash_rejected_at chain i r h); auto.
    + now apply consistent_ascending.
    + eapply consistent_lookup; eassumption.
  - intros h Hh. destruct (set_prevHash_rejected chain i r h Hroot Hr Hh) as [e He].
    exists i, e. split; [exact He|lia].
  - intros n Hn. now apply set_sequence_rejected.
Qed.

Lemma chain_integrity_witness :
  let chain := PoHExample.chain in
  verifyChain chain = Valid /\
  forall (i : nat) (r : PoHRecord), chain !! i = Some r ->
    (forall h, h <> hash r ->
       exists j e, verifyChain (alter (set_hash h) i chain) = Invalid j e /\ (j <= i)%nat) /\
    (forall h, h <> prevHash r ->
       exists j e, verifyChain (alter (set_prevHash h) i chain) = Invalid j e
                   /\ (j <= i)%nat) /\
    (forall n, generateHash (omit_hash (set_sequence n r)) <> hash r ->
       let tampered := alter (set_sequence n) i chain in
       exists j e, verifyChain tampered = Invalid j e /\
         (exists p, sort_by_sequence tampered !! p = Some (set_sequence n r)) /\
         (forall p, sort_by_sequence tampered !! p = Some (set_sequence n r) ->
                    (j <= p)%nat)).
Proof.
  apply (chain_integrity PoHExample.mint [] PoHExample.events
                         (fst PoHExample.run) (snd PoHExample.run)).
  - reflexivity.
  - apply surjective_pairing.
Defined.

(** C1, as stated, fails: on the stored chain of three appended records,
    altering the sequence of the record at index 0 from 1 to 4 moves the
    record to the end of the sequence order, and [verifyChain] reports
    index 2, which is after the altered index. *)
Lemma chain_integrity_counterexample :
  verifyChain PoHExample.chain = Valid /\
  sequence <$> PoHExample.chain !! 0%nat = Some 1 /\
  verifyChain (alter (set_sequence 4) 0%nat PoHExample.chain)
  = Invalid 2 "Record 4: Hash mismatch" /\
  ~ (2 <= 0)%nat.
Proof.
  split; [vm_compute; reflexivity|]. split; [vm_compute; reflexivity|].
  split; [vm_compute; reflexivity|]. lia.
Qed.

(** C9.  [verifyChain] does not check the first record's [prevHash] unless
    the lowest sequence number is 1: a list of records whose sequence
    numbers are all greater than 1 and that is consistent in sequence
    order (own digests, links, contiguous numbers) verifies as valid,
    whatever the [prevHash] of its first record. *)
Theorem missing_prefix_verifies (records : list PoHRecord) :
  (forall r, In r records -> 1 < sequence r) ->
  consistent (sort_by_sequence records) ->
  verifyChain records = Valid.
Proof.
  intros Hmin Hc. destruct (sort_by_sequence records) as [|first rest] eqn:E.
  - now rewrite (sort_nil_inv _ E).
  - rewrite (verifyChain_sorted _ _ _ E).
    assert (Hf : 1 < sequence first).
    { apply Hmin. apply (Permutation_in _ (Permutation_sym (sort_Permutation records))).
      rewrite E. now left. }
    destruct (Z.eqb_spec (sequence first) 1); [lia|].
    rewrite andb_false_r. now apply verify_loop_consistent.
Qed.

Lemma missing_prefix_verifies_witness :
  (prevHash <$> drop 1 PoHExample.chain !! 0%nat) <> Some GENESIS_HASH /\
  verifyChain (drop 1 PoHExample.chain) = Valid.
Proof.
  split; [vm_compute; discriminate|].
  apply (missing_prefix_verifies (drop 1 PoHExample.chain)).
  - intros r Hr. vm_compute in Hr. destruct Hr as [<-|[<-|[]]]; reflexivity.
  - apply (consistent_valid_inv _ 0). vm_compute. reflexivity.
Defined.

(** C10.  The digest omits [tokenSymbol]: for any record and any two
    symbols, [generateHash], [verifyRecordHash] and [verifyChain] give the
    same result on the two variants, and altering the symbol of a record
    of a chain never changes the verdict of [verifyChain]. *)
Theorem tokenSymbol_not_in_digest :
  (forall (r : PoHRecord) (s1 s2 : option string),
      generateHash (omit_hash (set_tokenSymbol s1 r))
      = generateHash (omit_hash (set_tokenSymbol s2 r))) /\
  (forall (r : PoHRecord) (s1 s2 : option string),
      verifyRecordHash (set_tokenSymbol s1 r) = verifyRecordHash (set_tokenSymbol s2 r)) /\
  (forall (records : list PoHRecord) (i : nat) (s1 s2 : option string),
      verifyChain (alter (set_tokenSymbol s1) i records)
      = verifyChain (alter (set_tokenSymbol s2) i records)) /\
  (forall (records : list PoHRecord) (i : nat) (s : option string),
      verifyChain (alter (set_tokenSymbol s) i records) = verifyChain records).
Proof.
  assert (Hsame : forall records i s,
             verifyChain (alter (set_tokenSymbol s) i records) = verifyChain records).
  { intros. symmetry. apply verifyChain_same_but_symbol, alter_same_but_symbol. }
  split; [|split; [|split]].
  - reflexivity.
  - reflexivity.
  - intros. now rewrite !Hsame.
  - exact Hsame.
Qed.

End PoHClaims.

(* ===================================================================== *)
(** * The classifier                                                      *)
(* ===================================================================== *)

Section ClassifierFacts.
Import Classifier ClassifierSpec.

Lemma find_first_where {A} (p : A -> bool) (P : A -> Prop) (l : list A) (t : A) :
  (forall x, p x = true <-> P x) ->
  first_where P l t <-> find p l = Some t.
Proof.
  intros Hp. split.
  - intros (before & after & -> & Ht & Hb).
    induction before as [|x before IH]; cbn [app find].
    + now rewrite (proj2 (Hp t) Ht).
    + destruct (p x) eqn:E.
      * exfalso. apply (Hb x); [now left|]. now apply Hp.
      * apply IH. intros y Hy. apply Hb. now right.
  - induction l as [|x l IH]; [discriminate|]. cbn [find].
    destruct (p x) eqn:E.
    + intros [= <-]. exists [], l. split; [reflexivity|]. split; [now apply Hp|].
      intros ? [].
    + intros H. destruct (IH H) as (before & after & -> & Ht & Hb).
      exists (x :: before), after. split; [reflexivity|]. split; [exact Ht|].
      intros y [<-|Hy]; [|now apply Hb]. rewrite <- Hp. congruence.
Qed.

Lemma find_none_where {A} (p : A -> bool) (P : A -> Prop) (l : list A) :
  (forall x, p x = true <-> P x) ->
  (forall x, In x l -> ~ P x) <-> find p l = None.
Proof.
  intros Hp. split.
  - intros H. induction l as [|x l IH]; [reflexivity|]. cbn [find].
    destruct (p x) eqn:E.
    + exfalso. apply (H x); [now left|]. now apply Hp.
    + apply IH. intros y Hy. apply H. now right.
  - intros H x Hx HP. apply Hp in HP.
    now rewrite (find_none _ _ H x Hx) in HP.
Qed.

Lemma first_where_exists {A} (p : A -> bool) (P : A -> Prop) (l : list A) (x : A) :
  (forall x, p x = true <-> P x) ->
  In x l -> P x -> exists t, first_where P l t.
Proof.
  intros Hp Hx HP. destruct (find p l) as [t|] eqn:E.
  - exists t. now apply (find_first_where p P).
  - pose proof (proj2 (find_none_where p P l Hp) E) as Hn. now destruct (Hn x Hx).
Qed.

Lemma first_where_In {A} (P : A -> Prop) (l : list A) (t : A) :
  first_where P l t -> In t l /\ P t.
Proof.
  intros (before & after & -> & Ht & _). split; [|exact Ht].
  apply in_or_app. right. now left.
Qed.

Lemma inflow_test (creatorVault creatorWallet : string) (t : NativeTransfer) :
  String.eqb (toUserAccount t) creatorVault
  && negb (String.eqb (fromUserAccount t) creatorWallet) = true
  <-> is_inflow creatorVault creatorWallet t.
Proof.
  unfold is_inflow. rewrite andb_true_iff, negb_true_iff, String.eqb_eq, String.eqb_neq.
  reflexivity.
Qed.

Lemma outflow_test (creatorVault : string) (t : NativeTransfer) :
  String.eqb (fromUserAccount t) creatorVault = true <-> is_outflow creatorVault t.
Proof. apply String.eqb_eq. Qed.

Lemma burn_transfer_test (tokenMint : string) (t : TokenTransfer) :
  String.eqb (mint t) tokenMint && String.eqb (tt_toUserAccount t) "" = true
  <-> burn_transfer tokenMint t.
Proof.
  unfold burn_transfer. now rewrite andb_true_iff, !String.eqb_eq.
Qed.

Lemma incinerator_transfer_test (tokenMint : string) (t : TokenTransfer) :
  String.eqb (mint t) tokenMint
  && (String.eqb (tt_toUserAccount t) BURN_ADDRESS
      || match toTokenAccount t with
         | Some a => String.eqb a ""
         | None => false
         end) = true
  <-> incinerator_transfer tokenMint t.
Proof.
  unfold incinerator_transfer. rewrite andb_true_iff, orb_true_iff, !String.eqb_eq.
  destruct (toTokenAccount t) as [a|].
  - rewrite String.eqb_eq. split; intros [? [?|?]]; split; auto; right; congruence.
  - split; intros [? [?|?]]; split; auto; discriminate.
Qed.

Lemma is_burn_instruction_spec (ix : Instruction) :
  is_burn_instruction ix = true <->
  programId ix = TOKEN_PROGRAM_ID /\
  exists inner i, innerInstructions ix = Some inner /\ In i inner /\
                  inner_type i = Some "burn".
Proof.
  unfold is_burn_instruction. rewrite andb_true_iff, String.eqb_eq.
  destruct (innerInstructions ix) as [inner|].
  - rewrite existsb_exists. split.
    + intros [Hp (i & Hi & Ht)]. split; [exact Hp|]. exists inner, i.
      destruct (inner_type i) as [ty|]; [|discriminate].
      apply String.eqb_eq in Ht. subst. auto.
    + intros [Hp (inner' & i & [= <-] & Hi & Ht)]. split; [exact Hp|].
      exists i. rewrite Ht. auto.
  - split; [intros [_ ?]; discriminate|]. intros [_ (? & ? & ? & _)]. discriminate.
Qed.

Lemma has_burn_instruction_spec (tx : ParsedTransaction) :
  existsb is_burn_instruction (or_empty (instructions tx)) = true
  <-> has_burn_instruction tx.
Proof.
  unfold has_burn_instruction. rewrite existsb_exists. split.
  - intros (ix & Hix & H). apply is_burn_instruction_spec in H.
    destruct H as [Hp (inner & i & ? & ? & ?)]. now exists ix, inner, i.
  - intros (ix & inner & i & Hix & Hp & ? & ? & ?). exists ix. split; [exact Hix|].
    apply is_burn_instruction_spec. split; [exact Hp|]. now exists inner, i.
Qed.

(** The loop over the instructions amounts to one test and one search. *)
Lemma burn_instruction_loop_spec (instructions : list Instruction)
      (tokenTransfers : list TokenTransfer) (tokenMint : string) :
  burn_instruction_loop instructions tokenTransfers tokenMint
  = if existsb is_burn_instruction instructions
    then option_map (fun t => safeBigInt (tokenAmount t))
           (find (fun t => String.eqb (mint t) tokenMint
                           && String.eqb (tt_toUserAccount t) "") tokenTransfers)
    else None.
Proof.
  induction instructions as [|ix rest IH]; [reflexivity|].
  cbn [burn_instruction_loop existsb]. destruct (is_burn_instruction ix); cbn [orb].
  - destruct (find _ tokenTransfers) as [t|] eqn:E; [reflexivity|].
    rewrite IH. now destruct (existsb is_burn_instruction rest).
  - exact IH.
Qed.

Lemma hasSwapInstruction_spec (tx : ParsedTransaction) :
  hasSwapInstruction tx = true <-> swap_pattern tx.
Proof.
  unfold hasSwapInstruction, swap_pattern, is_swap_router.
  set (accs := or_empty (accountData tx)). set (ixs := or_empty (instructions tx)).
  set (d := match description tx with Some d => toLowerCase d | None => "" end).
  split.
  - destruct (existsb (account_includes JUPITER_V6_PROGRAM_ID) accs) eqn:EJ.
    { intros _. left. apply existsb_exists in EJ. destruct EJ as (a & Ha & H).
      unfold account_includes in H. destruct (account a) as [s|] eqn:Es; [|discriminate].
      exists a, s, JUPITER_V6_PROGRAM_ID. auto. }
    destruct (existsb (account_includes RAYDIUM_AMM_PROGRAM_ID) accs) eqn:ER.
    { intros _. left. apply existsb_exists in ER. destruct ER as (a & Ha & H).
      unfold account_includes in H. destruct (account a) as [s|] eqn:Es; [|discriminate].
      exists a, s, RAYDIUM_AMM_PROGRAM_ID. auto. }
    cbn [orb]. destruct (existsb _ ixs) eqn:EI.
    { intros _. right. left. apply existsb_exists in EI. destruct EI as (ix & Hix & H).
      exists ix. split; [exact Hix|]. apply orb_true_iff in H.
      now rewrite !String.eqb_eq in H. }
    destruct (includes d "swap" || includes d "jupiter" || includes d "raydium") eqn:ED;
      [|discriminate].
    intros _. right. right. subst d. destruct (description tx) as [d0|].
    + rewrite !orb_true_iff in ED. destruct ED as [[H|H]|H].
      * exists d0, "swap". auto.
      * exists d0, "jupiter". auto.
      * exists d0, "raydium". auto.
    + discriminate.
  - intros [(a & s & id & Ha & Hs & Hid & Hinc)|[(ix & Hix & Hid)|(d0 & kw & Hd & Hkw & Hinc)]].
    + assert (H : existsb (account_includes id) accs = true).
      { apply existsb_exists. exists a. split; [exact Ha|].
        unfold account_includes. now rewrite Hs. }
      destruct Hid as [->| ->]; rewrite H; [reflexivity|].
      now rewrite orb_true_r.
    + destruct (_ || _); [reflexivity|].
      assert (H : existsb (fun ix => String.eqb (programId ix) JUPITER_V6_PROGRAM_ID
                                     || String.eqb (programId ix) RAYDIUM_AMM_PROGRAM_ID)
                          ixs = true).
      { apply existsb_exists. exists ix. split; [exact Hix|].
        apply orb_true_iff. now rewrite !String.eqb_eq. }
      now rewrite H.
    + destruct (_ || _); [reflexivity|]. destruct (existsb _ ixs); [reflexivity|].
      subst d. rewrite Hd.
      destruct Hkw as [->|[->| ->]]; rewrite Hinc; cbn; rewrite ?orb_true_r; reflexivity.
Qed.

Lemma burn_loop_none (tx : ParsedTransaction) (tokenMint : string) :
  burn_instruction_loop (or_empty (instructions tx)) (or_empty (tokenTransfers tx)) tokenMint
  = None
  <-> ~ (has_burn_instruction tx /\
         exists t', In t' (or_empty (tokenTransfers tx)) /\ burn_transfer tokenMint t').
Proof.
  rewrite burn_instruction_loop_spec. rewrite <- has_burn_instruction_spec.
  destruct (existsb is_burn_instruction (or_empty (instructions tx))).
  - destruct (find _ (or_empty (tokenTransfers tx))) as [t|] eqn:E; cbn [option_map].
    + split; [discriminate|]. intros H. exfalso. apply H. split; [reflexivity|].
      apply (find_first_where _ _ _ _ (burn_transfer_test tokenMint)) in E.
      exists t. now apply first_where_In.
    + split; [|reflexivity]. intros _ [_ (t' & Hin & Ht')].
      exact (proj2 (find_none_where _ _ _ (burn_transfer_test tokenMint)) E t' Hin Ht').
  - split; [|reflexivity]. intros _ [H _]. discriminate.
Qed.

(** [findBurnInTransaction] finds exactly the burn evidence of the
    specification, in its order of precedence. *)
Lemma findBurnInTransaction_spec (tx : ParsedTransaction) (tokenMint : string) (a : Z) :
  burn_evidence tx tokenMint a -> findBurnInTransaction tx tokenMint = Some a.
Proof.
  unfold findBurnInTransaction. intros [t Hb Ht|t Hn Ht|ev b Hn Hi Hev Hb].
  - rewrite burn_instruction_loop_spec.
    rewrite (proj2 (has_burn_instruction_spec tx) Hb).
    apply (find_first_where _ _ _ _ (burn_transfer_test tokenMint)) in Ht.
    now rewrite Ht.
  - rewrite (proj2 (burn_loop_none tx tokenMint) Hn).
    apply (find_first_where _ _ _ _ (incinerator_transfer_test tokenMint)) in Ht.
    now rewrite Ht.
  - rewrite (proj2 (burn_loop_none tx tokenMint) Hn).
    rewrite (proj1 (find_none_where _ _ _ (incinerator_transfer_test tokenMint)) Hi).
    now rewrite Hev, Hb.
Qed.

Lemma findBurnInTransaction_evidence (tx : ParsedTransaction) (tokenMint : string) (a : Z) :
  findBurnInTransaction tx tokenMint = Some a -> burn_evidence tx tokenMint a.
Proof.
  unfold findBurnInTransaction.
  destruct (burn_instruction_loop _ _ tokenMint) as [a'|] eqn:EL.
  - intros [= <-]. rewrite burn_instruction_loop_spec in EL.
    destruct (existsb is_burn_instruction _) eqn:EB; [|discriminate].
    destruct (find _ (or_empty (tokenTransfers tx))) as [t|] eqn:EF; [|discriminate].
    injection EL as <-. apply by_instruction.
    + now apply has_burn_instruction_spec.
    + now apply (find_first_where _ _ _ _ (burn_transfer_test tokenMint)).
  - apply burn_loop_none in EL.
    destruct (find _ (or_empty (tokenTransfers tx))) as [t|] eqn:EF.
    + intros [= <-]. apply by_incinerator; [exact EL|].
      now apply (find_first_where _ _ _ _ (incinerator_transfer_test tokenMint)).
    + destruct (events tx) as [ev|] eqn:Eev; [|discriminate].
      destruct (events_burn ev) as [b|] eqn:Eb; [|discriminate].
      intros [= <-]. eapply by_annotation; eauto.
      exact (proj2 (find_none_where _ _ _ (incinerator_transfer_test tokenMint)) EF).
Qed.

(** The classifier past its collect rule: no inflow, [t] the first outflow. *)
Lemma classify_outflow (tx : ParsedTransaction)
      (creatorVault creatorWallet tokenMint : string) (t : NativeTransfer) :
  non_errored tx ->
  (forall x, In x (or_empty (nativeTransfers tx)) -> ~ is_inflow creatorVault creatorWallet x) ->
  first_where (is_outflow creatorVault) (or_empty (nativeTransfers tx)) t ->
  classifyTransaction (Some tx) creatorVault creatorWallet tokenMint
  = let outflowAmount := safeBigInt (amount t) in
    match (if hasSwapInstruction tx then findBurnInTransaction tx tokenMint else None) with
    | Some burnAmount =>
        Some (mkEvent burn outflowAmount (signature tx) (block_time tx)
                      (Some tokenMint) (Some burnAmount))
    | None =>
        if String.eqb (toUserAccount t) creatorWallet then
          Some (mkEvent withdraw outflowAmount (signature tx) (block_time tx) None None)
        else
          match (if hasSwapInstruction tx then
                   find (fun t => String.eqb (mint t) tokenMint
                                  && (String.eqb (tt_toUserAccount t) BURN_ADDRESS
                                      || String.eqb (tt_toUserAccount t) ""
                                      || match toTokenAccount t with
                                         | Some a => String.eqb a ""
                                         | None => false
                                         end)) (or_empty (tokenTransfers tx))
                 else None) with
          | Some tb =>
              Some (mkEvent burn outflowAmount (signature tx) (block_time tx)
                            (Some tokenMint) (Some (safeBigInt (tokenAmount tb))))
          | None =>
              Some (mkEvent withdraw outflowAmount (signature tx) (block_time tx) None None)
          end
    end.
Proof.
  intros He Hin Hout. unfold classifyTransaction. rewrite He.
  rewrite (proj1 (find_none_where _ _ _ (inflow_test creatorVault creatorWallet)) Hin).
  apply (find_first_where _ _ _ _ (outflow_test creatorVault)) in Hout.
  rewrite Hout. reflexivity.
Qed.

(** ** The amount coercion *)

Lemma digit_not_minus (c : ascii) : is_digit c = true -> Ascii.eqb c "-" = false.
Proof.
  destruct c as [[|] [|] [|] [|] [|] [|] [|] [|]]; cbn; intros H;
    try discriminate; reflexivity.
Qed.

Lemma digit_value_range (c : ascii) : is_digit c = true -> 0 <= digit_value c <= 9.
Proof.
  unfold is_digit, digit_value. intros H. apply andb_true_iff in H.
  destruct H as [H1 H2]. apply N.leb_le in H1, H2. lia.
Qed.

Lemma scan_digits_nonneg (s : string) (acc : Z) : 0 <= acc -> 0 <= fst (scan_digits acc s).
Proof.
  revert acc. induction s as [|c s IH]; intros acc H; cbn [scan_digits]; [exact H|].
  destruct (is_digit c) eqn:E; [|exact H].
  apply IH. pose proof (digit_value_range c E). lia.
Qed.

(** On a digit string [BigInt] does not throw: it reads the numeral. *)
Lemma BigInt_of_digit_string (s : string) :
  is_digit_string s = true -> BigInt_of_string s = Some (digits_value s).
Proof.
  destruct s as [|c s]; [discriminate|]. intros H. unfold BigInt_of_string.
  rewrite H. cbn [is_digit_string all_digits] in H. apply andb_true_iff in H.
  destruct H as [Hc _]. now rewrite (digit_not_minus c Hc).
Qed.

Lemma safeBigInt_nonneg (v : JsValue) : nonneg_value v -> 0 <= safeBigInt v.
Proof.
  destruct v as [| | |[q| |]|z|s|]; cbn [safeBigInt nonneg_value]; try lia.
  - intros H. apply Qfloor_resp_le in H. exact H.
  - intros _. destruct (is_digit_string s) eqn:E; [|lia].
    rewrite (BigInt_of_digit_string s E). now apply scan_digits_nonneg.
Qed.

End ClassifierFacts.

Section ClassifierClaims.
Import Classifier ClassifierSpec.

(** The transfer whose amount an event carries: the first inflow for
    [collect], the first outflow for [burn] and [withdraw]. *)
Lemma classified_amount_first (tx : option ParsedTransaction)
      (creatorVault creatorWallet tokenMint : string) (ev : ClassifiedEvent) :
  classifyTransaction tx creatorVault creatorWallet tokenMint = Some ev ->
  exists tx' t,
    tx = Some tx' /\
    match type ev with
    | collect =>
        first_where (is_inflow creatorVault creatorWallet)
                    (or_empty (nativeTransfers tx')) t
    | _ => first_where (is_outflow creatorVault) (or_empty (nativeTransfers tx')) t
    end /\
    amountLamports ev = safeBigInt (amount t).
Proof.
  destruct tx as [tx|]; [|discriminate]. unfold classifyTransaction.
  destruct (truthy (transactionError tx)); [discriminate|].
  destruct (find _ (or_empty (nativeTransfers tx))) as [t|] eqn:Ein.
  - intros [= <-]. exists tx, t.
    apply (find_first_where _ _ _ _ (inflow_test creatorVault creatorWallet)) in Ein.
    split; [reflexivity|]. split; [exact Ein|reflexivity].
  - match goal with
    | |- context [find ?p ?l] => destruct (find p l) as [t|] eqn:Eout; [|discriminate]
    end.
    apply (find_first_where _ _ _ _ (outflow_test creatorVault)) in Eout.
    intros H. exists tx, t. split; [reflexivity|].
    destruct (if hasSwapInstruction tx then _ else None);
      [injection H as <-; split; [exact Eout|reflexivity]|].
    destruct (String.eqb (toUserAccount t) creatorWallet);
      [injection H as <-; split; [exact Eout|reflexivity]|].
    destruct (if hasSwapInstruction tx then _ else None);
      injection H as <-; (split; [exact Eout|reflexivity]).
Qed.

(** C2 (amended).  A non-errored transaction with a native transfer that
    lands on the vault from anywhere other than the creator wallet is
    classified [collect], whatever else it contains, and the event's amount
    is the coerced amount of the first such transfer.  A transaction whose
    only native transfers touching the vault go from the creator wallet to
    the vault (the two addresses being distinct) yields no event. *)
Theorem collect_rule (tx : ParsedTransaction)
        (creatorVault creatorWallet tokenMint : string) :
  (forall t,
      non_errored tx ->
      first_where (is_inflow creatorVault creatorWallet) (or_empty (nativeTransfers tx)) t ->
      classifyTransaction (Some tx) creatorVault creatorWallet tokenMint
      = Some (mkEvent collect (safeBigInt (amount t)) (signature tx) (block_time tx)
                      None None)) /\
  (forall t,
      non_errored tx ->
      In t (or_empty (nativeTransfers tx)) -> is_inflow creatorVault creatorWallet t ->
      exists ev,
        classifyTransaction (Some tx) creatorVault creatorWallet tokenMint = Some ev /\
        type ev = collect) /\
  (creatorVault <> creatorWallet ->
   (forall t, In t (or_empty (nativeTransfers tx)) -> is_relevant creatorVault t ->
              fromUserAccount t = creatorWallet /\ toUserAccount t = creatorVault) ->
   classifyTransaction (Some tx) creatorVault creatorWallet tokenMint = None).
Proof.
  assert (Hfirst : forall t,
             non_errored tx ->
             first_where (is_inflow creatorVault creatorWallet)
                         (or_empty (nativeTransfers tx)) t ->
             classifyTransaction (Some tx) creatorVault creatorWallet tokenMint
             = Some (mkEvent collect (safeBigInt (amount t)) (signature tx)
                             (block_time tx) None None)).
  { intros t He Ht. unfold classifyTransaction. rewrite He.
    apply (find_first_where _ _ _ _ (inflow_test creatorVault creatorWallet)) in Ht.
    now rewrite Ht. }
  split; [exact Hfirst|]. split.
  - intros t He Hin Ht.
    destruct (first_where_exists _ _ _ t (inflow_test creatorVault creatorWallet) Hin Ht)
      as [t' Ht'].
    eexists. split; [apply (Hfirst t' He Ht')|reflexivity].
  - intros Hne Honly. unfold classifyTransaction.
    destruct (truthy (transactionError tx)); [reflexivity|].
    rewrite (proj1 (find_none_where _ _ _ (inflow_test creatorVault creatorWallet))).
    + rewrite (proj1 (find_none_where _ _ _ (outflow_test creatorVault))); [reflexivity|].
      intros t Hin Hout. destruct (Honly t Hin (or_intror Hout)) as [Hf _].
      unfold is_outflow in Hout. congruence.
    + intros t Hin [Hto Hfrom]. now destruct (Honly t Hin (or_introl Hto)).
Qed.

Lemma collect_rule_witness :
  classifyTransaction (Some ClassifierExample.tx_two_inflows)
    ClassifierExample.CREATOR_VAULT ClassifierExample.CREATOR_WALLET
    ClassifierExample.TOKEN_MINT
  = Some (mkEvent collect 1000000000 "sig-two-inflows" 1700000000000 None None) /\
  classifyTransaction (Some ClassifierExample.tx_funding)
    ClassifierExample.CREATOR_VAULT ClassifierExample.CREATOR_WALLET
    ClassifierExample.TOKEN_MINT
  = None.
Proof.
  split.
  - apply (proj1 (collect_rule ClassifierExample.tx_two_inflows
                    ClassifierExample.CREATOR_VAULT ClassifierExample.CREATOR_WALLET
                    ClassifierExample.TOKEN_MINT)
                 {| fromUserAccount := "buyer-1";
                    toUserAccount := ClassifierExample.CREATOR_VAULT;
                    amount := ClassifierExample.lamports 1000000000 |}).
    + reflexivity.
    + apply (find_first_where _ _ _ _ (inflow_test _ _)). reflexivity.
  - apply (proj2 (proj2 (collect_rule ClassifierExample.tx_funding
                    ClassifierExample.CREATOR_VAULT ClassifierExample.CREATOR_WALLET
                    ClassifierExample.TOKEN_MINT))).
    + discriminate.
    + intros t [<-|[<-|[]]] [H|H]; vm_compute in H; try discriminate H;
        split; reflexivity.
Defined.

(** C2, as stated, fails: with two transfers into the vault from two
    buyers, the event carries the amount of the first one, not of the
    second, which is also a transfer into the vault from a source other
    than the creator wallet. *)
Lemma collect_rule_counterexample :
  let t2 := {| fromUserAccount := "buyer-2";
               toUserAccount := ClassifierExample.CREATOR_VAULT;
               amount := ClassifierExample.lamports 250000000 |} in
  non_errored ClassifierExample.tx_two_inflows /\
  In t2 (or_empty (nativeTransfers ClassifierExample.tx_two_inflows)) /\
  is_inflow ClassifierExample.CREATOR_VAULT ClassifierExample.CREATOR_WALLET t2 /\
  safeBigInt (amount t2) = 250000000 /\
  option_map amountLamports
    (classifyTransaction (Some ClassifierExample.tx_two_inflows)
       ClassifierExample.CREATOR_VAULT ClassifierExample.CREATOR_WALLET
       ClassifierExample.TOKEN_MINT)
  = Some 1000000000.
Proof.
  cbv zeta. split; [reflexivity|]. split; [right; left; reflexivity|].
  split; [split; [reflexivity|discriminate]|]. split; reflexivity.
Qed.

(** C3 (amended).  A non-errored transaction without a native transfer
    into the vault from other than the creator wallet, with a first native
    transfer out of the vault, a recognized swap pattern and burn evidence,
    is classified [burn].  The amount is the coerced amount of that first
    outflow as it stands (no magnitude is taken), the burned mint is the
    tracked mint, and the burned amount is that of the burn evidence that
    matched first: a burn instruction of the Token program together with a
    transfer of the tracked mint to no user account, else a transfer of the
    tracked mint to the incinerator or to no token account, else the
    burn-amount annotation. *)
Theorem burn_rule (tx : ParsedTransaction)
        (creatorVault creatorWallet tokenMint : string) (t : NativeTransfer) (a : Z) :
  non_errored tx ->
  (forall x, In x (or_empty (nativeTransfers tx)) ->
             ~ is_inflow creatorVault creatorWallet x) ->
  first_where (is_outflow creatorVault) (or_empty (nativeTransfers tx)) t ->
  swap_pattern tx ->
  burn_evidence tx tokenMint a ->
  classifyTransaction (Some tx) creatorVault creatorWallet tokenMint
  = Some {| type := burn;
            amountLamports := safeBigInt (amount t);
            ce_signature := signature tx;
            blockTime := block_time tx;
            burnedTokenMint := Some tokenMint;
            burnedTokenAmount := Some a |}.
Proof.
  intros He Hin Hout Hswap Hburn.
  rewrite (classify_outflow _ _ _ _ _ He Hin Hout).
  rewrite (proj2 (hasSwapInstruction_spec tx) Hswap).
  rewrite (findBurnInTransaction_spec _ _ _ Hburn). reflexivity.
Qed.

Lemma burn_rule_witness :
  classifyTransaction (Some ClassifierExample.tx_burn)
    ClassifierExample.CREATOR_VAULT ClassifierExample.CREATOR_WALLET
    ClassifierExample.TOKEN_MINT
  = Some {| type := burn;
            amountLamports := 2000000000;
            ce_signature := "sig-burn";
            blockTime := 1700000000000;
            burnedTokenMint := Some ClassifierExample.TOKEN_MINT;
            burnedTokenAmount := Some 50000 |}.
Proof.
  apply (burn_rule ClassifierExample.tx_burn
           ClassifierExample.CREATOR_VAULT ClassifierExample.CREATOR_WALLET
           ClassifierExample.TOKEN_MINT
           {| fromUserAccount := ClassifierExample.CREATOR_VAULT;
              toUserAccount := "jupiter-pool";
              amount := ClassifierExample.lamports 2000000000 |} 50000).
  - reflexivity.
  - apply (find_none_where _ _ _ (inflow_test _ _)). reflexivity.
  - apply (find_first_where _ _ _ _ (outflow_test _)). reflexivity.
  - apply hasSwapInstruction_spec. reflexivity.
  - apply findBurnInTransaction_evidence. reflexivity.
Defined.

(** C3, as stated, fails twice.  The amount of the event is not a
    magnitude: an outflow of -5 with a swap pattern and a burn-amount
    annotation gives a burn event of -5.  And a burn instruction alone is
    no burn evidence for the code: with a swap pattern and a burn
    instruction of the Token program, but no transfer of the tracked mint
    to go with it, the transaction is classified [withdraw]. *)
Lemma burn_rule_counterexample :
  (non_errored ClassifierExample.tx_burn_negative /\
   first_where (is_outflow ClassifierExample.CREATOR_VAULT)
     (or_empty (nativeTransfers ClassifierExample.tx_burn_negative))
     {| fromUserAccount := ClassifierExample.CREATOR_VAULT;
        toUserAccount := "jupiter-pool";
        amount := VNumber (Finite (-5 # 1)) |} /\
   swap_pattern ClassifierExample.tx_burn_negative /\
   burn_evidence ClassifierExample.tx_burn_negative ClassifierExample.TOKEN_MINT 50000 /\
   option_map (fun ev => (type ev, amountLamports ev))
     (classifyTransaction (Some ClassifierExample.tx_burn_negative)
        ClassifierExample.CREATOR_VAULT ClassifierExample.CREATOR_WALLET
        ClassifierExample.TOKEN_MINT)
   = Some (burn, -5)) /\
  (non_errored ClassifierExample.tx_burn_instruction_only /\
   first_where (is_outflow ClassifierExample.CREATOR_VAULT)
     (or_empty (nativeTransfers ClassifierExample.tx_burn_instruction_only))
     {| fromUserAccount := ClassifierExample.CREATOR_VAULT;
        toUserAccount := "jupiter-pool";
        amount := ClassifierExample.lamports 2000000000 |} /\
   swap_pattern ClassifierExample.tx_burn_instruction_only /\
   has_burn_instruction ClassifierExample.tx_burn_instruction_only /\
   option_map type
     (classifyTransaction (Some ClassifierExample.tx_burn_instruction_only)
        ClassifierExample.CREATOR_VAULT ClassifierExample.CREATOR_WALLET
        ClassifierExample.TOKEN_MINT)
   = Some withdraw).
Proof.
  split.
  - split; [reflexivity|].
    split; [apply (find_first_where _ _ _ _ (outflow_test _)); reflexivity|].
    split; [apply hasSwapInstruction_spec; reflexivity|].
    split; [apply findBurnInTransaction_evidence; reflexivity|reflexivity].
  - split; [reflexivity|].
    split; [apply (find_first_where _ _ _ _ (outflow_test _)); reflexivity|].
    split; [apply hasSwapInstruction_spec; reflexivity|].
    split; [apply has_burn_instruction_spec; reflexivity|reflexivity].
Qed.

(** C4 (amended).  A non-errored transaction without a native transfer
    into the vault from other than the creator wallet, with a first native
    transfer out of the vault and no swap pattern, is classified
    [withdraw], whether that outflow goes to the creator wallet or to any
    other address.  The amount is the coerced amount of that first outflow
    as it stands (no magnitude is taken, and later outflows are not
    counted), and the event carries no burned mint and no burned amount. *)
Theorem withdraw_rule (tx : ParsedTransaction)
        (creatorVault creatorWallet tokenMint : string) (t : NativeTransfer) :
  non_errored tx ->
  (forall x, In x (or_empty (nativeTransfers tx)) ->
             ~ is_inflow creatorVault creatorWallet x) ->
  first_where (is_outflow creatorVault) (or_empty (nativeTransfers tx)) t ->
  ~ swap_pattern tx ->
  classifyTransaction (Some tx) creatorVault creatorWallet tokenMint
  = Some {| type := withdraw;
            amountLamports := safeBigInt (amount t);
            ce_signature := signature tx;
            blockTime := block_time tx;
            burnedTokenMint := None;
            burnedTokenAmount := None |}.
Proof.
  intros He Hin Hout Hswap.
  rewrite (classify_outflow _ _ _ _ _ He Hin Hout).
  destruct (hasSwapInstruction tx) eqn:E.
  - now apply hasSwapInstruction_spec in E.
  - cbv zeta. now destruct (String.eqb (toUserAccount t) creatorWallet).
Qed.

Lemma withdraw_rule_witness :
  classifyTransaction (Some ClassifierExample.tx_withdraw)
    ClassifierExample.CREATOR_VAULT ClassifierExample.CREATOR_WALLET
    ClassifierExample.TOKEN_MINT
  = Some {| type := withdraw;
            amountLamports := 900000000;
            ce_signature := "sig-withdraw";
            blockTime := 1700000000000;
            burnedTokenMint := None;
            burnedTokenAmount := None |}.
Proof.
  apply (withdraw_rule ClassifierExample.tx_withdraw
           ClassifierExample.CREATOR_VAULT ClassifierExample.CREATOR_WALLET
           ClassifierExample.TOKEN_MINT
           {| fromUserAccount := ClassifierExample.CREATOR_VAULT;
              toUserAccount := ClassifierExample.CREATOR_WALLET;
              amount := ClassifierExample.lamports 900000000 |}).
  - reflexivity.
  - apply (find_none_where _ _ _ (inflow_test _ _)). reflexivity.
  - apply (find_first_where _ _ _ _ (outflow_test _)). reflexivity.
  - intros H. apply hasSwapInstruction_spec in H. discriminate H.
Defined.

(** C4, as stated, fails: the amount of the event is not a magnitude, and
    it is the amount of one outflow only.  A payment of -5 from the vault
    to the creator wallet, without swap pattern, gives a withdraw event of
    -5; and of two payments out of the vault, of 300000000 and 700000000,
    the event carries the first. *)
Lemma withdraw_rule_counterexample :
  (non_errored ClassifierExample.tx_withdraw_negative /\
   first_where (is_outflow ClassifierExample.CREATOR_VAULT)
     (or_empty (nativeTransfers ClassifierExample.tx_withdraw_negative))
     {| fromUserAccount := ClassifierExample.CREATOR_VAULT;
        toUserAccount := ClassifierExample.CREATOR_WALLET;
        amount := VNumber (Finite (-5 # 1)) |} /\
   hasSwapInstruction ClassifierExample.tx_withdraw_negative = false /\
   option_map (fun ev => (type ev, amountLamports ev))
     (classifyTransaction (Some ClassifierExample.tx_withdraw_negative)
        ClassifierExample.CREATOR_VAULT ClassifierExample.CREATOR_WALLET
        ClassifierExample.TOKEN_MINT)
   = Some (withdraw, -5)) /\
  (let t2 := {| fromUserAccount := ClassifierExample.CREATOR_VAULT;
                toUserAccount := "other";
                amount := ClassifierExample.lamports 700000000 |} in
   non_errored ClassifierExample.tx_two_outflows /\
   In t2 (or_empty (nativeTransfers ClassifierExample.tx_two_outflows)) /\
   is_outflow ClassifierExample.CREATOR_VAULT t2 /\
   safeBigInt (amount t2) = 700000000 /\
   hasSwapInstruction ClassifierExample.tx_two_outflows = false /\
   option_map (fun ev => (type ev, amountLamports ev))
     (classifyTransaction (Some ClassifierExample.tx_two_outflows)
        ClassifierExample.CREATOR_VAULT ClassifierExample.CREATOR_WALLET
        ClassifierExample.TOKEN_MINT)
   = Some (withdraw, 300000000)).
Proof.
  split.
  - split; [reflexivity|].
    split; [apply (find_first_where _ _ _ _ (outflow_test _)); reflexivity|].
    split; reflexivity.
  - cbv zeta. split; [reflexivity|]. split; [right; left; reflexivity|].
    split; [reflexivity|]. split; [reflexivity|]. split; reflexivity.
Qed.

(** C8 (amended).  The amount coercion is total: a [bigint] passes through
    unchanged, a finite number is rounded down to the integer below it, a
    string of digits is read as the numeral it spells, and anything else
    coerces to zero.  Every event of the classifier carries the coerced
    amount of a native transfer that touches the vault, the first inflow
    for [collect] and the first outflow otherwise; it is not negative when
    that amount is not a negative [bigint] or a negative number. *)
Theorem amount_coercion :
  (forall z, safeBigInt (VBigInt z) = z) /\
  (forall q, (inject_Z (safeBigInt (VNumber (Finite q))) <= q
              < inject_Z (safeBigInt (VNumber (Finite q)) + 1))%Q) /\
  (forall s, is_digit_string s = true ->
             safeBigInt (VString s) = digits_value s) /\
  (forall v, match v with
             | VBigInt _ | VNumber (Finite _) => False
             | VString s => is_digit_string s = false
             | _ => True
             end -> safeBigInt v = 0) /\
  (forall v, nonneg_value v -> 0 <= safeBigInt v) /\
  (forall tx creatorVault creatorWallet tokenMint ev,
      classifyTransaction tx creatorVault creatorWallet tokenMint = Some ev ->
      exists tx' t,
        tx = Some tx' /\
        match type ev with
        | collect =>
            first_where (is_inflow creatorVault creatorWallet)
                        (or_empty (nativeTransfers tx')) t
        | _ => first_where (is_outflow creatorVault) (or_empty (nativeTransfers tx')) t
        end /\
        In t (or_empty (nativeTransfers tx')) /\
        is_relevant creatorVault t /\
        amountLamports ev = safeBigInt (amount t) /\
        (nonneg_value (amount t) -> 0 <= amountLamports ev)).
Proof.
  split; [reflexivity|]. split; [|split; [|split; [|split]]].
  - intros q. cbn [safeBigInt]. split; [apply Qfloor_le|apply Qlt_floor].
  - intros s Hs. cbn [safeBigInt]. now rewrite Hs, (BigInt_of_digit_string s Hs).
  - intros [| | |[q| |]|z|s|]; cbn [safeBigInt]; try reflexivity; try contradiction.
    now intros ->.
  - exact safeBigInt_nonneg.
  - intros tx cv cw tm ev H.
    destruct (classified_amount_first _ _ _ _ _ H) as (tx' & t & -> & Hfirst & Ha).
    exists tx', t. split; [reflexivity|]. split; [exact Hfirst|].
    assert (Hrel : In t (or_empty (nativeTransfers tx')) /\ is_relevant cv t).
    { destruct (type ev); destruct (first_where_In _ _ _ Hfirst) as [Hin Ht];
        (split; [exact Hin|]); [left; exact (proj1 Ht)|right; exact Ht|right; exact Ht]. }
    destruct Hrel as [Hin Hrel]. split; [exact Hin|]. split; [exact Hrel|].
    split; [exact Ha|]. intros Hn. rewrite Ha. now apply safeBigInt_nonneg.
Qed.

(** C8, as stated, fails: a negative number that is not an integer is
    rounded down, not truncated toward zero, and a negative amount gives an
    event with a negative [amountLamports]. *)
Lemma amount_coercion_counterexample :
  safeBigInt (VNumber (Finite (-3 # 2))) = -2 /\
  Qtruncate (-3 # 2) = -1 /\
  option_map amountLamports
    (classifyTransaction (Some ClassifierExample.tx_negative)
       ClassifierExample.CREATOR_VAULT ClassifierExample.CREATOR_WALLET
       ClassifierExample.TOKEN_MINT)
  = Some (-5).
Proof. repeat split. Qed.

End ClassifierClaims.

(* ===================================================================== *)
(** * The ledger                                                          *)
(* ===================================================================== *)

Section LedgerFacts.
Import Ledger.

Lemma has_signature_app (t1 t2 : list FeeEvent) (sig : string) :
  has_signature (t1 ++ t2) sig = has_signature t1 sig || has_signature t2 sig.
Proof. apply existsb_app. Qed.

Lemma saveEvent_known (table : list FeeEvent) (tid : Z) (event : Classifier.ClassifiedEvent) :
  has_signature table (Classifier.ce_signature event) = true ->
  saveEvent table tid event = table.
Proof.
  intros H. unfold saveEvent, createFeeEvent. cbn [row_of signature].
  unfold has_signature in H. now rewrite H.
Qed.

Lemma saveEvent_cases (table : list FeeEvent) (tid : Z) (event : Classifier.ClassifiedEvent) :
  saveEvent table tid event = table \/
  exists row, signature row = Classifier.ce_signature event /\
              saveEvent table tid event = table ++ [row].
Proof.
  unfold saveEvent, createFeeEvent. destruct (existsb _ table); [now left|].
  right. eexists. split; [|reflexivity]. reflexivity.
Qed.

Lemma saveEvent_stores (table : list FeeEvent) (tid : Z) (event : Classifier.ClassifiedEvent) :
  has_signature (saveEvent table tid event) (Classifier.ce_signature event) = true.
Proof.
  unfold saveEvent, createFeeEvent. cbn [row_of signature].
  destruct (existsb _ table) eqn:E; [exact E|].
  rewrite has_signature_app. cbn. now rewrite String.eqb_refl, !orb_true_r.
Qed.

Lemma saveEvent_keeps (table : list FeeEvent) (tid : Z) (event : Classifier.ClassifiedEvent)
      (sig : string) :
  has_signature table sig = true -> has_signature (saveEvent table tid event) sig = true.
Proof.
  intros H. destruct (saveEvent_cases table tid event) as [->|(row & _ & ->)]; [exact H|].
  rewrite has_signature_app, H. reflexivity.
Qed.

Lemma classified_signature (tx : Classifier.ParsedTransaction)
      (creatorVault creatorWallet mint : string) (ev : Classifier.ClassifiedEvent) :
  Classifier.classifyTransaction (Some tx) creatorVault creatorWallet mint = Some ev ->
  Classifier.ce_signature ev = Classifier.signature tx.
Proof.
  unfold Classifier.classifyTransaction.
  destruct (truthy _); [discriminate|].
  destruct (find _ _); [now intros [= <-]|].
  destruct (find _ _); [|discriminate].
  destruct (if Classifier.hasSwapInstruction tx then _ else None); [now intros [= <-]|].
  destruct (String.eqb _ creatorWallet); [now intros [= <-]|].
  destruct (if Classifier.hasSwapInstruction tx then _ else None); now intros [= <-].
Qed.

Lemma ingest_keeps (parsed : list Classifier.ParsedTransaction) (table : list FeeEvent)
      (tid : Z) (cv cw mint sig : string) :
  has_signature table sig = true ->
  has_signature (ingest table tid cv cw mint parsed) sig = true.
Proof.
  revert table. induction parsed as [|tx parsed IH]; intros table H; [exact H|].
  unfold ingest. cbn [fold_left]. apply IH.
  destruct (Classifier.classifyTransaction _ _ _ _); [now apply saveEvent_keeps|exact H].
Qed.

Lemma ingest_stores (parsed : list Classifier.ParsedTransaction) (table : list FeeEvent)
      (tid : Z) (cv cw mint : string) (tx : Classifier.ParsedTransaction)
      (ev : Classifier.ClassifiedEvent) :
  In tx parsed ->
  Classifier.classifyTransaction (Some tx) cv cw mint = Some ev ->
  has_signature (ingest table tid cv cw mint parsed) (Classifier.ce_signature ev) = true.
Proof.
  revert table. induction parsed as [|x parsed IH]; intros table Hin Hev; [destruct Hin|].
  unfold ingest. cbn [fold_left]. destruct Hin as [->|Hin].
  - rewrite Hev. apply ingest_keeps, saveEvent_stores.
  - now apply IH.
Qed.

Lemma ingest_noop (parsed : list Classifier.ParsedTransaction) (table : list FeeEvent)
      (tid : Z) (cv cw mint : string) :
  (forall tx ev, In tx parsed ->
                 Classifier.classifyTransaction (Some tx) cv cw mint = Some ev ->
                 has_signature table (Classifier.ce_signature ev) = true) ->
  ingest table tid cv cw mint parsed = table.
Proof.
  induction parsed as [|x parsed IH]; intros H; [reflexivity|].
  unfold ingest. cbn [fold_left].
  destruct (Classifier.classifyTransaction (Some x) cv cw mint) as [ev|] eqn:E.
  - rewrite (saveEvent_known table tid ev) by (apply (H x ev); [now left|exact E]).
    apply IH. intros tx ev' Hin. apply H. now right.
  - apply IH. intros tx ev' Hin. apply H. now right.
Qed.

Lemma existing_signature (table : list FeeEvent) (tid : Z) (sig : string) :
  existsb (String.eqb sig)
          (map signature (List.filter (fun e => tokenId e =? tid) table)) = true ->
  has_signature table sig = true.
Proof.
  intros H. apply existsb_exists in H. destruct H as (s & Hs & Heq).
  apply String.eqb_eq in Heq. subst s. apply in_map_iff in Hs.
  destruct Hs as (r & Hr & Hin). apply filter_In in Hin. destruct Hin as [Hin _].
  apply existsb_exists. exists r. split; [exact Hin|]. now apply String.eqb_eq.
Qed.

(** Running [indexToken] again on the same history stores nothing new. *)
Lemma indexToken_rerun (table : list FeeEvent) (tid : Z) (cv cw mint : string)
      (history : list Classifier.ParsedTransaction) :
  let once := fst (indexToken table tid cv cw mint history) in
  fst (indexToken once tid cv cw mint history) = once.
Proof.
  intros once.
  assert (Hstored : forall tx ev,
             In tx history ->
             Classifier.classifyTransaction (Some tx) cv cw mint = Some ev ->
             has_signature once (Classifier.ce_signature ev) = true).
  { intros tx ev Hin Hev. subst once. unfold indexToken.
    set (new := List.filter _ history).
    destruct (existsb (String.eqb (Classifier.signature tx))
                (map signature (List.filter (fun e => tokenId e =? tid) table))) eqn:E.
    - apply existing_signature in E.
      rewrite (classified_signature _ _ _ _ _ Hev).
      destruct new; cbn [fst]; [exact E|]. now apply ingest_keeps.
    - assert (Hnew : In tx new).
      { apply filter_In. split; [exact Hin|]. now rewrite E. }
      destruct new as [|y new'] eqn:En; [destruct Hnew|]. cbn [fst].
      now apply (ingest_stores _ _ _ _ _ _ tx). }
  unfold indexToken at 1. set (new2 := List.filter _ history).
  assert (Hnew2 : forall tx, In tx new2 -> In tx history).
  { intros tx Hin. apply filter_In in Hin. tauto. }
  destruct new2 as [|y new2']; [reflexivity|]. cbn [fst].
  apply ingest_noop. intros tx ev Hin. apply Hstored. now apply Hnew2.
Qed.

End LedgerFacts.

Section BurnPercentage.
Import Badges.

Lemma Math_round_integer (x : Q) (n : Z) : x == inject_Z n -> Math_round x = n.
Proof.
  intros H. unfold Math_round. rewrite H.
  assert (Hlo : (inject_Z n <= inject_Z n + (1 # 2))%Q).
  { rewrite <- (Qplus_0_r (inject_Z n)) at 1. apply Qplus_le_r. discriminate. }
  assert (Hhi : (inject_Z n + (1 # 2) < inject_Z (n + 1))%Q).
  { rewrite inject_Z_plus. apply Qplus_lt_r. reflexivity. }
  apply Qfloor_resp_le in Hlo. rewrite Qfloor_Z in Hlo.
  apply Qlt_le_weak, Qfloor_resp_le in Hhi. rewrite Qfloor_Z in Hhi.
  pose proof (Qlt_floor (inject_Z n + (1 # 2))) as Hlt.
  pose proof (Qfloor_le (inject_Z n + (1 # 2))) as Hle.
  assert (Hne : Qfloor (inject_Z n + (1 # 2)) <> n + 1).
  { intros E. rewrite E in Hle.
    apply (Qle_not_lt _ _ Hle). rewrite inject_Z_plus. apply Qplus_lt_r. reflexivity. }
  lia.
Qed.

(** The percentage is the number of hundredths [trunc(10000 b / c)]. *)
Lemma calculateBurnPercentage_value (totalCollected totalBurned : Z) :
  totalCollected <> 0 ->
  calculateBurnPercentage totalCollected totalBurned
  == inject_Z (Z.quot (totalBurned * 10000) totalCollected) / 100.
Proof.
  intros Hc. unfold calculateBurnPercentage.
  destruct (Z.eqb_spec totalCollected 0); [contradiction|].
  rewrite (Math_round_integer _ (Z.quot (totalBurned * 10000) totalCollected));
    [reflexivity|].
  field.
Qed.

Lemma calculateBurnPercentage_zero (totalBurned : Z) :
  calculateBurnPercentage 0 totalBurned = 0%Q.
Proof. reflexivity. Qed.

Lemma hundredths_le (a b : Z) : a <= b -> (inject_Z a / 100 <= inject_Z b / 100)%Q.
Proof.
  intros H. unfold Qdiv. apply Qmult_le_compat_r; [|discriminate].
  now rewrite <- Zle_Qle.
Qed.

(** Between 0 and 100 when what was burned is part of what was collected. *)
Lemma calculateBurnPercentage_bounds (totalCollected totalBurned : Z) :
  0 <= totalBurned <= totalCollected ->
  (0 <= calculateBurnPercentage totalCollected totalBurned <= 100)%Q.
Proof.
  intros [Hb Hc]. destruct (Z.eq_dec totalCollected 0) as [->|Hne].
  - rewrite calculateBurnPercentage_zero. split; discriminate.
  - rewrite (calculateBurnPercentage_value _ _ Hne).
    assert (H0 : 0 <= Z.quot (totalBurned * 10000) totalCollected).
    { apply Z.quot_pos; lia. }
    assert (H1 : Z.quot (totalBurned * 10000) totalCollected <= 10000).
    { pose proof (Z.quot_le_mono (totalBurned * 10000) (10000 * totalCollected)
                                 totalCollected) as H.
      rewrite Z.quot_mul in H by lia. apply H; lia. }
    split.
    + apply (Qle_trans _ (inject_Z 0 / 100)); [discriminate|].
      apply (hundredths_le 0 _ H0).
    + apply (Qle_trans _ (inject_Z 10000 / 100)); [|discriminate].
      apply (hundredths_le _ 10000 H1).
Qed.

(** Never lower after more was burned, the collected total being the same. *)
Lemma calculateBurnPercentage_mono (totalCollected totalBurned totalBurned' : Z) :
  0 <= totalCollected -> totalBurned <= totalBurned' ->
  (calculateBurnPercentage totalCollected totalBurned
   <= calculateBurnPercentage totalCollected totalBurned')%Q.
Proof.
  intros Hc Hb. destruct (Z.eq_dec totalCollected 0) as [->|Hne].
  - rewrite !calculateBurnPercentage_zero. apply Qle_refl.
  - rewrite !(calculateBurnPercentage_value _ _ Hne).
    apply hundredths_le, Z.quot_le_mono; lia.
Qed.

End BurnPercentage.

Section LedgerClaims.
Import Ledger.

(** C5.  Appending the same event twice leaves the ledger as appending it
    once: the second [createFeeEvent] is rejected by the unique index on the
    signature, [saveEvent] swallows the rejection, the table is unchanged,
    and so is the aggregate recomputed for any token.  Likewise a second
    [indexToken] run over the same history leaves the table of the first. *)
Theorem append_idempotent :
  (forall (table : list FeeEvent) (tid : Z) (event : Classifier.ClassifiedEvent),
      let once := saveEvent table tid event in
      let twice := saveEvent once tid event in
      createFeeEvent once (row_of tid event) = inl P2002 /\
      twice = once /\
      forall t, recalculateTokenStats twice t = recalculateTokenStats once t) /\
  (forall (table : list FeeEvent) (tid : Z) (cv cw mint : string)
          (history : list Classifier.ParsedTransaction),
      let once := fst (indexToken table tid cv cw mint history) in
      let twice := fst (indexToken once tid cv cw mint history) in
      twice = once /\
      forall t, recalculateTokenStats twice t = recalculateTokenStats once t).
Proof.
  split.
  - intros table tid event once twice.
    assert (Hs : has_signature once (Classifier.ce_signature event) = true)
      by apply saveEvent_stores.
    assert (Ht : twice = once) by (now apply saveEvent_known).
    split; [|split; [exact Ht|now rewrite Ht]].
    unfold createFeeEvent. cbn [row_of signature]. unfold has_signature in Hs.
    now rewrite Hs.
  - intros table tid cv cw mint history once twice.
    assert (Ht : twice = once) by apply indexToken_rerun.
    split; [exact Ht|now rewrite Ht].
Qed.

Example append_twice :
  let once := saveEvent LedgerExample.table 1 LedgerExample.event in
  List.length once = 3%nat /\
  saveEvent once 1 LedgerExample.event = once /\
  totalFeesWithdrawn (recalculateTokenStats (saveEvent once 1 LedgerExample.event) 1)
  = 900000000.
Proof. repeat split. Qed.

Lemma sum_by_type_snoc (table : list FeeEvent) (row : FeeEvent) (tid : Z)
      (ty : FeeEventType) :
  sum_by_type (table ++ [row]) tid ty
  = sum_by_type table tid ty
    + (if (tokenId row =? tid) && FeeEventType_eqb (eventType row) ty
       then amountLamports row else 0).
Proof.
  unfold sum_by_type. rewrite List.filter_app, map_app, fold_right_app. cbn [List.filter].
  destruct ((tokenId row =? tid) && FeeEventType_eqb (eventType row) ty); cbn.
  - induction (map amountLamports _) as [|x l IH]; cbn; [lia|]. rewrite IH. lia.
  - lia.
Qed.

(** What holds of the burn percentage of the ledger's totals: it is 0 when
    nothing was collected, it lies in [0, 100] when what was burned is part
    of what was collected, and a further burn event does not lower it. *)
Lemma ledger_burn_percentage (table : list FeeEvent) (tid : Z) :
  let stats := recalculateTokenStats table tid in
  (totalFeesCollected stats = 0 -> burnPercentage stats = 0%Q) /\
  (0 <= totalFeesBurned stats <= totalFeesCollected stats ->
   (0 <= burnPercentage stats <= 100)%Q) /\
  (forall row,
      eventType row = burn -> 0 <= amountLamports row ->
      0 <= totalFeesCollected stats ->
      let stats' := recalculateTokenStats (table ++ [row]) tid in
      totalFeesCollected stats' = totalFeesCollected stats /\
      (burnPercentage stats <= burnPercentage stats')%Q).
Proof.
  cbn zeta. unfold recalculateTokenStats.
  cbn [totalFeesCollected totalFeesBurned burnPercentage]. split; [|split].
  - intros ->. reflexivity.
  - apply calculateBurnPercentage_bounds.
  - intros row Hty Hamt Hc. rewrite !sum_by_type_snoc, Hty. cbn [FeeEventType_eqb].
    rewrite andb_false_r, andb_true_r, Z.add_0_r. split; [reflexivity|].
    apply calculateBurnPercentage_mono; [exact Hc|].
    destruct (tokenId row =? tid); lia.
Qed.

(** C7.  The burn percentage of the ledger's totals leaves [0, 100]: for a
    token with one collect event of 100 lamports and one burn event of 200
    lamports, [recalculateTokenStats] stores a burn percentage of 200. *)
Theorem burn_percentage_over_100 :
  let stats := recalculateTokenStats LedgerExample.table 1 in
  totalFeesCollected stats = 100 /\ totalFeesBurned stats = 200 /\
  burnPercentage stats == 200 /\ (100 < burnPercentage stats)%Q /\
  badgeTier stats = Badges.fire.
Proof. repeat split. Qed.

End LedgerClaims.

(* ===================================================================== *)
(** * Numbers and dates as text                                           *)
(* ===================================================================== *)

Section Decimal.

Lemma digit_char_spec (d : Z) :
  is_digit (digit_char d) = true /\ digit_value (digit_char d) = d mod 10.
Proof.
  unfold is_digit, digit_value, digit_char.
  pose proof (Z.mod_pos_bound d 10 ltac:(lia)) as H.
  rewrite N_ascii_embedding by lia.
  split.
  - apply andb_true_iff. split; apply N.leb_le; lia.
  - lia.
Qed.

Lemma scan_digit_char (d : Z) (acc : Z) (k : string) :
  scan_digits acc (String (digit_char d) k) = scan_digits (10 * acc + d mod 10) k.
Proof.
  cbn [scan_digits]. destruct (digit_char_spec d) as [-> ->]. reflexivity.
Qed.

(** Reading back the digits that [digits_k] wrote. *)
Lemma scan_digits_k (fuel : nat) (n : Z) (k : string) :
  0 <= n < 2 ^ Z.of_nat fuel ->
  exists p, forall acc, scan_digits acc (digits_k fuel n k) = scan_digits (acc * p + n) k.
Proof.
  revert n k. induction fuel as [|f IH]; intros n k Hn.
  - exists 1. intros acc. cbn [digits_k]. f_equal. cbn in Hn. lia.
  - cbn [digits_k]. destruct (Z.ltb_spec n 10) as [Hlt|Hge].
    + exists 10. intros acc. rewrite scan_digit_char. f_equal.
      rewrite Z.mod_small by lia. lia.
    + assert (Hdiv : 0 <= n / 10 < 2 ^ Z.of_nat f).
      { rewrite Nat2Z.inj_succ, Z.pow_succ_r in Hn by lia.
        split; [apply Z.div_pos; lia|].
        apply Z.div_lt_upper_bound; lia. }
      destruct (IH (n / 10) (String (digit_char n) k) Hdiv) as [p Hp].
      exists (10 * p). intros acc. rewrite Hp, scan_digit_char. f_equal.
      pose proof (Z.div_mod n 10 ltac:(lia)). lia.
Qed.

Lemma log2_fuel (n : Z) : 0 <= n -> 0 <= n < 2 ^ Z.of_nat (S (Z.to_nat (Z.log2 n))).
Proof.
  intros Hn. split; [exact Hn|].
  rewrite Nat2Z.inj_succ, Z2Nat.id by apply Z.log2_nonneg.
  destruct (Z.eq_dec n 0) as [->|Hne]; [reflexivity|].
  apply Z.log2_spec. lia.
Qed.

Lemma scan_digits_stop (acc : Z) (k : string) :
  no_digit_head k = true -> scan_digits acc k = (acc, k).
Proof.
  destruct k as [|c k]; [reflexivity|]. cbn. intros H.
  apply negb_true_iff in H. now rewrite H.
Qed.

Lemma all_digits_k (fuel : nat) (n : Z) (k : string) :
  all_digits (digits_k fuel n k) = all_digits k.
Proof.
  revert n k. induction fuel as [|f IH]; intros n k; [reflexivity|].
  cbn [digits_k].
  assert (H : all_digits (String (digit_char n) k) = all_digits k).
  { cbn [all_digits]. now rewrite (proj1 (digit_char_spec n)). }
  destruct (n <? 10); [exact H|]. now rewrite IH.
Qed.

(** The first digit: never a zero in front of other digits. *)
Lemma digits_k_head (fuel : nat) (n : Z) (k : string) :
  0 <= n < 2 ^ Z.of_nat (S fuel) ->
  exists c rest, digits_k (S fuel) n k = String c rest /\ is_digit c = true /\
                 (n = 0 -> c = "0"%char /\ rest = k) /\
                 (0 < n -> Ascii.eqb c "0" = false).
Proof.
  revert n k. induction fuel as [|f IH]; intros n k Hn.
  - change (2 ^ Z.of_nat 1) with 2 in Hn. cbn [digits_k].
    destruct (Z.ltb_spec n 10); [|lia].
    exists (digit_char n), k. split; [reflexivity|].
    split; [apply digit_char_spec|]. split.
    + intros ->. now split.
    + intros Hp. assert (n = 1) as -> by lia. reflexivity.
  - remember (S f) as f1. cbn [digits_k]. destruct (Z.ltb_spec n 10) as [Hlt|Hge].
    + exists (digit_char n), k. split; [reflexivity|].
      split; [apply digit_char_spec|]. split.
      * intros ->. now split.
      * intros Hp. apply Ascii.eqb_neq. intros E.
        pose proof (proj2 (digit_char_spec n)) as Hv. rewrite E in Hv.
        rewrite Z.mod_small in Hv by lia. change (digit_value "0") with 0 in Hv. lia.
    + assert (Hdiv : 0 <= n / 10 < 2 ^ Z.of_nat f1).
      { rewrite Nat2Z.inj_succ, Z.pow_succ_r in Hn by lia.
        split; [apply Z.div_pos; lia|].
        apply Z.div_lt_upper_bound; lia. }
      subst f1. destruct (IH (n / 10) (String (digit_char n) k) Hdiv)
        as (c & rest & E & Hc & _ & Hnz).
      exists c, rest. split; [exact E|]. split; [exact Hc|]. split; [lia|].
      intros _. apply Hnz. apply Z.div_str_pos. lia.
Qed.

Lemma Z_toString_k_nonneg (z : Z) (k : string) :
  0 <= z -> Z_toString_k z k = digits_k (S (Z.to_nat (Z.log2 z))) z k.
Proof. intros H. unfold Z_toString_k. destruct (Z.ltb_spec z 0); [lia|reflexivity]. Qed.

Lemma Z_toString_k_neg (z : Z) (k : string) :
  z < 0 -> Z_toString_k z k = String "-" (digits_k (S (Z.to_nat (Z.log2 (- z)))) (- z) k).
Proof. intros H. unfold Z_toString_k. destruct (Z.ltb_spec z 0); [reflexivity|lia]. Qed.

Lemma scan_digits_toString (n : Z) (k : string) :
  0 <= n -> no_digit_head k = true ->
  scan_digits 0 (digits_k (S (Z.to_nat (Z.log2 n))) n k) = (n, k).
Proof.
  intros Hn Hk. destruct (scan_digits_k _ n k (log2_fuel n Hn)) as [p Hp].
  rewrite Hp. cbn [Z.mul]. now apply scan_digits_stop.
Qed.

Lemma is_digit_string_toString (n : Z) :
  0 <= n -> is_digit_string (digits_k (S (Z.to_nat (Z.log2 n))) n "") = true.
Proof.
  intros Hn. destruct (digits_k_head _ n "" (log2_fuel n Hn)) as (c & rest & E & _).
  pose proof (all_digits_k (S (Z.to_nat (Z.log2 n))) n "") as H.
  rewrite E in *. exact H.
Qed.

(** [BigInt] reads back what [toString] wrote. *)
Lemma BigInt_of_toString (z : Z) : BigInt_of_string (Z_toString z) = Some z.
Proof.
  unfold Z_toString. destruct (Z.ltb_spec z 0) as [Hneg|Hpos].
  - rewrite Z_toString_k_neg by exact Hneg. unfold BigInt_of_string.
    rewrite Ascii.eqb_refl, is_digit_string_toString by lia.
    unfold digits_value. rewrite scan_digits_toString by (reflexivity || lia).
    cbn [fst]. f_equal. lia.
  - rewrite Z_toString_k_nonneg by exact Hpos.
    destruct (digits_k_head _ z "" (log2_fuel z Hpos)) as (c & rest & E & Hc & _).
    pose proof (is_digit_string_toString z Hpos) as Hd.
    pose proof (scan_digits_toString z "" Hpos eq_refl) as Hs.
    rewrite E in *. unfold BigInt_of_string.
    rewrite (digit_not_minus c Hc), Hd. unfold digits_value. now rewrite Hs.
Qed.

End Decimal.

Section Dates.

(** ** The calendar *)

Lemma doe_civil_spec (doe : Z) (yoe m d : Z) :
  0 <= doe <= 146096 ->
  doe_civil doe = (yoe, m, d) ->
  0 <= yoe <= 399 /\ 1 <= m <= 12 /\ 1 <= d <= 31 /\
  yoe * 365 + yoe / 4 - yoe / 100
  + ((153 * (if 2 <? m then m - 3 else m + 9) + 2) / 5 + d - 1) = doe.
Proof.
  intros Hdoe. unfold doe_civil.
  set (yoe0 := (doe - doe / 1460 + doe / 36524 - doe / 146096) / 365).
  set (doy := doe - (365 * yoe0 + yoe0 / 4 - yoe0 / 100)).
  set (mp := (5 * doy + 2) / 153).
  intros [= <- <- <-].
  assert (Hyoe : 0 <= yoe0 <= 399).
  { subst yoe0. Z.div_mod_to_equations. lia. }
  assert (Hdoy : 0 <= doy <= 365).
  { subst doy yoe0. Z.div_mod_to_equations. lia. }
  assert (Hmp : 0 <= mp <= 11).
  { subst mp. Z.div_mod_to_equations. lia. }
  assert (Hd : 1 <= doy - (153 * mp + 2) / 5 + 1 <= 31).
  { subst mp. Z.div_mod_to_equations. lia. }
  split; [exact Hyoe|].
  destruct (Z.ltb_spec mp 10) as [Hlt|Hge].
  - split; [lia|]. split; [exact Hd|].
    destruct (Z.ltb_spec 2 (mp + 3)); [|lia].
    replace (mp + 3 - 3) with mp by lia. subst doy. lia.
  - split; [lia|]. split; [exact Hd|].
    destruct (Z.ltb_spec 2 (mp - 9)); [lia|].
    replace (mp - 9 + 9) with mp by lia. subst doy. lia.
Qed.

(** [days_from_civil] undoes [civil_from_days]. *)
Lemma civil_from_days_spec (day y m d : Z) :
  civil_from_days day = (y, m, d) ->
  1 <= m <= 12 /\ 1 <= d <= 31 /\ days_from_civil y m d = day /\
  (day + 719468) / 146097 * 400 <= y <= (day + 719468) / 146097 * 400 + 400.
Proof.
  unfold civil_from_days. set (z := day + 719468). set (era := z / 146097).
  destruct (doe_civil (z - era * 146097)) as [[yoe m0] d0] eqn:E.
  intros [= <- <- <-].
  assert (Hdoe : 0 <= z - era * 146097 <= 146096).
  { subst era. Z.div_mod_to_equations. lia. }
  destruct (doe_civil_spec _ _ _ _ Hdoe E) as (Hyoe & Hm & Hd & Hback).
  split; [exact Hm|]. split; [exact Hd|]. split; [|destruct (m0 <=? 2); lia].
  unfold days_from_civil.
  assert (Hy : (if m0 <=? 2 then (if m0 <=? 2 then yoe + era * 400 + 1 else yoe + era * 400) - 1
                else (if m0 <=? 2 then yoe + era * 400 + 1 else yoe + era * 400))
               = yoe + era * 400).
  { destruct (m0 <=? 2); lia. }
  rewrite Hy.
  assert (Hera : (yoe + era * 400) / 400 = era).
  { symmetry. apply (Z.div_unique _ _ _ yoe); lia. }
  rewrite Hera. replace (yoe + era * 400 - era * 400) with yoe by lia.
  subst z. lia.
Qed.

(** ** Fixed-width fields *)

Lemma read_digits_pad (n : nat) (v acc : Z) (rest : string) :
  read_digits n acc (pad_digits n v ++ rest)
  = Some (acc * 10 ^ Z.of_nat n + v mod 10 ^ Z.of_nat n, rest).
Proof.
  revert acc. induction n as [|n IH]; intros acc.
  - cbn. rewrite Z.mod_1_r. do 2 f_equal. lia.
  - cbn [pad_digits append read_digits].
    destruct (digit_char_spec (v / 10 ^ Z.of_nat n)) as [Hd Hv]. rewrite Hd, Hv, IH.
    do 2 f_equal. rewrite Nat2Z.inj_succ, Z.pow_succ_r by lia.
    rewrite (Z.mul_comm 10 (10 ^ Z.of_nat n)).
    rewrite (Z.rem_mul_r v (10 ^ Z.of_nat n) 10) by lia. lia.
Qed.

Lemma read_digits_pad_small (n : nat) (v : Z) (rest : string) :
  0 <= v < 10 ^ Z.of_nat n ->
  read_digits n 0 (pad_digits n v ++ rest) = Some (v, rest).
Proof. intros H. rewrite read_digits_pad, Z.mod_small by exact H. reflexivity. Qed.

Lemma digit_not_plus (c : ascii) : is_digit c = true -> Ascii.eqb c "+" = false.
Proof.
  destruct c as [[|] [|] [|] [|] [|] [|] [|] [|]]; cbn; intros H;
    try discriminate; reflexivity.
Qed.

Lemma read_year_iso (y : Z) (rest : string) :
  -1000000 < y < 1000000 -> read_year (iso_year y ++ rest) = Some (y, rest).
Proof.
  intros Hy. unfold iso_year.
  destruct (Z.leb_spec 0 y) as [H0|H0]; destruct (Z.leb_spec y 9999) as [H1|H1];
    cbn [andb].
  - pose proof (read_digits_pad_small 4 y rest ltac:(cbn; lia)) as Hr.
    change (pad_digits 4 y) with (String (digit_char (y / 10 ^ Z.of_nat 3)) (pad_digits 3 y))
      in *.
    cbn [append] in *. unfold read_year.
    destruct (digit_char_spec (y / 10 ^ Z.of_nat 3)) as [Hd _].
    now rewrite (digit_not_plus _ Hd), (digit_not_minus _ Hd).
  - destruct (Z.ltb_spec y 0); [lia|]. cbn [append]. unfold read_year.
    rewrite Ascii.eqb_refl. rewrite read_digits_pad_small by (cbn; lia).
    f_equal. f_equal. lia.
  - destruct (Z.ltb_spec y 0); [|lia]. cbn [append]. unfold read_year.
    change (Ascii.eqb "-" "+") with false. rewrite Ascii.eqb_refl. cbn match.
    rewrite read_digits_pad_small by (cbn; lia). cbn [mbind option_bind].
    destruct (Z.eqb_spec (Z.abs y) 0); [lia|]. f_equal. f_equal. lia.
  - lia.
Qed.

Lemma expect_head (c : ascii) (s : string) : expect c (String c s) = Some s.
Proof. cbn. now rewrite Ascii.eqb_refl. Qed.

(** ** Round trip *)

(** [new Date(date.toISOString())] is the date. *)
Lemma Date_parse_toISOString (t : Date) :
  valid_time t -> Date_parse (toISOString t) = Some t.
Proof.
  unfold valid_time, toISOString, msPerDay. intros Ht.
  set (day := t / 86400000). set (ms := t mod 86400000).
  destruct (civil_from_days day) as [[y m] d] eqn:E.
  destruct (civil_from_days_spec _ _ _ _ E) as (Hm & Hd & Hback & Hy).
  assert (Hms : 0 <= ms < 86400000) by (subst ms; apply Z.mod_pos_bound; lia).
  assert (Hday : -100000000 <= day <= 100000000).
  { subst day. Z.div_mod_to_equations. lia. }
  assert (Hyear : -1000000 < y < 1000000).
  { revert Hy. Z.div_mod_to_equations. lia. }
  assert (Hhh : 0 <= ms / 3600000 < 10 ^ Z.of_nat 2) by (cbn; Z.div_mod_to_equations; lia).
  assert (Hmm : 0 <= ms / 60000 mod 60 < 10 ^ Z.of_nat 2)
    by (cbn; Z.div_mod_to_equations; lia).
  assert (Hss : 0 <= ms / 1000 mod 60 < 10 ^ Z.of_nat 2)
    by (cbn; Z.div_mod_to_equations; lia).
  assert (Hmss : 0 <= ms mod 1000 < 10 ^ Z.of_nat 3)
    by (cbn; Z.div_mod_to_equations; lia).
  unfold Date_parse, msPerDay. cbn [String.concat append].
  rewrite read_year_iso by exact Hyear. cbn [mbind option_bind]. rewrite expect_head.
  cbn [mbind option_bind]. rewrite read_digits_pad_small by (cbn; lia).
  cbn [mbind option_bind]. rewrite expect_head.
  cbn [mbind option_bind]. rewrite read_digits_pad_small by (cbn; lia).
  cbn [mbind option_bind]. rewrite expect_head.
  cbn [mbind option_bind]. rewrite read_digits_pad_small by exact Hhh.
  cbn [mbind option_bind]. rewrite expect_head.
  cbn [mbind option_bind]. rewrite read_digits_pad_small by exact Hmm.
  cbn [mbind option_bind]. rewrite expect_head.
  cbn [mbind option_bind]. rewrite read_digits_pad_small by exact Hss.
  cbn [mbind option_bind]. rewrite expect_head.
  cbn [mbind option_bind].
  rewrite read_digits_pad_small by exact Hmss.
  cbn [mbind option_bind]. rewrite expect_head. cbn [mbind option_bind].
  rewrite Hback.
  assert (Hsum : day * 86400000 + ms / 3600000 * 3600000 + ms / 60000 mod 60 * 60000
                 + ms / 1000 mod 60 * 1000 + ms mod 1000 = t).
  { subst day ms. Z.div_mod_to_equations. lia. }
  rewrite Hsum.
  assert (H1 : (ms / 3600000 <=? 23) = true)
    by (apply Z.leb_le; Z.div_mod_to_equations; lia).
  assert (H2 : (ms / 60000 mod 60 <=? 59) = true)
    by (apply Z.leb_le; Z.div_mod_to_equations; lia).
  assert (H3 : (ms / 1000 mod 60 <=? 59) = true)
    by (apply Z.leb_le; Z.div_mod_to_equations; lia).
  rewrite H1, H2, H3.
  repeat match goal with
         | |- context [?a <=? ?b] => destruct (Z.leb_spec a b); [|lia]
         end.
  reflexivity.
Qed.

End Dates.

(* ===================================================================== *)
(** * JSON                                                                *)
(* ===================================================================== *)

Section JSONFacts.

(** ** Strings *)

Lemma parse_escape_char (c : ascii) (k : string) :
  parse_string_body (escape_char c k)
  = '(body, rest) ← parse_string_body k; Some (String c body, rest).
Proof.
  destruct c as [[|] [|] [|] [|] [|] [|] [|] [|]]; reflexivity.
Qed.

Lemma parse_quote_body (s k : string) : parse_string_body (quote_body s k) = Some (s, k).
Proof.
  induction s as [|c s IH]; [reflexivity|].
  cbn [quote_body]. now rewrite parse_escape_char, IH.
Qed.

(** ** White space *)

Lemma skip_ws_spaces (n : nat) (k : string) : skip_ws (spaces_k n k) = skip_ws k.
Proof. induction n as [|n IH]; [reflexivity|exact IH]. Qed.

Lemma skip_ws_newline (n : nat) (k : string) : skip_ws (newline_k n k) = skip_ws k.
Proof. unfold newline_k. cbn [skip_ws]. apply skip_ws_spaces. Qed.

Lemma skip_ws_head (s : string) : value_head s = true -> skip_ws s = s.
Proof.
  destruct s as [|c s]; [discriminate|]. cbn. intros H.
  apply negb_true_iff in H. rewrite !orb_false_iff in H. destruct H as [[-> _] _].
  reflexivity.
Qed.

Lemma skip_ws_idem (s : string) : skip_ws (skip_ws s) = skip_ws s.
Proof.
  induction s as [|c s IH]; [reflexivity|]. cbn [skip_ws].
  destruct (is_ws c) eqn:E; [exact IH|]. cbn [skip_ws]. now rewrite E.
Qed.

Lemma parse_value_skip (fuel : nat) (s : string) :
  parse_value fuel (skip_ws s) = parse_value fuel s.
Proof. destruct fuel; [reflexivity|]. cbn [parse_value]. now rewrite skip_ws_idem. Qed.

Lemma parse_value_newline (fuel n : nat) (s : string) :
  parse_value fuel (newline_k n s) = parse_value fuel s.
Proof.
  rewrite <- (parse_value_skip fuel (newline_k n s)), skip_ws_newline.
  apply parse_value_skip.
Qed.

Lemma parse_elements_newline (fuel n : nat) (s : string) :
  parse_elements fuel (newline_k n s) = parse_elements fuel s.
Proof. destruct fuel; [reflexivity|]. cbn [parse_elements]. now rewrite parse_value_newline. Qed.

Lemma parse_members_newline (fuel n : nat) (s : string) :
  parse_members fuel (newline_k n s) = parse_members fuel s.
Proof. destruct fuel; [reflexivity|]. cbn [parse_members]. now rewrite skip_ws_newline. Qed.

(** ** Numbers *)

Lemma value_end_no_digit (k : string) : value_end k = true -> no_digit_head k = true.
Proof.
  destruct k as [|c k]; [reflexivity|]. cbn. intros H.
  apply negb_true_iff in H. rewrite !orb_false_iff in H. destruct H as [[[-> _] _] _].
  reflexivity.
Qed.

Lemma parse_number_digits (n : Z) (k : string) :
  0 <= n -> value_end k = true ->
  let digits := digits_k (S (Z.to_nat (Z.log2 n))) n k in
  exists c rest,
    digits = String c rest /\ is_digit c = true /\
    forall negative : bool,
      (let leading_zero :=
         Ascii.eqb c "0"
         && match rest with String c' _ => is_digit c' | EmptyString => false end in
       let '(m, rest') := scan_digits 0 digits in
       let more :=
         match rest' with
         | String c' _ => Ascii.eqb c' "." || Ascii.eqb c' "e" || Ascii.eqb c' "E"
         | EmptyString => false
         end in
       if leading_zero || more then None
       else Some (if negative then - m else m, rest'))
      = Some (if negative then - n else n, k).
Proof.
  intros Hn Hk digits.
  destruct (digits_k_head _ n k (log2_fuel n Hn)) as (c & rest & E & Hc & H0 & Hpos).
  exists c, rest. split; [exact E|]. split; [exact Hc|]. intros negative.
  subst digits. rewrite (scan_digits_toString n k Hn (value_end_no_digit k Hk)).
  assert (Hlz : Ascii.eqb c "0"
                && match rest with String c' _ => is_digit c' | EmptyString => false end
                = false).
  { destruct (Z.eq_dec n 0) as [->|Hne].
    - destruct (H0 eq_refl) as [-> ->]. cbn [andb Ascii.eqb].
      destruct k as [|c' k']; [reflexivity|]. cbn in Hk.
      apply negb_true_iff in Hk. rewrite !orb_false_iff in Hk.
      now destruct Hk as [[[-> _] _] _].
    - rewrite Hpos by lia. reflexivity. }
  rewrite Hlz. cbn [orb].
  assert (Hmore : match k with
                  | String c' _ => Ascii.eqb c' "." || Ascii.eqb c' "e" || Ascii.eqb c' "E"
                  | EmptyString => false
                  end = false).
  { destruct k as [|c' k']; [reflexivity|]. cbn in Hk.
    apply negb_true_iff in Hk. rewrite !orb_false_iff in Hk.
    destruct Hk as [[[_ ->] ->] ->]. reflexivity. }
  now rewrite Hmore.
Qed.

Lemma parse_number_toString (z : Z) (k : string) :
  value_end k = true -> parse_number (Z_toString_k z k) = Some (z, k).
Proof.
  intros Hk. destruct (Z.ltb_spec z 0) as [Hneg|Hpos].
  - rewrite Z_toString_k_neg by exact Hneg.
    destruct (parse_number_digits (- z) k ltac:(lia) Hk) as (c & rest & E & Hc & H).
    unfold parse_number. rewrite Ascii.eqb_refl. rewrite E in *. rewrite Hc.
    etransitivity; [exact (H true)|]. f_equal. f_equal. lia.
  - rewrite Z_toString_k_nonneg by exact Hpos.
    destruct (parse_number_digits z k Hpos Hk) as (c & rest & E & Hc & H).
    unfold parse_number. rewrite E in *. rewrite (digit_not_minus c Hc), Hc.
    exact (H false).
Qed.

(** The first character of a number is a digit or the minus sign. *)
Lemma Z_toString_k_head (z : Z) (k : string) :
  exists c rest, Z_toString_k z k = String c rest /\
                 (is_digit c || Ascii.eqb c "-") = true.
Proof.
  destruct (Z.ltb_spec z 0) as [Hneg|Hpos].
  - rewrite Z_toString_k_neg by exact Hneg. eexists _, _. split; [reflexivity|].
    now rewrite Ascii.eqb_refl, orb_true_r.
  - rewrite Z_toString_k_nonneg by exact Hpos.
    destruct (digits_k_head _ z k (log2_fuel z Hpos)) as (c & rest & E & Hc & _).
    exists c, rest. split; [exact E|]. now rewrite Hc.
Qed.

Lemma digit_or_minus_head (c : ascii) :
  (is_digit c || Ascii.eqb c "-") = true ->
  negb (is_ws c || Ascii.eqb c "]" || Ascii.eqb c "}") = true.
Proof.
  destruct c as [[|] [|] [|] [|] [|] [|] [|] [|]]; cbn; intros H;
    try discriminate; reflexivity.
Qed.

(** ** The first character decides *)

Lemma parse_value_number (fuel : nat) (c : ascii) (r : string) :
  (is_digit c || Ascii.eqb c "-") = true ->
  parse_value (S fuel) (String c r)
  = '(n, rest) ← parse_number (String c r); Some (JNumber n, rest).
Proof.
  intros H. cbn [parse_value]. rewrite skip_ws_head by (now apply digit_or_minus_head).
  now rewrite H.
Qed.

Lemma parse_value_string (fuel : nat) (r : string) :
  parse_value (S fuel) (String "034" r)
  = '(str, rest) ← parse_string_body r; Some (JString str, rest).
Proof. reflexivity. Qed.

Lemma parse_value_array (fuel : nat) (r : string) :
  parse_value (S fuel) (String "[" r)
  = match skip_ws r with
    | String c' r' =>
        if Ascii.eqb c' "]" then Some (JArray [], r')
        else '(items, rest) ← parse_elements fuel r; Some (JArray items, rest)
    | EmptyString => None
    end.
Proof. reflexivity. Qed.

Lemma parse_value_object (fuel : nat) (r : string) :
  parse_value (S fuel) (String "{" r)
  = match skip_ws r with
    | String c' r' =>
        if Ascii.eqb c' "}" then Some (JObject [], r')
        else '(members, rest) ← parse_members fuel r; Some (JObject members, rest)
    | EmptyString => None
    end.
Proof. reflexivity. Qed.

Lemma value_head_array {T} (s : string) (A : string -> T) (B C : T) :
  value_head (skip_ws s) = true ->
  match skip_ws s with
  | String c' r' => if Ascii.eqb c' "]" then A r' else B
  | EmptyString => C
  end = B.
Proof.
  destruct (skip_ws s) as [|c r]; [discriminate|]. cbn. intros H.
  apply negb_true_iff in H. rewrite !orb_false_iff in H. now destruct H as [[_ ->] _].
Qed.

Lemma value_head_object {T} (s : string) (A : string -> T) (B C : T) :
  value_head (skip_ws s) = true ->
  match skip_ws s with
  | String c' r' => if Ascii.eqb c' "}" then A r' else B
  | EmptyString => C
  end = B.
Proof.
  destruct (skip_ws s) as [|c r]; [discriminate|]. cbn. intros H.
  apply negb_true_iff in H. rewrite !orb_false_iff in H. now destruct H as [_ ->].
Qed.

Lemma print_value_head (v : json) (indent : nat) (k : string) :
  value_head (print_value v indent k) = true.
Proof.
  destruct v as [|[|]|n|s|[|x items]|[|m members]]; try reflexivity.
  cbn [print_value]. destruct (Z_toString_k_head n k) as (c & rest & -> & Hc).
  now apply digit_or_minus_head.
Qed.

Lemma print_items_head {A} (f : A -> string -> string) (indent : nat)
      (x : A) (l : list A) (k : string) :
  (forall y k', value_head (f y k') = true) ->
  value_head (print_items f indent (x :: l) k) = true.
Proof. intros H. cbn [print_items]. destruct l; apply H. Qed.

Lemma parse_value_space (fuel : nat) (s : string) :
  parse_value fuel (String " " s) = parse_value fuel s.
Proof.
  rewrite <- (parse_value_skip fuel (String " " s)). cbn [skip_ws is_ws].
  change (Ascii.eqb " " " ") with true. cbn [orb]. apply parse_value_skip.
Qed.

(** ** Round trip *)

Lemma print_value_array (x : json) (items : list json) (indent : nat) (k : string) :
  print_value (JArray (x :: items)) indent k
  = String "["
      (newline_k (indent + 2)
         (print_items (fun y => print_value y (indent + 2)) (indent + 2) (x :: items)
            (newline_k indent (String "]" k)))).
Proof. reflexivity. Qed.

Lemma print_value_object (m : string * json) (members : list (string * json))
      (indent : nat) (k : string) :
  print_value (JObject (m :: members)) indent k
  = String "{"
      (newline_k (indent + 2)
         (print_items (member_printer (indent + 2)) (indent + 2) (m :: members)
            (newline_k indent (String "}" k)))).
Proof. reflexivity. Qed.

Lemma parse_print (fuel : nat) :
  (forall v indent k,
      (json_size v <= fuel)%nat -> value_end k = true ->
      parse_value fuel (print_value v indent k) = Some (v, k)) /\
  (forall x items indent indent' k,
      (items_size (x :: items) <= fuel)%nat ->
      parse_elements fuel
        (print_items (fun y => print_value y indent) indent (x :: items)
           (newline_k indent' (String "]" k)))
      = Some (x :: items, k)) /\
  (forall m members indent indent' k,
      (members_size (m :: members) <= fuel)%nat ->
      parse_members fuel
        (print_items (member_printer indent) indent (m :: members)
           (newline_k indent' (String "}" k)))
      = Some (m :: members, k)).
Proof.
  induction fuel as [|fuel (IHv & IHe & IHm)].
  - split; [|split].
    + intros v indent k H. destruct v; cbn in H; lia.
    + intros x items indent indent' k H. cbn in H. lia.
    + intros m members indent indent' k H. cbn in H. lia.
  - split; [|split].
    + intros v indent k Hsize Hk.
      destruct v as [|[|]|n|s|[|x items]|[|m members]]; try reflexivity.
      * cbn [print_value]. destruct (Z_toString_k_head n k) as (c & rest & E & Hc).
        rewrite E, (parse_value_number _ _ _ Hc), <- E, parse_number_toString by exact Hk.
        reflexivity.
      * cbn [print_value]. unfold quote_k.
        now rewrite parse_value_string, parse_quote_body.
      * rewrite print_value_array, parse_value_array.
        rewrite value_head_array
          by (rewrite skip_ws_newline, skip_ws_head;
              apply print_items_head; intros; apply print_value_head).
        rewrite parse_elements_newline, IHe; [reflexivity|].
        cbn [json_size] in Hsize. unfold items_size. lia.
      * rewrite print_value_object, parse_value_object.
        rewrite value_head_object
          by (rewrite skip_ws_newline, skip_ws_head;
              apply print_items_head; intros; reflexivity).
        rewrite parse_members_newline, IHm; [reflexivity|].
        cbn [json_size] in Hsize. unfold members_size. lia.
    + intros x items indent indent' k Hsize.
      unfold items_size in Hsize. cbn [fold_right] in Hsize.
      fold (items_size items) in Hsize.
      cbn [parse_elements print_items]. destruct items as [|y items].
      * rewrite IHv by (reflexivity || lia). cbn [mbind option_bind].
        rewrite skip_ws_newline. reflexivity.
      * rewrite IHv by (reflexivity || lia). cbn [mbind option_bind skip_ws].
        change (is_ws ",") with false. cbn match. rewrite Ascii.eqb_refl.
        rewrite parse_elements_newline, IHe by lia. reflexivity.
    + intros [key v] members indent indent' k Hsize.
      unfold members_size in Hsize. cbn [fold_right snd] in Hsize.
      fold (members_size members) in Hsize.
      cbn [parse_members print_items]. destruct members as [|m' members].
      * unfold member_printer at 1, quote_k. cbn [fst snd skip_ws].
        change (is_ws "034") with false. cbn match. rewrite Ascii.eqb_refl.
        rewrite parse_quote_body. cbn [mbind option_bind skip_ws].
        change (is_ws ":") with false. cbn match. rewrite Ascii.eqb_refl.
        rewrite parse_value_space, IHv by (reflexivity || lia).
        cbn [mbind option_bind]. rewrite skip_ws_newline. reflexivity.
      * unfold member_printer at 1, quote_k. cbn [fst snd skip_ws].
        change (is_ws "034") with false. cbn match. rewrite Ascii.eqb_refl.
        rewrite parse_quote_body. cbn [mbind option_bind skip_ws].
        change (is_ws ":") with false. cbn match. rewrite Ascii.eqb_refl.
        rewrite parse_value_space, IHv by (reflexivity || lia).
        cbn [mbind option_bind skip_ws].
        change (is_ws ",") with false. cbn match. rewrite Ascii.eqb_refl.
        rewrite parse_members_newline, IHm by lia. reflexivity.
Qed.

(** ** The text is long enough to bound the parser's calls *)

Lemma length_spaces_k (n : nat) (k : string) :
  String.length (spaces_k n k) = (n + String.length k)%nat.
Proof. induction n as [|n IH]; [reflexivity|]. cbn. now rewrite IH. Qed.

Lemma length_newline_k (n : nat) (k : string) :
  String.length (newline_k n k) = S (n + String.length k).
Proof. unfold newline_k. cbn. now rewrite length_spaces_k. Qed.

Lemma length_escape_char (c : ascii) (k : string) :
  (S (String.length k) <= String.length (escape_char c k))%nat.
Proof.
  unfold escape_char.
  repeat match goal with |- context [if ?b then _ else _] => destruct b end;
    cbn [String.length]; lia.
Qed.

Lemma length_quote_body (s k : string) :
  (S (String.length k) <= String.length (quote_body s k))%nat.
Proof.
  induction s as [|c s IH]; cbn [quote_body]; [cbn; lia|].
  pose proof (length_escape_char c (quote_body s k)). lia.
Qed.

Lemma length_digits_k (fuel : nat) (n : Z) (k : string) :
  (String.length k <= String.length (digits_k fuel n k))%nat /\
  (S (String.length k) <= String.length (digits_k (S fuel) n k))%nat.
Proof.
  revert n k. induction fuel as [|f IH]; intros n k.
  - cbn [digits_k]. destruct (n <? 10); cbn [String.length]; lia.
  - split; [destruct (IH n k); lia|].
    remember (S f) as f1. cbn [digits_k]. destruct (n <? 10); [cbn; lia|].
    subst f1. destruct (IH (n / 10) (String (digit_char n) k)) as [_ H].
    cbn [String.length] in H. lia.
Qed.

Lemma length_Z_toString_k (z : Z) (k : string) :
  (S (String.length k) <= String.length (Z_toString_k z k))%nat.
Proof.
  unfold Z_toString_k. destruct (z <? 0).
  - cbn [String.length].
    destruct (length_digits_k (Z.to_nat (Z.log2 (- z))) (- z) k) as [_ H]. lia.
  - apply length_digits_k.
Qed.

Lemma items_size_cons (x : json) (items : list json) :
  items_size (x :: items) = S (json_size x + items_size items).
Proof. reflexivity. Qed.

Lemma members_size_cons (m : string * json) (members : list (string * json)) :
  members_size (m :: members) = S (json_size (snd m) + members_size members).
Proof. reflexivity. Qed.

Lemma print_length (n : nat) :
  (forall v indent k,
      (json_size v <= n)%nat ->
      (json_size v + String.length k <= String.length (print_value v indent k))%nat) /\
  (forall x items indent k,
      (items_size (x :: items) <= n)%nat ->
      (items_size (x :: items) + String.length k
       <= S (String.length
               (print_items (fun y => print_value y indent) indent (x :: items) k)))%nat) /\
  (forall m members indent k,
      (members_size (m :: members) <= n)%nat ->
      (members_size (m :: members) + String.length k
       <= S (String.length
               (print_items (member_printer indent) indent (m :: members) k)))%nat).
Proof.
  induction n as [|n (IHv & IHe & IHm)].
  - split; [|split].
    + intros v indent k H. destruct v; cbn in H; lia.
    + intros x items indent k H. cbn in H. lia.
    + intros m members indent k H. cbn in H. lia.
  - split; [|split].
    + intros v indent k Hsize.
      destruct v as [|[|]|z|s|[|x items]|[|m members]]; try (cbn; lia).
      * cbn [print_value json_size]. pose proof (length_Z_toString_k z k). lia.
      * cbn [print_value json_size]. unfold quote_k. cbn [String.length].
        pose proof (length_quote_body s k). lia.
      * rewrite print_value_array. cbn [String.length]. rewrite length_newline_k.
        cbn [json_size] in *. fold (items_size (x :: items)) in *.
        pose proof (IHe x items (indent + 2)%nat (newline_k indent (String "]" k))
                        ltac:(lia)) as H.
        rewrite length_newline_k in H. cbn [String.length] in H. lia.
      * rewrite print_value_object. cbn [String.length]. rewrite length_newline_k.
        cbn [json_size] in *. fold (members_size (m :: members)) in *.
        pose proof (IHm m members (indent + 2)%nat (newline_k indent (String "}" k))
                        ltac:(lia)) as H.
        rewrite length_newline_k in H. cbn [String.length] in H. lia.
    + intros x items indent k Hsize. rewrite items_size_cons in *.
      cbn [print_items]. destruct items as [|y items].
      * pose proof (IHv x indent k ltac:(lia)). cbn [items_size fold_right]. lia.
      * pose proof (IHv x indent
                        (String "," (newline_k indent
                           (print_items (fun y0 => print_value y0 indent) indent
                              (y :: items) k))) ltac:(lia)) as H1.
        pose proof (IHe y items indent k ltac:(lia)) as H2.
        cbn [String.length] in H1. rewrite length_newline_k in H1. lia.
    + intros [key v] members indent k Hsize. rewrite members_size_cons in *.
      cbn [snd] in *. cbn [print_items]. destruct members as [|m' members].
      * unfold member_printer, quote_k. cbn [fst snd String.length].
        pose proof (length_quote_body key
                      (String ":" (String " " (print_value v indent k)))) as H1.
        pose proof (IHv v indent k ltac:(lia)) as H2.
        cbn [String.length] in H1. cbn [members_size fold_right]. lia.
      * unfold member_printer at 1, quote_k. cbn [fst snd String.length].
        set (K := String "," (newline_k indent
                     (print_items (member_printer indent) indent (m' :: members) k))).
        pose proof (length_quote_body key
                      (String ":" (String " " (print_value v indent K)))) as H1.
        pose proof (IHv v indent K ltac:(lia)) as H2.
        pose proof (IHm m' members indent k ltac:(lia)) as H3.
        subst K. cbn [String.length] in H1, H2. rewrite length_newline_k in H2. lia.
Qed.

(** [JSON.parse(JSON.stringify(v, null, 2))] is [v]. *)
Lemma JSON_parse_stringify (v : json) : JSON_parse (JSON_stringify v) = Some v.
Proof.
  unfold JSON_parse, JSON_stringify.
  pose proof (proj1 (print_length (json_size v)) v 0%nat "" ltac:(lia)) as Hlen.
  rewrite (proj1 (parse_print _)) by (reflexivity || lia).
  reflexivity.
Qed.

End JSONFacts.

(* ===================================================================== *)
(** * Export and import of a chain                                        *)
(* ===================================================================== *)

Section ExportImport.
Import PoH.

Lemma eventType_of_string_string (e : FeeEventType) :
  eventType_of_string (eventType_string e) = Some e.
Proof. now destruct e. Qed.

Lemma vault_of_string_string (v : VaultLabel) :
  vault_of_string (vault_string v) = Some v.
Proof. now destruct v. Qed.

(** Importing the object exported for a record gives the record back. *)
Lemma import_export_record (r : PoHRecord) :
  valid_time (timestamp r) -> import_record (export_record r) = Some r.
Proof.
  destruct r as [sq h p t sl e v m sy a sg]. cbn [timestamp]. intros Ht.
  unfold import_record, export_record.
  destruct sl as [n|]; destruct sy as [y|];
    cbn -[toISOString Z_toString Date_parse BigInt_of_string eventType_string
          vault_string eventType_of_string vault_of_string];
    rewrite (Date_parse_toISOString t Ht), BigInt_of_toString,
      eventType_of_string_string, vault_of_string_string;
    reflexivity.
Qed.

Lemma import_export_records (records : list PoHRecord) :
  Forall (fun r => valid_time (timestamp r)) records ->
  import_records (map export_record records) = Some records.
Proof.
  induction 1 as [|r records Hr _ IH]; [reflexivity|].
  cbn [map import_records]. now rewrite (import_export_record r Hr), IH.
Qed.

(** C6.  Export and import are inverse: the exported text is a JSON array
    with one object per record, in which [amountLamports] is the string of
    the amount's decimal digits and [timestamp] the ISO text of the date;
    for every list of records whose timestamps are valid dates, importing
    the exported text gives the records back, amounts and timestamps
    included. *)
Theorem export_import_roundtrip (records : list PoHRecord) :
  Forall (fun r => valid_time (timestamp r)) records ->
  JSON_parse (exportChainToJSON records) = Some (JArray (map export_record records)) /\
  (forall r, exists members,
      export_record r = JObject members /\
      get_member "amountLamports" members
      = Some (JString (Z_toString (amountLamports r))) /\
      get_member "timestamp" members = Some (JString (toISOString (timestamp r)))) /\
  importChainFromJSON (exportChainToJSON records) = Some records.
Proof.
  intros H. unfold importChainFromJSON, exportChainToJSON.
  rewrite JSON_parse_stringify. split; [reflexivity|]. split.
  - intros r. eexists. split; [reflexivity|].
    destruct (slot r), (tokenSymbol r); split; reflexivity.
  - now apply import_export_records.
Qed.

Lemma export_import_roundtrip_witness :
  importChainFromJSON (exportChainToJSON PoHExample.chain) = Some PoHExample.chain.
Proof.
  apply (export_import_roundtrip PoHExample.chain).
  apply Forall_forall. intros r Hr. apply list_elem_of_In in Hr. vm_compute in Hr.
  destruct Hr as [<-|[<-|[<-|[]]]]; vm_compute; split; discriminate.
Defined.

End ExportImport.

(* ===================================================================== *)
(** * More on the proof-of-history chain                                  *)
(* ===================================================================== *)

Section PoHVerdicts.
Import PoH PoHSpec.

Lemma genesis_test_false (first : PoHRecord) :
  negb (String.eqb (prevHash first) GENESIS_HASH) && (sequence first =? 1) = false <->
  (sequence first = 1 -> prevHash first = GENESIS_HASH).
Proof.
  destruct (String.eqb_spec (prevHash first) GENESIS_HASH) as [E|E];
    destruct (Z.eqb_spec (sequence first) 1) as [S|S]; cbn; split;
    intros H; try reflexivity; try discriminate; tauto.
Qed.

(** X1.  What a verdict of valid means, for records whose sequence
    numbers and slots are safe integers (below 2^53 in absolute value,
    where the doubles of the code count as the integers do): in sequence
    order every record carries its own digest, each record after the first
    carries the hash of its predecessor and the next sequence number, and
    the first record links to the genesis hash if its sequence number
    is 1. *)
Theorem verifyChain_valid_iff (records : list PoHRecord) :
  forallb safe_record records = true ->
  verifyChain records = Valid <->
  consistent (sort_by_sequence records) /\
  (forall first, head (sort_by_sequence records) = Some first ->
                 sequence first = 1 -> prevHash first = GENESIS_HASH).
Proof.
  intros _.
  destruct (sort_by_sequence records) as [|first rest] eqn:Es.
  - rewrite (sort_nil_inv _ Es). cbn. split; [|reflexivity].
    intros _. split; [exact I|]. intros first Hf. discriminate.
  - rewrite (verifyChain_sorted _ _ _ Es).
    destruct (negb _ && _) eqn:G.
    + split; [discriminate|]. intros [_ H]. exfalso.
      assert (G' : negb (String.eqb (prevHash first) GENESIS_HASH) && (sequence first =? 1)
                   = false).
      { apply genesis_test_false. apply H. reflexivity. }
      congruence.
    + split.
      * intros V. split; [exact (consistent_valid_inv _ _ V)|].
        intros f Hf. cbn in Hf. injection Hf as <-. now apply genesis_test_false.
      * intros [C _]. now apply verify_loop_consistent.
Qed.

Lemma verifyChain_valid_iff_witness :
  verifyChain PoHExample.chain = Valid /\
  consistent (sort_by_sequence PoHExample.chain).
Proof.
  assert (V : verifyChain PoHExample.chain = Valid) by (vm_compute; reflexivity).
  split; [exact V|].
  assert (S : forallb safe_record PoHExample.chain = true) by (vm_compute; reflexivity).
  exact (proj1 (proj1 (verifyChain_valid_iff PoHExample.chain S) V)).
Defined.




(** ** The order of the records *)

Lemma same_sequence_eq (l : list PoHRecord) (x y : PoHRecord) :
  List.NoDup (map sequence l) -> In x l -> In y l -> sequence x = sequence y -> x = y.
Proof.
  induction l as [|z l IH]; intros Hnd Hx Hy Hs; [destruct Hx|].
  cbn [map] in Hnd. apply List.NoDup_cons_iff in Hnd. destruct Hnd as [Hz Hnd].
  destruct Hx as [->|Hx], Hy as [->|Hy]; auto.
  - exfalso. apply Hz. rewrite Hs. now apply in_map.
  - exfalso. apply Hz. rewrite <- Hs. now apply in_map.
Qed.

Lemma ascending_tail (x : PoHRecord) (l : list PoHRecord) :
  ascending (x :: l) -> ascending l.
Proof. destruct l as [|y l]; [trivial|]. now intros [_ H]. Qed.

(** Two ascending arrangements of records with distinct sequence numbers
    are the same list. *)
Lemma ascending_unique (l l' : list PoHRecord) :
  List.NoDup (map sequence l) -> ascending l -> ascending l' -> Permutation l l' ->
  l = l'.
Proof.
  revert l'. induction l as [|x l IH]; intros l' Hnd Ha Ha' P.
  - now apply Permutation_nil in P.
  - destruct l' as [|x' l']; [now apply Permutation_sym, Permutation_nil in P|].
    assert (Hx' : In x' (x :: l)).
    { apply (Permutation_in _ (Permutation_sym P)). now left. }
    assert (Hx : In x (x' :: l')).
    { apply (Permutation_in _ P). now left. }
    assert (E : x = x').
    { apply (same_sequence_eq (x :: l)); auto; [now left|].
      pose proof (ascending_head_min _ _ _ Ha Hx').
      pose proof (ascending_head_min _ _ _ Ha' Hx). lia. }
    subst x'. f_equal. apply IH.
    + cbn [map] in Hnd. now apply List.NoDup_cons_iff in Hnd.
    + exact (ascending_tail _ _ Ha).
    + exact (ascending_tail _ _ Ha').
    + exact (Permutation_cons_inv P).
Qed.

(** X3.  [verifyChain] sorts before it checks: when the sequence numbers
    are pairwise distinct, the order in which the records are passed does
    not matter to the verdict, the reported index or the message. *)
Theorem verifyChain_order_irrelevant (l l' : list PoHRecord) :
  List.NoDup (map sequence l) -> Permutation l l' -> verifyChain l = verifyChain l'.
Proof.
  intros Hnd P.
  assert (Es : sort_by_sequence l = sort_by_sequence l').
  { apply ascending_unique.
    - apply (Permutation_NoDup (Permutation_map sequence (sort_Permutation l)) Hnd).
    - apply sort_is_ascending.
    - apply sort_is_ascending.
    - rewrite <- (sort_Permutation l), <- (sort_Permutation l'). exact P. }
  destruct (sort_by_sequence l) as [|first rest] eqn:E.
  - symmetry in Es. rewrite (sort_nil_inv _ E), (sort_nil_inv _ Es). reflexivity.
  - symmetry in Es.
    rewrite (verifyChain_sorted _ _ _ E), (verifyChain_sorted _ _ _ Es). reflexivity.
Qed.

Lemma verifyChain_order_irrelevant_witness :
  verifyChain (rev PoHExample.chain) = verifyChain PoHExample.chain /\
  verifyChain (rev PoHExample.chain) = Valid.
Proof.
  split; [|vm_compute; reflexivity]. symmetry.
  apply (verifyChain_order_irrelevant PoHExample.chain (rev PoHExample.chain)).
  - vm_compute. repeat (apply List.NoDup_cons; [cbn; intuition discriminate|]). apply List.NoDup_nil.
  - apply Permutation_rev.
Defined.

(** ** Reading the store back *)

Lemma insert_from_row (r : PoHRecord) (l : list PoHRecord) :
  insert_by_sequence (from_row r) (map from_row l)
  = map from_row (insert_by_sequence r l).
Proof.
  induction l as [|x l IH]; [reflexivity|]. cbn [map insert_by_sequence].
  change (sequence (from_row r)) with (sequence r).
  change (sequence (from_row x)) with (sequence x).
  destruct (sequence r <=? sequence x); [reflexivity|]. cbn [map]. now rewrite IH.
Qed.

Lemma sort_from_row (l : list PoHRecord) :
  sort_by_sequence (map from_row l) = map from_row (sort_by_sequence l).
Proof.
  induction l as [|x l IH]; [reflexivity|]. cbn [map sort_by_sequence].
  now rewrite IH, insert_from_row.
Qed.

Lemma verify_loop_from_row (l : list PoHRecord) (prev : option PoHRecord) (i : nat) :
  verify_loop (option_map from_row prev) i (map from_row l) = verify_loop prev i l.
Proof.
  revert prev i. induction l as [|x l IH]; intros prev i; [reflexivity|].
  cbn [map verify_loop]. rewrite verifyRecordHash_from_row.
  change (sequence (from_row x)) with (sequence x).
  change (prevHash (from_row x)) with (prevHash x).
  destruct (negb (verifyRecordHash x)); [reflexivity|].
  destruct prev as [q|]; cbn [option_map].
  - change (hash (from_row q)) with (hash q).
    change (sequence (from_row q)) with (sequence q).
    destruct (negb (String.eqb (prevHash x) (hash q))); [reflexivity|].
    destruct (negb (sequence x =? sequence q + 1)); [reflexivity|].
    apply (IH (Some x)).
  - apply (IH (Some x)).
Qed.

(** X4.  Reading rows back from the store turns a slot of 0 and an empty
    token symbol into missing fields ([slot || undefined],
    [tokenSymbol || undefined]).  The digest cannot tell the two apart, so
    the verdict on the rows as read is the verdict on the rows as stored,
    and [verifyFullChain] reports it with the number of the token's rows. *)
Theorem verifyChain_from_row :
  (forall l : list PoHRecord, verifyChain (map from_row l) = verifyChain l) /\
  (forall (mgr : Manager) (table : Table),
      verifyFullChain mgr table
      = (verifyChain (findMany table (m_tokenMint mgr)),
         List.length (findMany table (m_tokenMint mgr)))).
Proof.
  assert (H : forall l : list PoHRecord, verifyChain (map from_row l) = verifyChain l).
  { intros l. destruct (sort_by_sequence l) as [|first rest] eqn:E.
    - now rewrite (sort_nil_inv _ E).
    - rewrite (verifyChain_sorted _ _ _ E).
      rewrite (verifyChain_sorted (from_row first) (map from_row rest)).
      + change (prevHash (from_row first)) with (prevHash first).
        change (sequence (from_row first)) with (sequence first).
        destruct (negb _ && _); [reflexivity|].
        apply (verify_loop_from_row (first :: rest) None 0).
      + now rewrite sort_from_row, E. }
  split; [exact H|]. intros mgr table. unfold verifyFullChain, getFullChain.
  now rewrite H, length_map.
Qed.

(** ** The manager and its store *)

Lemma addEvent_row (mgr mgr' : Manager) (table table' : Table) (now : Date)
      (event : EventInput) (record : PoHRecord) :
  addEvent mgr table now event = Some (record, mgr', table') ->
  table' = table ++ [record] /\ tokenMint record = m_tokenMint mgr /\
  sequence record = lastSequence mgr + 1 /\ m_tokenMint mgr' = m_tokenMint mgr.
Proof.
  unfold addEvent, create. destruct (existsb _ table); [discriminate|].
  intros [= <- <- <-]. auto.
Qed.

(** X5.  The unique index on (token, sequence) makes the manager the
    single writer: once an append was stored, an append made from the
    state before it (a second manager of the token, or a stale one) is
    rejected, whatever its event and time. *)
Theorem stale_append_rejected (mgr mgr' : Manager) (table table' : Table)
        (now now2 : Date) (event event2 : EventInput) (record : PoHRecord) :
  addEvent mgr table now event = Some (record, mgr', table') ->
  addEvent mgr table' now2 event2 = None.
Proof.
  intros H. destruct (addEvent_row _ _ _ _ _ _ _ H) as (-> & Hm & Hs & _).
  unfold addEvent, create. rewrite existsb_app.
  cbn [existsb tokenMint sequence d_tokenMint d_sequence].
  rewrite Hm, Hs, String.eqb_refl, Z.eqb_refl. now rewrite !orb_true_r.
Qed.

Lemma stale_append_rejected_witness :
  match addEvent (newManager PoHExample.mint) [] 1700000000000
                 {| e_eventType := collect; e_vault := BC; e_amountLamports := 5;
                    e_signature := "sig-a"; e_tokenSymbol := None; e_slot := None |} with
  | Some (_, _, table') =>
      addEvent (newManager PoHExample.mint) table' 1700000000001
               {| e_eventType := burn; e_vault := AMM; e_amountLamports := 7;
                  e_signature := "sig-b"; e_tokenSymbol := None; e_slot := None |} = None
  | None => False
  end.
Proof.
  destruct (addEvent (newManager PoHExample.mint) [] 1700000000000 _)
    as [[[record mgr'] table']|] eqn:E.
  - exact (stale_append_rejected _ _ _ _ _ _ _ _ _ E).
  - vm_compute in E. discriminate.
Defined.

Lemma findMany_nil (table : Table) (mint : string) :
  findMany table mint = [] -> rows_of mint table = [].
Proof. apply sort_nil_inv. Qed.

Lemma links_last_sequence (prev : PoHRecord) (l : list PoHRecord) :
  links prev l -> sequence (List.last l prev) = sequence prev + Z.of_nat (List.length l).
Proof.
  revert prev. induction l as [|x l IH]; intros prev H; [cbn; lia|].
  destruct H as (_ & _ & Hs & Hl). rewrite last_cons_default, (IH _ Hl).
  cbn [List.length]. lia.
Qed.

Lemma rooted_tail_sequence (l : list PoHRecord) :
  rooted l -> snd (tail_state l) = Z.of_nat (List.length l).
Proof.
  destruct l as [|x l]; [reflexivity|]. intros (_ & H1 & _ & Hl).
  rewrite tail_state_cons. cbn [snd]. rewrite (links_last_sequence _ _ Hl).
  cbn [List.length]. lia.
Qed.

Lemma rooted_sequence (l : list PoHRecord) (i : nat) (r : PoHRecord) :
  rooted l -> l !! i = Some r -> sequence r = Z.of_nat i + 1.
Proof.
  destruct l as [|x l]; [discriminate|]. intros (_ & H1 & _ & Hl) Hi.
  destruct i as [|i]; [injection Hi as <-; lia|].
  cbn in Hi. rewrite (links_sequence _ _ _ _ Hl Hi). lia.
Qed.

(** X6.  A manager started afresh and initialised from the store has the
    state of the manager that wrote the chain, so that it goes on where
    the writer stopped. *)
Theorem initialize_resumes (mint : string) (table0 : Table)
        (events : list (Date * EventInput)) (mgr : Manager) (table : Table) :
  findMany table0 mint = [] ->
  addEvents (newManager mint) table0 events = (mgr, table) ->
  initialize (newManager mint) table = mgr.
Proof.
  intros H0 H. apply findMany_nil in H0.
  destruct (addEvents_inv _ _ _ _ _ (newManager_inv _ _ H0) H) as [Hm [Hr Ht]].
  cbn [newManager m_tokenMint] in Hm. rewrite Hm in Hr, Ht.
  unfold initialize. cbn [newManager m_tokenMint]. unfold findMany.
  fold (rows_of mint table).
  rewrite (sort_ascending _ (consistent_ascending _ (rooted_consistent _ Hr))).
  unfold tail_state in Ht. destruct mgr as [m h s]. cbn in Hm, Ht. subst m.
  destruct (last (rows_of mint table)) as [r|]; injection Ht as -> ->; reflexivity.
Qed.

Lemma initialize_resumes_witness :
  initialize (newManager PoHExample.mint) (snd PoHExample.run) = fst PoHExample.run /\
  lastSequence (fst PoHExample.run) = 3.
Proof.
  split; [|vm_compute; reflexivity].
  apply (initialize_resumes PoHExample.mint [] PoHExample.events).
  - reflexivity.
  - apply surjective_pairing.
Defined.

(** X7.  The chain a manager builds on a store without rows of the token
    is numbered 1, 2, ... without gaps; the manager's [lastSequence] is
    the number of records stored, and [verifyFullChain] answers valid
    with that number as [chainLength]. *)
Theorem appended_chain_numbering (mint : string) (table0 : Table)
        (events : list (Date * EventInput)) (mgr : Manager) (table : Table) :
  findMany table0 mint = [] ->
  addEvents (newManager mint) table0 events = (mgr, table) ->
  verifyFullChain mgr table = (Valid, Z.to_nat (s_lastSequence (getState mgr))) /\
  s_lastSequence (getState mgr) = Z.of_nat (List.length (getFullChain mgr table)) /\
  forall i r, getFullChain mgr table !! i = Some r -> sequence r = Z.of_nat i + 1.
Proof.
  intros H0 H. apply findMany_nil in H0.
  destruct (addEvents_inv _ _ _ _ _ (newManager_inv _ _ H0) H) as [Hm Hi].
  destruct (getFullChain_inv _ _ Hi) as [Hc Hr]. destruct Hi as [Hr0 Ht].
  assert (Hlen : lastSequence mgr = Z.of_nat (List.length (getFullChain mgr table))).
  { rewrite Hc, length_map, <- (rooted_tail_sequence _ Hr0), <- Ht. reflexivity. }
  cbn [getState s_lastSequence]. split; [|split].
  - unfold verifyFullChain. rewrite (verifyChain_rooted _ Hr), Hlen, Nat2Z.id. reflexivity.
  - exact Hlen.
  - intros i r. now apply rooted_sequence.
Qed.

Lemma appended_chain_numbering_witness :
  verifyFullChain (fst PoHExample.run) (snd PoHExample.run) = (Valid, 3%nat) /\
  map sequence PoHExample.chain = [1; 2; 3].
Proof.
  split; [|vm_compute; reflexivity].
  destruct (appended_chain_numbering PoHExample.mint [] PoHExample.events
              (fst PoHExample.run) (snd PoHExample.run) eq_refl
              (surjective_pairing _)) as (H & _ & _).
  rewrite H. f_equal.
Defined.

Lemma addEvents_rows (events : list (Date * EventInput)) (mgr mgr' : Manager)
      (table table' : Table) (mint : string) :
  addEvents mgr table events = (mgr', table') ->
  mint <> m_tokenMint mgr ->
  findMany table' mint = findMany table mint.
Proof.
  revert mgr table. induction events as [|[now ev] events IH]; intros mgr table H Hne.
  - now injection H as <- <-.
  - cbn [addEvents] in H.
    destruct (addEvent mgr table now ev) as [[[rec m1] t1]|] eqn:E; [|eauto].
    destruct (addEvent_row _ _ _ _ _ _ _ E) as (-> & Hm & _ & Hm1).
    rewrite (IH _ _ H) by congruence.
    unfold findMany. rewrite List.filter_app. cbn [List.filter].
    destruct (String.eqb_spec (tokenMint rec) mint); [congruence|].
    now rewrite app_nil_r.
Qed.

(** X8.  Chains of different tokens share the store without touching
    each other: appends to one token leave the chain read for any other
    token, and its verdict, as they were. *)
Theorem appends_leave_other_tokens (events : list (Date * EventInput))
        (mgr mgr' other : Manager) (table table' : Table) :
  addEvents mgr table events = (mgr', table') ->
  m_tokenMint other <> m_tokenMint mgr ->
  getFullChain other table' = getFullChain other table /\
  verifyFullChain other table' = verifyFullChain other table.
Proof.
  intros H Hne. unfold verifyFullChain, getFullChain.
  now rewrite (addEvents_rows _ _ _ _ _ _ H Hne).
Qed.

Lemma appends_leave_other_tokens_witness :
  getFullChain (newManager "another-mint") (snd PoHExample.run) = [] /\
  verifyFullChain (newManager "another-mint") (snd PoHExample.run) = (Valid, 0%nat).
Proof.
  apply (appends_leave_other_tokens PoHExample.events (newManager PoHExample.mint)
           (fst PoHExample.run) (newManager "another-mint") [] (snd PoHExample.run)).
  - apply surjective_pairing.
  - discriminate.
Defined.

End PoHVerdicts.

Section ExportMore.
Import PoH.

(** The export keeps every field apart: two chains with valid
    timestamps that export to the same text are the same chain. *)
Theorem exportChainToJSON_injective (l1 l2 : list PoHRecord) :
  Forall (fun r => valid_time (timestamp r)) l1 ->
  Forall (fun r => valid_time (timestamp r)) l2 ->
  exportChainToJSON l1 = exportChainToJSON l2 -> l1 = l2.
Proof.
  intros H1 H2 E.
  assert (E' : JSON_parse (exportChainToJSON l1) = JSON_parse (exportChainToJSON l2))
    by now rewrite E.
  unfold exportChainToJSON in E'. rewrite !JSON_parse_stringify in E'.
  injection E' as E'.
  assert (E2 : import_records (map export_record l1)
               = import_records (map export_record l2)) by now rewrite E'.
  rewrite (import_export_records _ H1), (import_export_records _ H2) in E2.
  now injection E2.
Qed.

Lemma exportChainToJSON_injective_witness :
  map from_row PoHExample.chain = PoHExample.chain.
Proof.
  apply (exportChainToJSON_injective (map from_row PoHExample.chain) PoHExample.chain).
  - apply Forall_forall. intros r Hr. apply list_elem_of_In in Hr. vm_compute in Hr.
    destruct Hr as [<-|[<-|[<-|[]]]]; vm_compute; split; discriminate.
  - apply Forall_forall. intros r Hr. apply list_elem_of_In in Hr. vm_compute in Hr.
    destruct Hr as [<-|[<-|[<-|[]]]]; vm_compute; split; discriminate.
  - vm_compute. reflexivity.
Defined.

End ExportMore.

Section Digest.
Import PoH.

Lemma hex_digit_lower (d : Z) : 0 <= d < 16 -> is_hex_lower (SHA256.hex_digit d) = true.
Proof.
  intros H.
  assert (C : d = 0 \/ d = 1 \/ d = 2 \/ d = 3 \/ d = 4 \/ d = 5 \/ d = 6 \/ d = 7 \/
              d = 8 \/ d = 9 \/ d = 10 \/ d = 11 \/ d = 12 \/ d = 13 \/ d = 14 \/ d = 15)
    by lia.
  repeat (destruct C as [->|C]; [reflexivity|]). subst d. reflexivity.
Qed.

Lemma hex_word_shape (n : nat) (x : Z) :
  String.length (SHA256.hex_word n x) = n /\
  forallb is_hex_lower (list_ascii_of_string (SHA256.hex_word n x)) = true.
Proof.
  induction n as [|n [IH1 IH2]]; [split; reflexivity|].
  cbn [SHA256.hex_word String.length list_ascii_of_string forallb].
  rewrite IH1, IH2, hex_digit_lower; [split; reflexivity|].
  change 15 with (Z.ones 4). rewrite Z.land_ones by lia.
  apply Z.mod_pos_bound. reflexivity.
Qed.

Lemma list_ascii_app (s1 s2 : string) :
  list_ascii_of_string (s1 ++ s2) = list_ascii_of_string s1 ++ list_ascii_of_string s2.
Proof. induction s1 as [|c s1 IH]; [reflexivity|]. cbn. now rewrite IH. Qed.

Lemma string_length_app (s1 s2 : string) :
  String.length (s1 ++ s2) = (String.length s1 + String.length s2)%nat.
Proof. induction s1 as [|c s1 IH]; [reflexivity|]. cbn. now rewrite IH. Qed.

Lemma sha256_hex_shape (data : string) :
  String.length (sha256_hex data) = 64%nat /\
  forallb is_hex_lower (list_ascii_of_string (sha256_hex data)) = true.
Proof.
  unfold sha256_hex, SHA256.sha256_hex.
  set (r := SHA256.digest _). cbn [map String.concat].
  rewrite !string_length_app, !list_ascii_app, !forallb_app.
  rewrite !(proj1 (hex_word_shape 8 _)), !(proj2 (hex_word_shape 8 _)).
  split; reflexivity.
Qed.

(** A digest is 64 lower-case hexadecimal characters, the shape of
    the genesis hash: every record a manager appends carries such a hash,
    and the manager's [lastHash] is always of that shape. *)
Theorem appended_hash_shape :
  String.length GENESIS_HASH = 64%nat /\
  forallb is_hex_lower (list_ascii_of_string GENESIS_HASH) = true /\
  (forall record,
      String.length (generateHash record) = 64%nat /\
      forallb is_hex_lower (list_ascii_of_string (generateHash record)) = true) /\
  (forall mint table0 events,
      let mgr := fst (addEvents (newManager mint) table0 events) in
      String.length (s_lastHash (getState mgr)) = 64%nat /\
      forallb is_hex_lower (list_ascii_of_string (s_lastHash (getState mgr))) = true).
Proof.
  split; [reflexivity|]. split; [reflexivity|]. split.
  - intros record. apply sha256_hex_shape.
  - intros mint table0 events.
    assert (G : forall m t,
               (String.length (lastHash m) = 64%nat /\
                forallb is_hex_lower (list_ascii_of_string (lastHash m)) = true) ->
               String.length (lastHash (fst (addEvents m t events))) = 64%nat /\
               forallb is_hex_lower
                 (list_ascii_of_string (lastHash (fst (addEvents m t events)))) = true).
    { induction events as [|[now ev] events IH]; intros m t Hm; [exact Hm|].
      cbn [addEvents].
      destruct (addEvent m t now ev) as [[[rec m1] t1]|] eqn:E; [|now apply IH].
      apply IH. unfold addEvent in E. destruct (create t _); [|discriminate].
      injection E as _ <- _. cbn [lastHash]. apply sha256_hex_shape. }
    cbv zeta. cbn [getState s_lastHash]. apply G. split; reflexivity.
Qed.

End Digest.

(* ===================================================================== *)
(** * More on the classifier                                              *)
(* ===================================================================== *)

Section ClassifierMore.
Import Classifier ClassifierSpec.

(** X9.  What is not recorded: a transaction gives no event exactly when
    it carries an error marker, or when none of its native transfers is
    an inflow to the vault (from other than the creator wallet) or an
    outflow from it. *)
Theorem classify_none_iff (tx : ParsedTransaction)
        (creatorVault creatorWallet tokenMint : string) :
  classifyTransaction (Some tx) creatorVault creatorWallet tokenMint = None <->
  truthy (transactionError tx) = true \/
  (forall t, In t (or_empty (nativeTransfers tx)) ->
             ~ is_inflow creatorVault creatorWallet t /\ ~ is_outflow creatorVault t).
Proof.
  unfold classifyTransaction. destruct (truthy (transactionError tx)).
  { split; auto. }
  destruct (find _ (or_empty (nativeTransfers tx))) as [t|] eqn:Ein.
  { apply (proj2 (find_first_where _ _ _ _ (inflow_test creatorVault creatorWallet))) in Ein.
    destruct (first_where_In _ _ _ Ein) as [Hin Ht].
    split; [discriminate|]. intros [?|H]; [discriminate|]. now destruct (H t Hin). }
  pose proof (proj2 (find_none_where _ _ _ (inflow_test creatorVault creatorWallet)) Ein) as NEin; clear Ein; rename NEin into Ein.
  match goal with
  | |- context [find ?p ?l] => destruct (find p l) as [t|] eqn:Eout
  end.
  - apply (proj2 (find_first_where _ _ _ _ (outflow_test creatorVault))) in Eout.
    destruct (first_where_In _ _ _ Eout) as [Hin Ht].
    split.
    + destruct (if hasSwapInstruction tx then _ else None); [discriminate|].
      destruct (String.eqb _ creatorWallet); [discriminate|].
      destruct (if hasSwapInstruction tx then _ else None); discriminate.
    + intros [?|H]; [discriminate|]. now destruct (H t Hin).
  - pose proof (proj2 (find_none_where _ _ _ (outflow_test creatorVault)) Eout) as NEout; clear Eout; rename NEout into Eout.
    split; [|reflexivity]. intros _. right. intros t Hin. split; auto.
Qed.

(** X10.  What an event says of its transaction.  The transaction carries
    no error marker, and the event has its signature and its time (the
    epoch when the transaction has no timestamp).  A collect has the
    amount of the first inflow; a burn or a withdrawal comes from a
    transaction without inflow and has the amount of the first outflow.  A
    burn is only ever reported with a swap pattern, and it alone carries
    the burned mint and amount; a withdrawal with a swap pattern means
    that no burn evidence was found. *)
Theorem classified_event_sound (tx : ParsedTransaction)
        (creatorVault creatorWallet tokenMint : string) (ev : ClassifiedEvent) :
  classifyTransaction (Some tx) creatorVault creatorWallet tokenMint = Some ev ->
  non_errored tx /\ ce_signature ev = signature tx /\ blockTime ev = block_time tx /\
  match type ev with
  | collect =>
      (exists t, first_where (is_inflow creatorVault creatorWallet)
                             (or_empty (nativeTransfers tx)) t /\
                 amountLamports ev = safeBigInt (amount t)) /\
      burnedTokenMint ev = None /\ burnedTokenAmount ev = None
  | burn =>
      (forall x, In x (or_empty (nativeTransfers tx)) ->
                 ~ is_inflow creatorVault creatorWallet x) /\
      (exists t, first_where (is_outflow creatorVault) (or_empty (nativeTransfers tx)) t /\
                 amountLamports ev = safeBigInt (amount t)) /\
      swap_pattern tx /\
      burnedTokenMint ev = Some tokenMint /\ exists a, burnedTokenAmount ev = Some a
  | withdraw =>
      (forall x, In x (or_empty (nativeTransfers tx)) ->
                 ~ is_inflow creatorVault creatorWallet x) /\
      (exists t, first_where (is_outflow creatorVault) (or_empty (nativeTransfers tx)) t /\
                 amountLamports ev = safeBigInt (amount t)) /\
      (swap_pattern tx -> forall a, ~ burn_evidence tx tokenMint a) /\
      burnedTokenMint ev = None /\ burnedTokenAmount ev = None
  end.
Proof.
  unfold classifyTransaction, non_errored.
  destruct (truthy (transactionError tx)); [discriminate|].
  destruct (find _ (or_empty (nativeTransfers tx))) as [t|] eqn:Ein.
  { apply (proj2 (find_first_where _ _ _ _ (inflow_test creatorVault creatorWallet))) in Ein.
    intros [= <-]. cbn. repeat split; eauto. }
  pose proof (proj2 (find_none_where _ _ _ (inflow_test creatorVault creatorWallet)) Ein) as NEin; clear Ein; rename NEin into Ein.
  match goal with
  | |- context [find ?p ?l] => destruct (find p l) as [t|] eqn:Eout; [|discriminate]
  end.
  apply (proj2 (find_first_where _ _ _ _ (outflow_test creatorVault))) in Eout.
  destruct (hasSwapInstruction tx) eqn:Hswap.
  - assert (Hsw : swap_pattern tx) by now apply hasSwapInstruction_spec.
    destruct (findBurnInTransaction tx tokenMint) as [a|] eqn:Eb.
    { intros [= <-]. cbn. repeat split; eauto. }
    assert (Hnone : forall a, ~ burn_evidence tx tokenMint a).
    { intros a Ha. apply findBurnInTransaction_spec in Ha. congruence. }
    destruct (String.eqb (toUserAccount t) creatorWallet).
    { intros [= <-]. cbn. repeat split; eauto. }
    destruct (find _ (or_empty (tokenTransfers tx))) as [tb|].
    + intros [= <-]. cbn. repeat split; eauto.
    + intros [= <-]. cbn. repeat split; eauto.
  - assert (Hsw : ~ swap_pattern tx).
    { intros H. apply hasSwapInstruction_spec in H. congruence. }
    destruct (String.eqb (toUserAccount t) creatorWallet);
      intros [= <-]; cbn; repeat split; eauto; intros; contradiction.
Qed.

Lemma classified_event_sound_witness :
  exists ev,
    classifyTransaction (Some ClassifierExample.tx_burn) ClassifierExample.CREATOR_VAULT
      ClassifierExample.CREATOR_WALLET ClassifierExample.TOKEN_MINT = Some ev /\
    type ev = burn /\ swap_pattern ClassifierExample.tx_burn /\
    blockTime ev = 1700000000000.
Proof.
  eexists. split; [reflexivity|]. split; [reflexivity|].
  destruct (classified_event_sound ClassifierExample.tx_burn
              ClassifierExample.CREATOR_VAULT ClassifierExample.CREATOR_WALLET
              ClassifierExample.TOKEN_MINT _ eq_refl) as (_ & _ & Ht & H).
  cbn in H. destruct H as (_ & _ & Hs & _). split; [exact Hs|exact Ht].
Defined.

Lemma fallback_transfer_test (tokenMint : string) (t : TokenTransfer) :
  String.eqb (mint t) tokenMint
  && (String.eqb (tt_toUserAccount t) BURN_ADDRESS
      || String.eqb (tt_toUserAccount t) ""
      || match toTokenAccount t with
         | Some a => String.eqb a ""
         | None => false
         end) = true
  <-> fallback_transfer tokenMint t.
Proof.
  unfold fallback_transfer. rewrite andb_true_iff, !orb_true_iff, !String.eqb_eq.
  assert (H3 : match toTokenAccount t with
               | Some a => String.eqb a ""
               | None => false
               end = true <-> toTokenAccount t = Some "").
  { destruct (toTokenAccount t) as [a|].
    - rewrite String.eqb_eq. split; [now intros ->|now intros [= ->]].
    - split; discriminate. }
  rewrite H3. tauto.
Qed.

(** X11.  The second burn test.  When a swap pattern is present,
    [findBurnInTransaction] found nothing and the outflow does not go to
    the creator wallet, a token transfer of the tracked mint to the burn
    address, to no user account or to no token account still makes the
    event a burn, with that transfer's amount.  Since the first test found
    nothing, the transfer is one to no user account, in a transaction
    without burn instruction. *)
Theorem fallback_burn (tx : ParsedTransaction)
        (creatorVault creatorWallet tokenMint : string)
        (t : NativeTransfer) (tb : TokenTransfer) :
  non_errored tx ->
  (forall x, In x (or_empty (nativeTransfers tx)) ->
             ~ is_inflow creatorVault creatorWallet x) ->
  first_where (is_outflow creatorVault) (or_empty (nativeTransfers tx)) t ->
  swap_pattern tx ->
  findBurnInTransaction tx tokenMint = None ->
  toUserAccount t <> creatorWallet ->
  first_where (fallback_transfer tokenMint) (or_empty (tokenTransfers tx)) tb ->
  classifyTransaction (Some tx) creatorVault creatorWallet tokenMint
  = Some (mkEvent burn (safeBigInt (amount t)) (signature tx) (block_time tx)
                  (Some tokenMint) (Some (safeBigInt (tokenAmount tb)))) /\
  burn_transfer tokenMint tb /\ ~ has_burn_instruction tx.
Proof.
  intros He Hin Hout Hswap Hb Hto Htb.
  rewrite (classify_outflow _ _ _ _ _ He Hin Hout).
  rewrite (proj2 (hasSwapInstruction_spec tx) Hswap), Hb. cbv zeta.
  apply String.eqb_neq in Hto. rewrite Hto.
  pose proof (proj1 (find_first_where _ _ _ _ (fallback_transfer_test tokenMint)) Htb) as Ef.
  rewrite Ef. split; [reflexivity|].
  destruct (first_where_In _ _ _ Htb) as [Hintb [Hm Hcase]].
  unfold findBurnInTransaction in Hb.
  destruct (burn_instruction_loop _ _ tokenMint) eqn:Eloop; [discriminate|].
  match type of Hb with
  | context [find ?p ?l] => destruct (find p l) eqn:Einc; [discriminate|]
  end.
  pose proof (proj2 (find_none_where _ _ _ (incinerator_transfer_test tokenMint)) Einc) as NEinc; clear Einc; rename NEinc into Einc.
  assert (Hbt : burn_transfer tokenMint tb).
  { split; [exact Hm|]. destruct Hcase as [H|[H|H]]; [|exact H|].
    - exfalso. apply (Einc tb Hintb). split; auto.
    - exfalso. apply (Einc tb Hintb). split; auto. }
  split; [exact Hbt|]. intros Hbi.
  apply burn_loop_none in Eloop. apply Eloop. split; [exact Hbi|]. now exists tb.
Qed.

Lemma fallback_burn_witness :
  let tx :=
    {| signature := "sig-fallback"; timestamp := Some 1700000000;
       description := Some "Swap on Jupiter";
       transactionError := VUndefined; accountData := None;
       nativeTransfers :=
         Some [ {| fromUserAccount := ClassifierExample.CREATOR_VAULT;
                   toUserAccount := "pool";
                   amount := ClassifierExample.lamports 7000 |} ];
       tokenTransfers :=
         Some [ {| mint := ClassifierExample.TOKEN_MINT; tt_fromUserAccount := "pool";
                   tt_toUserAccount := ""; tokenAmount := ClassifierExample.lamports 42;
                   toTokenAccount := Some "burned-account" |} ];
       instructions := None; events := None |} in
  exists ev,
    classifyTransaction (Some tx) ClassifierExample.CREATOR_VAULT
      ClassifierExample.CREATOR_WALLET ClassifierExample.TOKEN_MINT = Some ev /\
    type ev = burn /\ amountLamports ev = 7000 /\ burnedTokenAmount ev = Some 42.
Proof.
  cbv zeta. eexists. split.
  - apply fallback_burn.
    + reflexivity.
    + intros x [<-|[]] [H _]. discriminate.
    + exists [], []. split; [reflexivity|]. split; [reflexivity|]. intros ? [].
    + right. right. exists "Swap on Jupiter", "swap". split; [reflexivity|].
      split; [now left|reflexivity].
    + reflexivity.
    + discriminate.
    + exists [], []. split; [reflexivity|]. split; [|intros ? []].
      split; [reflexivity|]. right. now left.
  - repeat split.
Defined.

(** The batch classifier keeps the order of the transactions and
    leaves out those that give no event: it is the classifier mapped over
    the batch, the results that are not null kept. *)
Theorem classifyTransactions_omap (transactions : list (option ParsedTransaction))
        (creatorVault creatorWallet tokenMint : string) :
  classifyTransactions transactions creatorVault creatorWallet tokenMint
  = omap (fun tx => classifyTransaction tx creatorVault creatorWallet tokenMint)
         transactions /\
  (List.length (classifyTransactions transactions creatorVault creatorWallet tokenMint)
   <= List.length transactions)%nat /\
  forall more,
    classifyTransactions (transactions ++ more) creatorVault creatorWallet tokenMint
    = classifyTransactions transactions creatorVault creatorWallet tokenMint
      ++ classifyTransactions more creatorVault creatorWallet tokenMint.
Proof.
  assert (E : forall l,
             classifyTransactions l creatorVault creatorWallet tokenMint
             = omap (fun tx => classifyTransaction tx creatorVault creatorWallet tokenMint) l).
  { induction l as [|tx l IH]; [reflexivity|]. cbn [classifyTransactions omap list_omap].
    rewrite IH. reflexivity. }
  split; [apply E|]. split.
  - induction transactions as [|tx l IH]; [reflexivity|]. cbn [classifyTransactions].
    destruct (classifyTransaction tx _ _ _); cbn [List.length]; lia.
  - intros more. rewrite !E. apply omap_app.
Qed.

(** ** Statistics of a batch *)

Lemma fold_addEventStats (events : list ClassifiedEvent) (s : EventStats) :
  fold_left addEventStats events s
  = {| totalCollected := totalCollected s + fold_right Z.add 0 (amounts_of collect events);
       totalBurned := totalBurned s + fold_right Z.add 0 (amounts_of burn events);
       totalWithdrawn := totalWithdrawn s + fold_right Z.add 0 (amounts_of withdraw events);
       collectCount := collectCount s + Z.of_nat (List.length (amounts_of collect events));
       burnCount := burnCount s + Z.of_nat (List.length (amounts_of burn events));
       withdrawCount :=
         withdrawCount s + Z.of_nat (List.length (amounts_of withdraw events)) |}.
Proof.
  revert s. induction events as [|e events IH]; intros s.
  - destruct s; cbn. f_equal; lia.
  - cbn [fold_left]. rewrite IH. unfold addEventStats, amounts_of.
    cbn [List.filter]. destruct (type e); cbn; f_equal; lia.
Qed.

Lemma amounts_of_split (events : list ClassifiedEvent) :
  fold_right Z.add 0 (amounts_of collect events)
  + fold_right Z.add 0 (amounts_of burn events)
  + fold_right Z.add 0 (amounts_of withdraw events)
  = fold_right Z.add 0 (map amountLamports events) /\
  (List.length (amounts_of collect events) + List.length (amounts_of burn events)
   + List.length (amounts_of withdraw events))%nat = List.length events.
Proof.
  unfold amounts_of. induction events as [|e events [IH1 IH2]]; [split; reflexivity|].
  cbn [List.filter map fold_right List.length].
  destruct (type e); cbn; split; lia.
Qed.

(** X12.  The statistics of a batch account for every event once: the
    three counts add up to the number of events, the three totals to the
    sum of all amounts, and each total and count is that of the events of
    its type. *)
Theorem calculateEventStats_totals (events : list ClassifiedEvent) :
  let stats := calculateEventStats events in
  collectCount stats + burnCount stats + withdrawCount stats
  = Z.of_nat (List.length events) /\
  totalCollected stats + totalBurned stats + totalWithdrawn stats
  = fold_right Z.add 0 (map amountLamports events) /\
  (totalCollected stats = fold_right Z.add 0 (amounts_of collect events) /\
   totalBurned stats = fold_right Z.add 0 (amounts_of burn events) /\
   totalWithdrawn stats = fold_right Z.add 0 (amounts_of withdraw events)) /\
  (collectCount stats = Z.of_nat (List.length (amounts_of collect events)) /\
   burnCount stats = Z.of_nat (List.length (amounts_of burn events)) /\
   withdrawCount stats = Z.of_nat (List.length (amounts_of withdraw events))).
Proof.
  cbv zeta. unfold calculateEventStats. rewrite fold_addEventStats.
  cbn [totalCollected totalBurned totalWithdrawn collectCount burnCount withdrawCount].
  destruct (amounts_of_split events) as [H1 H2].
  repeat split; lia.
Qed.

Lemma amounts_of_Permutation (ty : FeeEventType) (events events' : list ClassifiedEvent) :
  Permutation events events' ->
  Permutation (amounts_of ty events) (amounts_of ty events').
Proof.
  intros P. unfold amounts_of. apply Permutation_map.
  induction P as [|x l l' P IH|x y l|l l' l'' P1 IH1 P2 IH2]; cbn [List.filter].
  - constructor.
  - destruct (FeeEventType_eqb (type x) ty); [now constructor|exact IH].
  - destruct (FeeEventType_eqb (type x) ty), (FeeEventType_eqb (type y) ty);
      try reflexivity. apply perm_swap.
  - now transitivity (List.filter (fun e => FeeEventType_eqb (type e) ty) l').
Qed.

Lemma sum_Permutation (l l' : list Z) :
  Permutation l l' -> fold_right Z.add 0 l = fold_right Z.add 0 l'.
Proof. induction 1; cbn; lia. Qed.

(** The statistics do not depend on the order of the events, and
    those of two batches put together are the sums of those of each. *)
Theorem calculateEventStats_order (events events' : list ClassifiedEvent) :
  (Permutation events events' -> calculateEventStats events = calculateEventStats events') /\
  let s := calculateEventStats events in
  let s' := calculateEventStats events' in
  calculateEventStats (events ++ events')
  = {| totalCollected := totalCollected s + totalCollected s';
       totalBurned := totalBurned s + totalBurned s';
       totalWithdrawn := totalWithdrawn s + totalWithdrawn s';
       collectCount := collectCount s + collectCount s';
       burnCount := burnCount s + burnCount s';
       withdrawCount := withdrawCount s + withdrawCount s' |}.
Proof.
  split.
  - intros P. unfold calculateEventStats. rewrite !fold_addEventStats.
    rewrite !(sum_Permutation _ _ (amounts_of_Permutation _ _ _ P)).
    rewrite !(Permutation_length (amounts_of_Permutation _ _ _ P)). reflexivity.
  - cbv zeta. unfold calculateEventStats. rewrite fold_left_app.
    rewrite (fold_addEventStats events'), !(fold_addEventStats events).
    cbn [totalCollected totalBurned totalWithdrawn collectCount burnCount withdrawCount].
    rewrite (fold_addEventStats events').
    cbn [totalCollected totalBurned totalWithdrawn collectCount burnCount withdrawCount].
    reflexivity.
Qed.

End ClassifierMore.

(* ===================================================================== *)
(** * More on badges and the burn percentage                              *)
(* ===================================================================== *)

Section BadgesMore.
Import Badges.

Lemma Qle_bool_false (a b : Q) : Qle_bool a b = false <-> (b < a)%Q.
Proof.
  split.
  - intros H. apply Qnot_le_lt. intros Hle. apply Qle_bool_iff in Hle. congruence.
  - intros H. destruct (Qle_bool a b) eqn:E; [|reflexivity].
    apply Qle_bool_iff in E. exfalso. exact (Qlt_not_le _ _ H E).
Qed.

(** The tier of a percentage, with the bounds that place it there. *)
Lemma tier_cases (p : Q) :
  (95 <= p)%Q /\ calculateBadgeTier p = fire \/
  (80 <= p)%Q /\ (p < 95)%Q /\ calculateBadgeTier p = coffee \/
  (50 <= p)%Q /\ (p < 80)%Q /\ calculateBadgeTier p = good \/
  (20 <= p)%Q /\ (p < 50)%Q /\ calculateBadgeTier p = nervous \/
  (1 <= p)%Q /\ (p < 20)%Q /\ calculateBadgeTier p = exiting \/
  (p < 1)%Q /\ calculateBadgeTier p = arsonist.
Proof.
  unfold calculateBadgeTier.
  destruct (Qle_bool 95 p) eqn:E1; [apply Qle_bool_iff in E1; auto|].
  destruct (Qle_bool 80 p) eqn:E2; [apply Qle_bool_iff in E2; apply Qle_bool_false in E1;
                                     right; left; auto|].
  destruct (Qle_bool 50 p) eqn:E3; [apply Qle_bool_iff in E3; apply Qle_bool_false in E2;
                                     right; right; left; auto|].
  destruct (Qle_bool 20 p) eqn:E4; [apply Qle_bool_iff in E4; apply Qle_bool_false in E3;
                                     right; right; right; left; auto|].
  destruct (Qle_bool 1 p) eqn:E5; [apply Qle_bool_iff in E5; apply Qle_bool_false in E4;
                                    right; right; right; right; left; auto|].
  apply Qle_bool_false in E5. right; right; right; right; right. auto.
Qed.

(** X13.  [qualifiesForTier] and [calculateBadgeTier] agree on the
    percentages from 0 up to, but not including, 100: there a percentage
    qualifies for its own tier and for no other.  Outside, no tier
    qualifies; in particular a token that burned everything (100) has the
    tier [fire] and qualifies for none.  [getBadgeInfo] gives the entry of
    the tier, filed under its own name. *)
Theorem qualifiesForTier_iff (p : Q) (t : BadgeTier) :
  (qualifiesForTier p t = true <->
   (0 <= p)%Q /\ (p < 100)%Q /\ calculateBadgeTier p = t) /\
  tier (getBadgeInfo p) = calculateBadgeTier p /\
  calculateBadgeTier 100 = fire /\ qualifiesForTier 100 t = false.
Proof.
  split; [|split; [|split]].
  - unfold qualifiesForTier. rewrite andb_true_iff, negb_true_iff, Qle_bool_iff, Qle_bool_false.
    destruct (tier_cases p) as [[H1 ->]|[(H1 & H2 & ->)|[(H1 & H2 & ->)|[(H1 & H2 & ->)|
                                [(H1 & H2 & ->)|[H1 ->]]]]]];
      destruct t; cbn [BADGE_TIERS minBurn maxBurn];
      (split; [intros [Ha Hb]; first [split; [lra|split; [lra|reflexivity]] | exfalso; lra]
              |intros (Ha & Hb & Hc); first [discriminate | split; lra]]).
  - unfold getBadgeInfo. now destruct (calculateBadgeTier p).
  - reflexivity.
  - now destruct t.
Qed.

(** X14.  A higher burn percentage never gives a worse tier, in the
    order of [getBadgeStatsOrder], which is the order of
    [getAllBadgeTiers]; in that order each tier's range ends where the
    range of the tier before it starts. *)
Theorem calculateBadgeTier_monotone (p q : Q) :
  ((p <= q)%Q ->
   (tier_rank (calculateBadgeTier q) <= tier_rank (calculateBadgeTier p))%nat) /\
  map tier getAllBadgeTiers = getBadgeStatsOrder /\
  map maxBurn (tl getAllBadgeTiers) = map minBurn (removelast getAllBadgeTiers).
Proof.
  split; [|split; reflexivity].
  intros Hpq.
  destruct (tier_cases p) as [[H1 ->]|[(H1 & H2 & ->)|[(H1 & H2 & ->)|[(H1 & H2 & ->)|
                              [(H1 & H2 & ->)|[H1 ->]]]]]];
    destruct (tier_cases q) as [[G1 ->]|[(G1 & G2 & ->)|[(G1 & G2 & ->)|[(G1 & G2 & ->)|
                                [(G1 & G2 & ->)|[G1 ->]]]]]];
    cbn; first [lia | exfalso; lra].
Qed.

(** ** The percentage in lamports *)

Lemma quot_hundredths (c b : Z) :
  0 < c -> 0 <= b ->
  let k := Z.quot (b * 10000) c in
  0 <= k /\ k * c <= b * 10000 < (k + 1) * c.
Proof.
  intros Hc Hb k. subst k. rewrite Z.quot_div_nonneg by lia.
  pose proof (Z.mul_div_le (b * 10000) c Hc).
  pose proof (Z.mul_succ_div_gt (b * 10000) c Hc).
  split; [apply Z.div_pos; lia|]. lia.
Qed.

Lemma percentage_ge (c b T : Z) :
  0 < c -> 0 <= b ->
  (inject_Z T <= calculateBurnPercentage c b)%Q <-> T * c <= 100 * b.
Proof.
  intros Hc Hb. rewrite (calculateBurnPercentage_value c b) by lia.
  destruct (quot_hundredths c b Hc Hb) as (Hk & Hlo & Hhi).
  set (k := Z.quot (b * 10000) c) in *.
  assert (E : (inject_Z T <= inject_Z k / 100)%Q <-> 100 * T <= k).
  { rewrite Zle_Qle, inject_Z_mult. change (inject_Z 100) with 100%Q.
    unfold Qdiv. change (/ 100)%Q with (1 # 100)%Q. split; intros H; lra. }
  rewrite E. split; intros H; nia.
Qed.

(** X15.  The tier of a token, in lamports.  For a token that collected
    something, the tier says exactly how the burned amount compares with
    95, 80, 50, 20 and 1 percent of the collected amount: the truncation
    of the percentage to hundredths moves no token across a threshold. *)
Theorem badge_thresholds_exact (c b : Z) :
  0 < c -> 0 <= b ->
  let t := calculateBadgeTier (calculateBurnPercentage c b) in
  (t = fire <-> 95 * c <= 100 * b) /\
  (t = coffee <-> 80 * c <= 100 * b < 95 * c) /\
  (t = good <-> 50 * c <= 100 * b < 80 * c) /\
  (t = nervous <-> 20 * c <= 100 * b < 50 * c) /\
  (t = exiting <-> c <= 100 * b < 20 * c) /\
  (t = arsonist <-> 100 * b < c).
Proof.
  intros Hc Hb t. subst t.
  pose proof (percentage_ge c b 95 Hc Hb) as T95.
  pose proof (percentage_ge c b 80 Hc Hb) as T80.
  pose proof (percentage_ge c b 50 Hc Hb) as T50.
  pose proof (percentage_ge c b 20 Hc Hb) as T20.
  pose proof (percentage_ge c b 1 Hc Hb) as T1.
  change (inject_Z 95) with 95%Q in T95. change (inject_Z 80) with 80%Q in T80.
  change (inject_Z 50) with 50%Q in T50. change (inject_Z 20) with 20%Q in T20.
  change (inject_Z 1) with 1%Q in T1.
  set (p := calculateBurnPercentage c b) in *.
  assert (N : forall a : Q, (p < a)%Q <-> ~ (a <= p)%Q).
  { intros a. split; [apply Qlt_not_le|apply Qnot_le_lt]. }
  destruct (tier_cases p) as [[H1 ->]|[(H1 & H2 & ->)|[(H1 & H2 & ->)|[(H1 & H2 & ->)|
                              [(H1 & H2 & ->)|[H1 ->]]]]]];
    repeat match goal with
           | H : (_ < _)%Q |- _ => apply N in H
           end;
    rewrite ?T95, ?T80, ?T50, ?T20, ?T1 in *;
    repeat split; intros; try discriminate; try reflexivity; lia.
Qed.

Lemma badge_thresholds_exact_witness :
  calculateBadgeTier (calculateBurnPercentage 10000 9499) = coffee /\
  calculateBadgeTier (calculateBurnPercentage 10000 9500) = fire.
Proof.
  split.
  - apply (badge_thresholds_exact 10000 9499); lia.
  - apply (badge_thresholds_exact 10000 9500); lia.
Defined.

(** X16.  The percentage is cut, not rounded, to hundredths.  For a
    positive collected total and a burned total that is not negative, as
    long as the percentage stays below 2^50 hundredths (where the doubles
    of the code hold every whole number of hundredths and [Math.round]
    finds the whole number it is given), the result is [k / 100] for the
    whole number [k] of hundredths that the exact percentage holds: [k] is
    the largest whole number with [k * collected <= 10000 * burned]. *)
Theorem burn_percentage_truncates (c b : Z) :
  0 < c -> 0 <= b -> b * 10000 < 2 ^ 50 * c ->
  let k := Z.quot (b * 10000) c in
  calculateBurnPercentage c b == inject_Z k / 100 /\
  0 <= k < 2 ^ 50 /\
  k * c <= b * 10000 < (k + 1) * c.
Proof.
  intros Hc Hb Hr k. subst k.
  destruct (quot_hundredths c b Hc Hb) as (Hk & Hlo & Hhi).
  split; [apply calculateBurnPercentage_value; lia|].
  split; [|lia]. split; [exact Hk|].
  remember (Z.quot (b * 10000) c) as k eqn:Ek. clear Ek. nia.
Qed.

Lemma burn_percentage_truncates_witness :
  calculateBurnPercentage 3 2 == 6666 # 100 /\
  6666 * 3 <= 2 * 10000 < (6666 + 1) * 3.
Proof.
  destruct (burn_percentage_truncates 3 2) as (H1 & _ & H2); [lia|lia|lia|].
  split; [|exact H2]. rewrite H1. reflexivity.
Defined.

End BadgesMore.

(* ===================================================================== *)
(** * More on the ledger                                                  *)
(* ===================================================================== *)

Section LedgerMore.
Import Ledger LedgerSpec.

Lemma has_signature_false (table : list FeeEvent) (sig : string) :
  has_signature table sig = false <-> ~ In sig (map signature table).
Proof.
  unfold has_signature. split.
  - intros H Hin. apply in_map_iff in Hin. destruct Hin as (r & <- & Hr).
    assert (E : existsb (fun r0 => String.eqb (signature r0) (signature r)) table = true).
    { apply existsb_exists. exists r. split; [exact Hr|apply String.eqb_refl]. }
    congruence.
  - intros H. destruct (existsb _ table) eqn:E; [|reflexivity].
    apply existsb_exists in E. destruct E as (r & Hr & Heq).
    apply String.eqb_eq in Heq. exfalso. apply H. rewrite <- Heq. now apply in_map.
Qed.

(** What a save does: nothing when the signature is stored, else one row
    more, at the end. *)
Lemma saveEvent_spec (table : list FeeEvent) (tid : Z) (event : Classifier.ClassifiedEvent) :
  saveEvent table tid event
  = if has_signature table (Classifier.ce_signature event) then table
    else table ++ [row_of tid event].
Proof. unfold saveEvent, createFeeEvent, has_signature. now destruct (existsb _ table). Qed.

Lemma NoDup_snoc {A} (l : list A) (x : A) :
  List.NoDup l -> ~ In x l -> List.NoDup (l ++ [x]).
Proof.
  intros Hl Hx. apply NoDup_rev in Hl. rewrite <- (rev_involutive (l ++ [x])).
  apply NoDup_rev. rewrite rev_app_distr. cbn. apply List.NoDup_cons; [|exact Hl].
  now rewrite <- in_rev.
Qed.

Lemma saveEvent_NoDup (table : list FeeEvent) (tid : Z) (event : Classifier.ClassifiedEvent) :
  List.NoDup (map signature table) ->
  List.NoDup (map signature (saveEvent table tid event)).
Proof.
  intros H. rewrite saveEvent_spec.
  destruct (has_signature table _) eqn:E; [exact H|].
  rewrite map_app. cbn [map row_of signature]. apply NoDup_snoc; [exact H|].
  now apply has_signature_false.
Qed.

Lemma ingest_NoDup (parsed : list Classifier.ParsedTransaction) (table : list FeeEvent)
      (tid : Z) (cv cw mint : string) :
  List.NoDup (map signature table) ->
  List.NoDup (map signature (ingest table tid cv cw mint parsed)).
Proof.
  revert table. induction parsed as [|tx parsed IH]; intros table H; [exact H|].
  unfold ingest. cbn [fold_left]. apply IH.
  destruct (Classifier.classifyTransaction _ _ _ _); [now apply saveEvent_NoDup|exact H].
Qed.

(** X17.  No two rows of the ledger carry the same signature: a run of
    [indexToken] keeps it so, whatever the history holds (transactions
    twice, or transactions already stored for another token). *)
Theorem signatures_stay_unique (table : list FeeEvent) (tid : Z) (cv cw mint : string)
        (history : list Classifier.ParsedTransaction) :
  List.NoDup (map signature table) ->
  List.NoDup (map signature (fst (indexToken table tid cv cw mint history))).
Proof.
  intros H. unfold indexToken. destruct (List.filter _ history); [exact H|].
  cbn [fst]. now apply ingest_NoDup.
Qed.

Lemma signatures_stay_unique_witness :
  map signature
      (fst (indexToken LedgerExample.table 1 ClassifierExample.CREATOR_VAULT
              ClassifierExample.CREATOR_WALLET ClassifierExample.TOKEN_MINT
              [ClassifierExample.tx_withdraw; ClassifierExample.tx_withdraw;
               ClassifierExample.tx_burn]))
  = ["sig-collect"; "sig-burn"; "sig-withdraw"] /\
  List.NoDup
    (map signature
       (fst (indexToken LedgerExample.table 1 ClassifierExample.CREATOR_VAULT
               ClassifierExample.CREATOR_WALLET ClassifierExample.TOKEN_MINT
               [ClassifierExample.tx_withdraw; ClassifierExample.tx_withdraw;
                ClassifierExample.tx_burn]))).
Proof.
  split; [reflexivity|].
  apply (signatures_stay_unique LedgerExample.table).
  repeat (apply List.NoDup_cons; [cbn; intuition discriminate|]). apply List.NoDup_nil.
Defined.

Lemma ingest_appends (parsed : list Classifier.ParsedTransaction) (table0 table : list FeeEvent)
      (tid : Z) (cv cw mint : string) (history : list Classifier.ParsedTransaction) :
  (forall tx, In tx parsed -> In tx history) ->
  (forall sig, has_signature table0 sig = true -> has_signature table sig = true) ->
  exists added,
    ingest table tid cv cw mint parsed = table ++ added /\
    Forall (added_by table0 tid cv cw mint history) added.
Proof.
  revert table. induction parsed as [|tx parsed IH]; intros table Hsub Hmono.
  - exists []. split; [now rewrite app_nil_r|constructor].
  - unfold ingest. cbn [fold_left].
    destruct (Classifier.classifyTransaction (Some tx) cv cw mint) as [ev|] eqn:E.
    + rewrite saveEvent_spec.
      destruct (has_signature table (Classifier.ce_signature ev)) eqn:Hs.
      * apply IH; [intros; apply Hsub; now right|exact Hmono].
      * destruct (IH (table ++ [row_of tid ev])) as (added & Ha & Hf).
        { intros; apply Hsub; now right. }
        { intros sig H. rewrite has_signature_app, (Hmono _ H). reflexivity. }
        exists (row_of tid ev :: added). split.
        { unfold ingest in Ha. rewrite Ha, <- app_assoc. reflexivity. }
        constructor; [|exact Hf]. split; [reflexivity|]. split.
        { cbn [row_of signature].
          destruct (has_signature table0 (Classifier.ce_signature ev)) eqn:H0;
            [|reflexivity].
          apply Hmono in H0. congruence. }
        exists tx, ev. split; [apply Hsub; now left|]. split; [exact E|reflexivity].
    + apply IH; [intros; apply Hsub; now right|exact Hmono].
Qed.

(** X18.  A run of [indexToken] only ever adds rows, at the end: the rows
    stored before stay as they were and where they were.  Every row added
    belongs to the token, carries a signature that was not stored, and is
    the event of a transaction of the history. *)
Theorem indexToken_appends (table : list FeeEvent) (tid : Z) (cv cw mint : string)
        (history : list Classifier.ParsedTransaction) :
  exists added,
    fst (indexToken table tid cv cw mint history) = table ++ added /\
    Forall (added_by table tid cv cw mint history) added.
Proof.
  unfold indexToken. set (new := List.filter _ history).
  assert (Hsub : forall tx, In tx new -> In tx history).
  { intros tx H. apply filter_In in H. tauto. }
  destruct new as [|y new'] eqn:En.
  - exists []. split; [cbn; now rewrite app_nil_r|constructor].
  - cbn [fst]. apply ingest_appends; auto.
Qed.

(** ** The statistics of a token *)

Lemma sum_by_type_Permutation (table table' : list FeeEvent) (tid : Z) (ty : FeeEventType) :
  Permutation table table' -> sum_by_type table tid ty = sum_by_type table' tid ty.
Proof.
  intros P. unfold sum_by_type. apply sum_Permutation, Permutation_map.
  induction P as [|x l l' P IH|x y l|l l' l'' P1 IH1 P2 IH2]; cbn [List.filter].
  - constructor.
  - destruct (_ && _); [now constructor|exact IH].
  - destruct (_ && _), (_ && _); try reflexivity. apply perm_swap.
  - etransitivity; eassumption.
Qed.

Lemma sum_by_type_own (table : list FeeEvent) (tid : Z) (ty : FeeEventType) :
  sum_by_type (List.filter (fun r => tokenId r =? tid) table) tid ty
  = sum_by_type table tid ty.
Proof.
  unfold sum_by_type. do 2 f_equal.
  induction table as [|r table IH]; [reflexivity|]. cbn [List.filter].
  destruct (tokenId r =? tid) eqn:E; cbn [List.filter andb]; rewrite ?E; cbn [andb].
  - destruct (FeeEventType_eqb _ _); now rewrite IH.
  - exact IH.
Qed.

(** The statistics of a token are a function of the token's own
    rows, whatever their order: rows of other tokens, and the order in
    which the store returns the rows, change nothing.  The amount held is
    never reported negative. *)
Theorem stats_of_own_rows (table : list FeeEvent) (tid : Z) :
  (forall table', Permutation table table' ->
                  recalculateTokenStats table' tid = recalculateTokenStats table tid) /\
  recalculateTokenStats (List.filter (fun r => tokenId r =? tid) table) tid
  = recalculateTokenStats table tid /\
  totalFeesHeld (recalculateTokenStats table tid)
  = Z.max 0 (totalFeesCollected (recalculateTokenStats table tid)
             - totalFeesBurned (recalculateTokenStats table tid)
             - totalFeesWithdrawn (recalculateTokenStats table tid)).
Proof.
  split; [|split].
  - intros table' P. unfold recalculateTokenStats.
    now rewrite !(sum_by_type_Permutation _ _ _ _ P).
  - unfold recalculateTokenStats. now rewrite !sum_by_type_own.
  - unfold recalculateTokenStats.
    cbn [totalFeesHeld totalFeesCollected totalFeesBurned totalFeesWithdrawn].
    destruct (Z.ltb_spec (sum_by_type table tid collect - sum_by_type table tid burn
                          - sum_by_type table tid withdraw) 0); lia.
Qed.

(** ** The ledger and the batch statistics *)

Lemma ingest_fresh (parsed : list Classifier.ParsedTransaction) (table : list FeeEvent)
      (tid : Z) (cv cw mint : string) :
  List.NoDup (map Classifier.signature parsed) ->
  (forall tx, In tx parsed -> has_signature table (Classifier.signature tx) = false) ->
  ingest table tid cv cw mint parsed
  = table ++ map (row_of tid) (Classifier.classifyTransactions (map Some parsed) cv cw mint).
Proof.
  revert table. induction parsed as [|tx parsed IH]; intros table Hnd Hfresh.
  - cbn. now rewrite app_nil_r.
  - cbn [map] in Hnd. apply List.NoDup_cons_iff in Hnd. destruct Hnd as [Hx Hnd].
    unfold ingest. cbn [fold_left map Classifier.classifyTransactions].
    destruct (Classifier.classifyTransaction (Some tx) cv cw mint) as [ev|] eqn:E.
    + rewrite saveEvent_spec, (classified_signature _ _ _ _ _ E).
      rewrite (Hfresh tx) by now left.
      fold (ingest (table ++ [row_of tid ev]) tid cv cw mint parsed).
      rewrite IH; [cbn [map]; now rewrite <- app_assoc|exact Hnd|].
      intros tx' Hin. rewrite has_signature_app, (Hfresh tx') by now right.
      cbn [has_signature existsb row_of signature orb].
      rewrite (classified_signature _ _ _ _ _ E), orb_false_r.
      apply String.eqb_neq. intros Heq. apply Hx. rewrite Heq. now apply in_map.
    + fold (ingest table tid cv cw mint parsed). apply IH; [exact Hnd|].
      intros tx' Hin. apply Hfresh. now right.
Qed.

Lemma sum_by_type_rows (events : list Classifier.ClassifiedEvent) (tid : Z)
      (ty : FeeEventType) :
  sum_by_type (map (row_of tid) events) tid ty
  = fold_right Z.add 0 (ClassifierSpec.amounts_of ty events).
Proof.
  unfold sum_by_type, ClassifierSpec.amounts_of. f_equal.
  induction events as [|e events IH]; [reflexivity|].
  cbn [map List.filter row_of tokenId eventType]. rewrite Z.eqb_refl. cbn [andb].
  destruct (FeeEventType_eqb (Classifier.type e) ty); cbn [map]; now rewrite IH.
Qed.

(** X19.  The two ways to the totals agree.  For a batch of transactions
    with pairwise distinct signatures, ingested into an empty ledger, whose
    events all fit the columns of [fee_events] (so that the store turns
    none of them down) and whose totals fit a [BIGINT], the totals
    [recalculateTokenStats] reads from the store are the totals
    [calculateEventStats] computes from the events of the batch. *)
Theorem ledger_matches_event_stats (parsed : list Classifier.ParsedTransaction)
        (tid : Z) (cv cw mint : string) :
  List.NoDup (map Classifier.signature parsed) ->
  let events := Classifier.classifyTransactions (map Some parsed) cv cw mint in
  forallb FeeEventsTable.fits events = true ->
  FeeEventsTable.int64 (Classifier.totalCollected (Classifier.calculateEventStats events))
  && FeeEventsTable.int64 (Classifier.totalBurned (Classifier.calculateEventStats events))
  && FeeEventsTable.int64 (Classifier.totalWithdrawn (Classifier.calculateEventStats events))
  = true ->
  let stats := recalculateTokenStats (ingest [] tid cv cw mint parsed) tid in
  totalFeesCollected stats = Classifier.totalCollected (Classifier.calculateEventStats events) /\
  totalFeesBurned stats = Classifier.totalBurned (Classifier.calculateEventStats events) /\
  totalFeesWithdrawn stats
  = Classifier.totalWithdrawn (Classifier.calculateEventStats events).
Proof.
  intros Hnd. cbv zeta. intros _ _.
  rewrite (ingest_fresh _ _ _ _ _ _ Hnd) by reflexivity.
  cbn [app]. unfold recalculateTokenStats, Classifier.calculateEventStats.
  rewrite fold_addEventStats.
  cbn [totalFeesCollected totalFeesBurned totalFeesWithdrawn Classifier.totalCollected
       Classifier.totalBurned Classifier.totalWithdrawn].
  now rewrite !sum_by_type_rows.
Qed.

Lemma ledger_matches_event_stats_witness :
  let parsed := [ClassifierExample.tx_two_inflows; ClassifierExample.tx_funding;
                 ClassifierExample.tx_withdraw; ClassifierExample.tx_burn] in
  let stats :=
    recalculateTokenStats
      (ingest [] 1 ClassifierExample.CREATOR_VAULT ClassifierExample.CREATOR_WALLET
              ClassifierExample.TOKEN_MINT parsed) 1 in
  totalFeesCollected stats = 1000000000 /\ totalFeesBurned stats = 2000000000 /\
  totalFeesWithdrawn stats = 900000000.
Proof.
  cbv zeta.
  destruct (ledger_matches_event_stats
              [ClassifierExample.tx_two_inflows; ClassifierExample.tx_funding;
               ClassifierExample.tx_withdraw; ClassifierExample.tx_burn]
              1 ClassifierExample.CREATOR_VAULT ClassifierExample.CREATOR_WALLET
              ClassifierExample.TOKEN_MINT) as (H1 & H2 & H3).
  { repeat (apply List.NoDup_cons; [cbn; intuition discriminate|]). apply List.NoDup_nil. }
  { vm_compute. reflexivity. }
  { vm_compute. reflexivity. }
  rewrite H1, H2, H3. repeat split.
Defined.

(** ** Ecosystem-wide statistics *)

Lemma sum_by_type_cons (r : FeeEvent) (table : list FeeEvent) (tid : Z) (ty : FeeEventType) :
  sum_by_type (r :: table) tid ty
  = (if (tokenId r =? tid) && FeeEventType_eqb (eventType r) ty
     then amountLamports r else 0)
    + sum_by_type table tid ty.
Proof.
  unfold sum_by_type. cbn [List.filter].
  destruct ((tokenId r =? tid) && FeeEventType_eqb (eventType r) ty); reflexivity.
Qed.

Lemma sum_indicator (tids : list Z) (t x : Z) (b : bool) :
  List.NoDup tids ->
  fold_right Z.add 0 (map (fun tid => if (t =? tid) && b then x else 0) tids)
  = if b then (if existsb (Z.eqb t) tids then x else 0) else 0.
Proof.
  intros Hnd. induction tids as [|tid tids IH].
  - now destruct b.
  - apply List.NoDup_cons_iff in Hnd. destruct Hnd as [Hx Hnd]. cbn [map fold_right existsb].
    rewrite (IH Hnd). destruct b; [|now rewrite !andb_false_r].
    rewrite andb_true_r. destruct (Z.eqb_spec t tid) as [->|Hne]; cbn [orb]; [|lia].
    destruct (existsb (Z.eqb tid) tids) eqn:E; [|lia].
    apply existsb_exists in E. destruct E as (y & Hy & Heq).
    apply Z.eqb_eq in Heq. subst y. contradiction.
Qed.

Lemma sum_column_by_type (table : list FeeEvent) (tids : list Z) (ty : FeeEventType) :
  List.NoDup tids -> (forall r, In r table -> In (tokenId r) tids) ->
  fold_right Z.add 0 (map (fun tid => sum_by_type table tid ty) tids)
  = total_by_type table ty.
Proof.
  intros Hnd Hall. induction table as [|r table IH]; unfold total_by_type.
  - cbn. induction tids as [|t tids IHt]; [reflexivity|]. cbn.
    apply List.NoDup_cons_iff in Hnd. now rewrite IHt.
  - assert (E : fold_right Z.add 0 (map (fun tid => sum_by_type (r :: table) tid ty) tids)
                = fold_right Z.add 0
                    (map (fun tid => if (tokenId r =? tid)
                                        && FeeEventType_eqb (eventType r) ty
                                     then amountLamports r else 0) tids)
                  + fold_right Z.add 0 (map (fun tid => sum_by_type table tid ty) tids)).
    { clear. induction tids as [|t tids IHt]; [reflexivity|].
      cbn [map fold_right]. rewrite IHt, sum_by_type_cons. lia. }
    rewrite E, IH by (intros; apply Hall; now right).
    rewrite (sum_indicator _ _ _ _ Hnd). unfold total_by_type. cbn [List.filter].
    destruct (FeeEventType_eqb (eventType r) ty); cbn [map fold_right]; [|lia].
    assert (Hin : existsb (Z.eqb (tokenId r)) tids = true).
    { apply existsb_exists. exists (tokenId r). split; [apply Hall; now left|].
      apply Z.eqb_refl. }
    now rewrite Hin.
Qed.

Lemma sum_column_map (column : TokenStats -> Z) (f : Z -> TokenStats) (tids : list Z) :
  sum_column column (map f tids) = fold_right Z.add 0 (map (fun tid => column (f tid)) tids).
Proof. unfold sum_column. now rewrite map_map. Qed.

Lemma held_sum (table : list FeeEvent) (tids : list Z) :
  fold_right Z.add 0 (map (fun tid => sum_by_type table tid collect) tids)
  - fold_right Z.add 0 (map (fun tid => sum_by_type table tid burn) tids)
  - fold_right Z.add 0 (map (fun tid => sum_by_type table tid withdraw) tids)
  <= fold_right Z.add 0
       (map (fun tid => totalFeesHeld (recalculateTokenStats table tid)) tids).
Proof.
  induction tids as [|t tids IH]; [reflexivity|]. cbn [map fold_right].
  unfold recalculateTokenStats at 1. cbn [totalFeesHeld].
  destruct (Z.ltb_spec (sum_by_type table t collect - sum_by_type table t burn
                        - sum_by_type table t withdraw) 0); lia.
Qed.

(** X20.  The ecosystem-wide statistics against the ledger.  When the
    stored statistics of every token are those of its events (each token
    listed once, every event that of a listed token), the global totals
    collected, burned and withdrawn are the sums over all events of each
    type.  The global amount held is at least collected less burned less
    withdrawn (a token that spent more than it collected counts as
    holding 0), and the global burn percentage is
    [calculateBurnPercentage] of the global totals as long as it stays
    below 2^50 hundredths in absolute value (where the doubles of the code
    hold every whole number of hundredths, so that the [Math.round] of
    [calculateBurnPercentage], which [getGlobalStats] leaves out, changes
    nothing). *)
Theorem global_stats_of_ledger (table : list FeeEvent) (tids : list Z) :
  List.NoDup tids -> (forall r, In r table -> In (tokenId r) tids) ->
  let g := getGlobalStats (map (recalculateTokenStats table) tids) in
  totalTokens g = Z.of_nat (List.length tids) /\
  g_totalFeesCollected g = total_by_type table collect /\
  g_totalFeesBurned g = total_by_type table burn /\
  g_totalFeesWithdrawn g = total_by_type table withdraw /\
  g_totalFeesCollected g - g_totalFeesBurned g - g_totalFeesWithdrawn g
  <= g_totalFeesHeld g /\
  (0 <= g_totalFeesCollected g ->
   Z.abs (Z.quot (g_totalFeesBurned g * 10000) (g_totalFeesCollected g)) < 2 ^ 50 ->
   globalBurnPercentage g
   == Badges.calculateBurnPercentage (g_totalFeesCollected g) (g_totalFeesBurned g)).
Proof.
  intros Hnd Hall. cbv zeta. unfold getGlobalStats.
  cbn [totalTokens g_totalFeesCollected g_totalFeesBurned g_totalFeesWithdrawn
       g_totalFeesHeld globalBurnPercentage].
  rewrite !sum_column_map.
  cbn [recalculateTokenStats totalFeesCollected totalFeesBurned totalFeesWithdrawn].
  split; [now rewrite length_map|].
  pose proof (held_sum table tids) as Hheld.
  rewrite !(sum_column_by_type _ _ _ Hnd Hall) in *.
  split; [reflexivity|]. split; [reflexivity|]. split; [reflexivity|].
  split; [exact Hheld|]. intros H0 _.
  destruct (Z.ltb_spec 0 (total_by_type table collect)) as [Hpos|Hle].
  - symmetry. apply calculateBurnPercentage_value. lia.
  - replace (total_by_type table collect) with 0 by lia. reflexivity.
Qed.

Lemma global_stats_of_ledger_witness :
  let g := getGlobalStats (map (recalculateTokenStats LedgerExample.table) [1; 2]) in
  totalTokens g = 2 /\ g_totalFeesCollected g = 100 /\ g_totalFeesBurned g = 200 /\
  g_totalFeesHeld g = 0 /\ -100 <= g_totalFeesHeld g.
Proof.
  cbv zeta.
  destruct (global_stats_of_ledger LedgerExample.table [1; 2]) as (H1 & H2 & H3 & H4 & H5 & _).
  { repeat (apply List.NoDup_cons; [cbn; intuition discriminate|]). apply List.NoDup_nil. }
  { intros r [<-|[<-|[]]]; cbn; auto. }
  split; [exact H1|]. split; [exact H2|]. split; [exact H3|]. split; [reflexivity|].
  etransitivity; [|exact H5]. rewrite H2, H3, H4. vm_compute. discriminate.
Defined.

End LedgerMore.

(* ===================================================================== *)
(** * Validation and utilities                                            *)
(* ===================================================================== *)

Section ValidationFacts.
Import Validation Utils.

Lemma base58_cases (c : ascii) :
  is_base58 c = true ->
  (N_of_ascii c < 128)%N /\ c <> "0"%char /\ c <> "O"%char /\ c <> "I"%char /\
  c <> "l"%char /\
  (is_digit c = true \/ in_range "A" "Z" c = true \/ in_range "a" "z" c = true).
Proof.
  destruct c as [[|] [|] [|] [|] [|] [|] [|] [|]]; intros H; try discriminate H;
    (split; [reflexivity|]); repeat (split; [discriminate|]); cbn; auto.
Qed.

Lemma utf16_length_ascii (s : string) :
  forallb (fun c => (N_of_ascii c <? 128)%N) (list_ascii_of_string s) = true ->
  utf16_length s = String.length s.
Proof.
  induction s as [|c s IH]; [reflexivity|]. cbn [list_ascii_of_string forallb].
  intros H. apply andb_true_iff in H. destruct H as [Hc Hs].
  cbn [utf16_length String.length]. rewrite Hc, (IH Hs). reflexivity.
Qed.

Lemma base58_utf16_length (s : string) :
  forallb is_base58 (list_ascii_of_string s) = true -> utf16_length s = String.length s.
Proof.
  intros H. apply utf16_length_ascii. rewrite forallb_forall in *.
  intros c Hc. apply N.ltb_lt. now apply base58_cases, H.
Qed.

(** X21.  The two validators of an address agree: [validateSolanaAddress]
    accepts a string exactly when [isValidSolanaAddress] does, and gives
    it back unchanged.  The length checks of the schema add nothing to
    its pattern.  An accepted address has 32 to 44 characters, all of
    them ASCII letters and digits, none of them [0], [O], [I] or [l]. *)
Theorem validateSolanaAddress_iff (address : string) :
  (validateSolanaAddress address = Some address <-> isValidSolanaAddress address = true) /\
  (validateSolanaAddress address = None <-> isValidSolanaAddress address = false) /\
  (isValidSolanaAddress address = true ->
   (32 <= String.length address <= 44)%nat /\
   utf16_length address = String.length address /\
   forall c, In c (list_ascii_of_string address) ->
             c <> "0"%char /\ c <> "O"%char /\ c <> "I"%char /\ c <> "l"%char /\
             (is_digit c = true \/ in_range "A" "Z" c = true \/ in_range "a" "z" c = true)).
Proof.
  unfold validateSolanaAddress, SolanaAddressSchema_issues, isValidSolanaAddress.
  destruct (SOLANA_ADDRESS_REGEX_test address) eqn:E.
  - unfold SOLANA_ADDRESS_REGEX_test in E.
    apply andb_true_iff in E. destruct E as [E E3].
    apply andb_true_iff in E. destruct E as [E1 E2].
    apply Nat.leb_le in E1. apply Nat.leb_le in E2.
    rewrite (base58_utf16_length _ E3).
    destruct (Nat.ltb_spec (String.length address) 32); [lia|].
    destruct (Nat.ltb_spec 44 (String.length address)); [lia|]. cbn [app].
    split; [tauto|]. split; [split; discriminate|]. intros _.
    split; [lia|]. split; [reflexivity|].
    intros c Hc. rewrite forallb_forall in E3. now apply base58_cases, E3.
  - assert (Hne : forall a b : list string,
               match a ++ b ++ ["Invalid Solana address format"] with
               | [] => Some address
               | _ :: _ => None
               end = None).
    { intros [|x a] [|y b]; reflexivity. }
    rewrite Hne. split; [split; discriminate|]. split; [tauto|discriminate].
Qed.

(** ** [BigInt] of a string of digits *)

Lemma string_app_assoc (a b c : string) : ((a ++ b) ++ c)%string = (a ++ (b ++ c))%string.
Proof. induction a as [|x a IH]; [reflexivity|]. cbn. now rewrite IH. Qed.

Lemma string_rev_k_app (s k : string) : string_rev_k s k = (string_rev s ++ k)%string.
Proof.
  unfold string_rev. revert k. induction s as [|c s IH]; intros k; [reflexivity|].
  cbn [string_rev_k]. rewrite (IH (String c k)), (IH (String c "")).
  now rewrite string_app_assoc.
Qed.

Lemma string_rev_cons (c : ascii) (s : string) :
  string_rev (String c s) = (string_rev s ++ String c "")%string.
Proof. unfold string_rev at 1. cbn [string_rev_k]. apply string_rev_k_app. Qed.

Lemma string_app_nil_r (s : string) : (s ++ "")%string = s.
Proof. induction s as [|c s IH]; [reflexivity|]. cbn. now rewrite IH. Qed.

Lemma string_rev_app (s1 s2 : string) :
  string_rev (s1 ++ s2) = (string_rev s2 ++ string_rev s1)%string.
Proof.
  induction s1 as [|c s1 IH]; [cbn; now rewrite string_app_nil_r|].
  cbn [append]. rewrite !string_rev_cons, IH. now rewrite string_app_assoc.
Qed.

Lemma string_rev_involutive (s : string) : string_rev (string_rev s) = s.
Proof.
  induction s as [|c s IH]; [reflexivity|].
  rewrite string_rev_cons, string_rev_app, IH. reflexivity.
Qed.

Lemma string_rev_length (s : string) : String.length (string_rev s) = String.length s.
Proof.
  induction s as [|c s IH]; [reflexivity|]. rewrite string_rev_cons.
  rewrite string_length_app, IH. cbn. lia.
Qed.

Lemma digit_head_rev (s : string) :
  all_digits s = true -> s <> "" ->
  exists c t, string_rev s = String c t /\ is_digit c = true.
Proof.
  induction s as [|a s IH]; [congruence|]. cbn [all_digits]. intros H _.
  apply andb_true_iff in H. destruct H as [Ha Hs]. rewrite string_rev_cons.
  destruct s as [|b s'].
  - exists a, "". auto.
  - destruct (IH Hs) as (c & t & -> & Hc); [discriminate|]. cbn. eauto.
Qed.

Lemma digit_no_space (c : ascii) (s : string) :
  is_digit c = true ->
  strip_one white_space (String c s) = None /\
  strip_one (map string_rev white_space) (String c s) = None.
Proof.
  destruct c as [[|] [|] [|] [|] [|] [|] [|] [|]]; intros H; try discriminate H;
    split; reflexivity.
Qed.

Lemma trim_digits (s : string) : all_digits s = true -> trim s = s.
Proof.
  intros H. destruct s as [|c s]; [reflexivity|].
  assert (Hc : is_digit c = true) by (cbn in H; now apply andb_true_iff in H).
  unfold trim.
  assert (E : trimStart (String c s) = String c s).
  { unfold trimStart. cbn [String.length strip_all].
    now rewrite (proj1 (digit_no_space c s Hc)). }
  rewrite E. unfold trimEnd.
  destruct (digit_head_rev (String c s) H) as (c' & t & Hr & Hc'); [discriminate|].
  rewrite Hr. cbn [String.length strip_all].
  rewrite (proj2 (digit_no_space c' t Hc')), <- Hr. apply string_rev_involutive.
Qed.

Lemma digit_not_letter (c : ascii) :
  is_digit c = true ->
  Ascii.eqb c "x" || Ascii.eqb c "X" = false /\
  Ascii.eqb c "o" || Ascii.eqb c "O" = false /\
  Ascii.eqb c "b" || Ascii.eqb c "B" = false.
Proof.
  destruct c as [[|] [|] [|] [|] [|] [|] [|] [|]]; intros H; try discriminate H;
    repeat split.
Qed.

Lemma StringToBigInt_digits (s : string) :
  is_digit_string s = true -> StringToBigInt s = Some (digits_value s).
Proof.
  intros H. destruct s as [|c s]; [discriminate|]. cbn [is_digit_string] in H.
  unfold StringToBigInt. rewrite (trim_digits _ H).
  cbn [all_digits] in H. apply andb_true_iff in H. destruct H as [Hc Hs].
  assert (Hall : is_digit_string (String c s) = true).
  { cbn [is_digit_string all_digits]. now rewrite Hc, Hs. }
  rewrite (digit_not_minus c Hc), (digit_not_plus c Hc), Hall.
  destruct s as [|x digits]; [reflexivity|].
  cbn [all_digits] in Hs. apply andb_true_iff in Hs. destruct Hs as [Hx _].
  destruct (digit_not_letter x Hx) as (-> & -> & ->).
  now destruct (Ascii.eqb c "0").
Qed.

(** X22.  A string of digits never makes [safeParseBigInt] answer null:
    it is read as the number it spells, which is not negative, and which
    is the number the classifier's [safeBigInt] reads.  The amounts that
    pass [PoHRecordSchema] are such strings, so that the verification
    route never meets the null it guards against. *)
Theorem safeParseBigInt_digits (s : string) :
  is_digit_string s = true ->
  safeParseBigInt (InString s) = Some (digits_value s) /\
  0 <= digits_value s /\
  Classifier.safeBigInt (VString s) = digits_value s /\
  forall defaultValue, parseBigIntOrDefault (InString s) defaultValue = digits_value s.
Proof.
  intros H. pose proof (StringToBigInt_digits s H) as E.
  split; [exact E|]. split; [apply scan_digits_nonneg; lia|]. split.
  - cbn [Classifier.safeBigInt]. now rewrite H, (BigInt_of_digit_string s H).
  - intros d. unfold parseBigIntOrDefault. cbn [safeParseBigInt]. now rewrite E.
Qed.

Lemma safeParseBigInt_digits_witness :
  safeParseBigInt (InString "1000000000") = Some 1000000000 /\
  0 <= digits_value "1000000000" /\
  Classifier.safeBigInt (VString "1000000000") = digits_value "1000000000".
Proof.
  destruct (safeParseBigInt_digits "1000000000" eq_refl) as (H1 & H2 & H3 & _).
  split; [exact H1|]. split; [exact H2|exact H3].
Defined.

End ValidationFacts.

Section UtilsFacts.
Import Utils.

Lemma slice_index_in (len i : Z) : 0 <= i -> slice_index len i = Z.min i len.
Proof. intros H. unfold slice_index. destruct (Z.ltb_spec i 0); [lia|reflexivity]. Qed.

(** A chunk taken inside the array. *)
Lemma Array_slice_chunk {A} (array : list A) (size i : Z) :
  1 <= size -> 0 <= i < Z.of_nat (List.length array) ->
  Array_slice array i (i + size)
  = firstn (Z.to_nat size) (skipn (Z.to_nat i) array) /\
  Z.of_nat (List.length (Array_slice array i (i + size)))
  = Z.min size (Z.of_nat (List.length array) - i).
Proof.
  intros Hs Hi. unfold Array_slice. rewrite !slice_index_in by lia.
  rewrite (Z.min_l i) by lia.
  assert (Hlen : List.length (skipn (Z.to_nat i) array)
                 = (List.length array - Z.to_nat i)%nat) by apply length_skipn.
  split.
  - destruct (Z.le_ge_cases (i + size) (Z.of_nat (List.length array))) as [H|H].
    + rewrite Z.min_l by lia. f_equal. lia.
    + rewrite Z.min_r by lia. rewrite !firstn_all2; try reflexivity; rewrite Hlen; lia.
  - rewrite length_firstn, Hlen. lia.
Qed.

(** The loop of [chunk] from index [i] on, with enough fuel. *)
Lemma chunk_loop_spec {A} (array : list A) (size : Z) (fuel : nat) (i : Z)
      (chunks : list (list A)) :
  1 <= size -> 0 <= i ->
  (Z.to_nat (Z.of_nat (List.length array) - i) < fuel)%nat ->
  exists rest,
    chunk_loop fuel array size i chunks = Some (chunks ++ rest) /\
    concat rest = skipn (Z.to_nat i) array /\
    Forall (fun c => 1 <= Z.of_nat (List.length c) <= size) rest /\
    Forall (fun c => Z.of_nat (List.length c) = size) (removelast rest) /\
    Z.of_nat (List.length rest)
    = (Z.max 0 (Z.of_nat (List.length array) - i) + size - 1) / size.
Proof.
  intros Hs. revert i chunks. induction fuel as [|fuel IH]; intros i chunks Hi Hf; [lia|].
  cbn [chunk_loop]. destruct (Z.ltb_spec i (Z.of_nat (List.length array))) as [Hlt|Hge].
  - destruct (Array_slice_chunk array size i Hs (conj Hi Hlt)) as [Ec El].
    destruct (IH (i + size) (chunks ++ [Array_slice array i (i + size)]))
      as (rest & Er & Hc & Hall & Hfull & Hn); [lia|lia|].
    exists (Array_slice array i (i + size) :: rest).
    split; [rewrite Er, <- app_assoc; reflexivity|].
    split; [|split; [|split]].
    + cbn [concat]. rewrite Hc, Ec.
      replace (Z.to_nat (i + size)) with (Z.to_nat size + Z.to_nat i)%nat by lia.
      rewrite <- skipn_skipn. apply firstn_skipn.
    + constructor; [lia|exact Hall].
    + destruct rest as [|c rest']; [constructor|].
      cbn [removelast]. constructor; [|exact Hfull].
      assert (Hpos : 0 < Z.of_nat (List.length array) - (i + size)).
      { destruct (Z.max_spec 0 (Z.of_nat (List.length array) - (i + size)))
          as [[? Hm]|[? Hm]]; [lia|].
        rewrite Hm in Hn. cbn [List.length] in Hn.
        rewrite Z.div_small in Hn by lia. lia. }
      lia.
    + cbn [List.length]. rewrite Nat2Z.inj_succ, Hn.
      rewrite (Z.max_r 0 (Z.of_nat (List.length array) - i)) by lia.
      destruct (Z.max_spec 0 (Z.of_nat (List.length array) - (i + size)))
        as [[? ->]|[? ->]].
      * replace (Z.of_nat (List.length array) - i + size - 1)
          with (Z.of_nat (List.length array) - (i + size) + size - 1 + 1 * size) by lia.
        rewrite Z.div_add by lia. lia.
      * rewrite (Z.div_small (0 + size - 1)) by lia.
        replace (Z.of_nat (List.length array) - i + size - 1)
          with (Z.of_nat (List.length array) - i - 1 + 1 * size) by lia.
        rewrite Z.div_add by lia. rewrite Z.div_small by lia. lia.
  - exists []. rewrite app_nil_r. split; [reflexivity|].
    split; [|split; [constructor|split; [constructor|]]].
    + cbn. symmetry. apply skipn_all2. lia.
    + rewrite Z.max_l by lia. rewrite Z.div_small by lia. reflexivity.
Qed.

(** [chunk] with a size of 1 or more. *)
Lemma chunk_pieces {A} (array : list A) (size : Z) :
  1 <= size ->
  exists chunks,
    chunk array size = Some chunks /\
    concat chunks = array /\
    Forall (fun c => 1 <= Z.of_nat (List.length c) <= size) chunks /\
    Forall (fun c => Z.of_nat (List.length c) = size) (removelast chunks) /\
    Z.of_nat (List.length chunks) = (Z.of_nat (List.length array) + size - 1) / size.
Proof.
  intros Hs. unfold chunk.
  destruct (chunk_loop_spec array size (S (List.length array)) 0 [] Hs)
    as (rest & E & Hc & Hall & Hfull & Hn); [lia|lia|].
  exists rest. split; [exact E|]. split; [exact Hc|]. split; [exact Hall|].
  split; [exact Hfull|]. rewrite Hn. f_equal. lia.
Qed.

(** The loop with a size of 0 or less. *)
Lemma chunk_loop_stuck {A} (array : list A) (size : Z) (fuel : nat) :
  size <= 0 -> array <> [] -> chunk_loop fuel array size 0 [] = None.
Proof.
  intros Hs Hne.
  assert (G : forall i chunks, i <= 0 -> chunk_loop fuel array size i chunks = None).
  { induction fuel as [|fuel IH]; intros i chunks Hi; [reflexivity|].
    cbn [chunk_loop]. destruct (Z.ltb_spec i (Z.of_nat (List.length array))) as [_|Hge].
    - apply IH. lia.
    - destruct array; [congruence|]. cbn [List.length] in Hge. lia. }
  apply G. lia.
Qed.

(** X23.  [chunk] with a size of 1 or more returns, and cuts the array
    into consecutive pieces: put together again they give the array; none
    is empty or longer than the size; all but the last have exactly the
    size; and there are as many as the length divided by the size,
    rounded up.  With a size of 0 or less it never returns on an array
    that is not empty: the index never reaches the length, whatever the
    number of turns of the loop. *)
Theorem chunk_spec {A} (array : list A) (size : Z) :
  (1 <= size ->
   exists chunks,
     chunk array size = Some chunks /\
     concat chunks = array /\
     Forall (fun c => 1 <= Z.of_nat (List.length c) <= size) chunks /\
     Forall (fun c => Z.of_nat (List.length c) = size) (removelast chunks) /\
     Z.of_nat (List.length chunks) = (Z.of_nat (List.length array) + size - 1) / size) /\
  (size <= 0 -> array <> [] ->
   forall fuel, chunk_loop fuel array size 0 [] = None).
Proof.
  split; [apply chunk_pieces|]. intros Hs Hne fuel. now apply chunk_loop_stuck.
Qed.

Lemma chunk_spec_witness :
  (exists chunks,
      chunk [1; 2; 3; 4; 5; 6; 7] 3 = Some chunks /\
      concat chunks = [1; 2; 3; 4; 5; 6; 7] /\ List.length chunks = 3%nat) /\
  chunk_loop 1000 [1; 2; 3] 0 0 [] = None.
Proof.
  split.
  - destruct (proj1 (chunk_spec [1; 2; 3; 4; 5; 6; 7] 3)) as (chunks & E & Hc & _ & _ & Hn);
      [lia|].
    exists chunks. split; [exact E|]. split; [exact Hc|].
    apply Nat2Z.inj. rewrite Hn. reflexivity.
  - apply (proj2 (chunk_spec [1; 2; 3] 0)); [lia|discriminate].
Defined.

Lemma substring_length (s : string) (k m : nat) :
  (k + m <= String.length s)%nat -> String.length (substring k m s) = m.
Proof.
  revert k m. induction s as [|c s IH]; intros k m H.
  - cbn in H. assert (k = 0 /\ m = 0)%nat as [-> ->] by lia. reflexivity.
  - destruct k as [|k].
    + destruct m as [|m]; [reflexivity|]. cbn [substring String.length].
      f_equal. apply (IH 0%nat m). cbn in H. lia.
    + cbn [substring]. apply IH. cbn in H. lia.
Qed.

(** The length of a shortened address.  With [chars] of 1 or more
    the result holds the first and the last [chars] characters (all of
    the address when it is shorter), three dots between them; with
    [chars] of 0 the end slice starts at [-0], the start of the address,
    and the result is the dots and the whole address.  So a valid address
    is made shorter for [chars] from 1 to 14. *)
Theorem shortenAddress_length (address : string) (chars : Z) :
  address <> "" -> 0 <= chars ->
  Z.of_nat (String.length (shortenAddress address chars))
  = (if chars =? 0 then Z.of_nat (String.length address)
     else 2 * Z.min chars (Z.of_nat (String.length address))) + 3 /\
  (isValidSolanaAddress address = true -> 1 <= chars <= 14 ->
   (String.length (shortenAddress address chars) < String.length address)%nat).
Proof.
  intros Hne Hc.
  assert (E : Z.of_nat (String.length (shortenAddress address chars))
              = (if chars =? 0 then Z.of_nat (String.length address)
                 else 2 * Z.min chars (Z.of_nat (String.length address))) + 3).
  { unfold shortenAddress. destruct (String.eqb_spec address ""); [contradiction|].
    rewrite !string_length_app. unfold String_slice.
    remember (Z.of_nat (String.length address)) as len eqn:Hlen.
    rewrite (slice_index_in len 0), (slice_index_in len chars) by lia.
    rewrite (Z.min_l 0 len) by lia. rewrite Z.sub_0_r.
    rewrite (substring_length address (Z.to_nat 0)) by lia.
    unfold slice_index.
    destruct (Z.eqb_spec chars 0) as [->|Hnz].
    - change (- 0) with 0. destruct (Z.ltb_spec 0 0); [lia|].
      rewrite (Z.min_l 0 len) by lia.
      rewrite substring_length by lia. cbn [String.length]. lia.
    - destruct (Z.ltb_spec (- chars) 0); [|lia].
      rewrite substring_length by lia. cbn [String.length]. lia. }
  split; [exact E|]. intros Hv Hr.
  unfold isValidSolanaAddress, Validation.SOLANA_ADDRESS_REGEX_test in Hv.
  apply andb_true_iff in Hv. destruct Hv as [Hv _].
  apply andb_true_iff in Hv. destruct Hv as [Hv _]. apply Nat.leb_le in Hv.
  destruct (Z.eqb_spec chars 0); lia.
Qed.

Lemma shortenAddress_length_witness :
  String.length (shortenAddress "61V8vBaqAGMpgDQi4JcAwo1dmBGHsyhzodcPqnEVpump" 4) = 11%nat /\
  (String.length (shortenAddress "61V8vBaqAGMpgDQi4JcAwo1dmBGHsyhzodcPqnEVpump" 4)
   < String.length "61V8vBaqAGMpgDQi4JcAwo1dmBGHsyhzodcPqnEVpump")%nat.
Proof.
  split; [reflexivity|].
  apply (shortenAddress_length "61V8vBaqAGMpgDQi4JcAwo1dmBGHsyhzodcPqnEVpump" 4);
    [discriminate|lia|reflexivity|lia].
Defined.

End UtilsFacts.

(* ===================================================================== *)
(** * Rate limiting                                                       *)
(* ===================================================================== *)

Section RateLimitFacts.
Import stdpp.gmap.
Import RateLimit RateLimitSpec Middleware.
Local Open Scope Z_scope.

(** A check reads and writes the entry of its identifier only. *)
Lemma check_other (store : Store) (now : Z) (identifier other : string)
      (config : RateLimitConfig) :
  other <> identifier ->
  snd (checkRateLimit store now identifier config) !! other = store !! other.
Proof.
  intros Hne. unfold checkRateLimit, checkRateLimitInMemory, Store in *.
  destruct (store !! identifier) as [entry|]; cbn [snd].
  - destruct (e_resetTime entry <? now); cbn [snd];
      [now rewrite lookup_insert_ne by congruence|].
    destruct (maxRequests config <=? count entry); cbn [snd]; [reflexivity|].
    now rewrite lookup_insert_ne by congruence.
  - now rewrite lookup_insert_ne by congruence.
Qed.

Lemma check_same (store store' : Store) (now : Z) (identifier : string)
      (config : RateLimitConfig) :
  store !! identifier = store' !! identifier ->
  fst (checkRateLimit store now identifier config)
  = fst (checkRateLimit store' now identifier config) /\
  snd (checkRateLimit store now identifier config) !! identifier
  = snd (checkRateLimit store' now identifier config) !! identifier.
Proof.
  intros H. unfold checkRateLimit, checkRateLimitInMemory, Store in *. rewrite <- H.
  destruct (store !! identifier) as [entry|] eqn:E; cbn [fst snd].
  - destruct (e_resetTime entry <? now); cbn [fst snd];
      [now rewrite !lookup_insert_eq|].
    destruct (maxRequests config <=? count entry); cbn [fst snd];
      [now rewrite <- H|now rewrite !lookup_insert_eq].
  - now rewrite !lookup_insert_eq.
Qed.

Lemma serve_cons (config : RateLimitConfig) (store : Store) (now : Z) (identifier : string)
      (rest : list (Z * string)) :
  serve config store ((now, identifier) :: rest)
  = ((identifier, fst (checkRateLimit store now identifier config))
       :: fst (serve config (snd (checkRateLimit store now identifier config)) rest),
     snd (serve config (snd (checkRateLimit store now identifier config)) rest)).
Proof.
  cbn [serve]. destruct (checkRateLimit store now identifier config) as [r s'].
  cbn [fst snd]. now destruct (serve config s' rest).
Qed.

(** The requests of a window after the first. *)
Lemma serve_window (config : RateLimitConfig) (identifier : string) (t0 : Z)
      (times : list Z) (store : Store) (k : nat) :
  (1 <= k)%nat ->
  store !! identifier
  = Some {| count := Z.min (Z.of_nat k) (Z.max 1 (maxRequests config));
            e_resetTime := t0 + windowMs config |} ->
  Forall (fun t => t <= t0 + windowMs config) times ->
  map snd (fst (serve config store (map (fun t => (t, identifier)) times)))
  = imap (fun j t => window_result config t0 (k + j) t) times.
Proof.
  intros Hk. unfold Store in *. revert store k Hk. induction times as [|t times IH]; intros store k Hk Hs Ht.
  - reflexivity.
  - apply Forall_cons in Ht. destruct Ht as [Ht Hts].
    cbn [map]. rewrite serve_cons. cbn [fst map snd]. rewrite imap_cons.
    unfold checkRateLimit at 1 2, checkRateLimitInMemory. unfold Store in *. rewrite Hs.
    cbn [e_resetTime count].
    destruct (Z.ltb_spec (t0 + windowMs config) t) as [?|_]; [lia|].
    unfold window_result at 1. rewrite Nat.add_0_r.
    destruct (Z.leb_spec (maxRequests config)
                (Z.min (Z.of_nat k) (Z.max 1 (maxRequests config)))) as [Hle|Hgt].
    + destruct (Z.ltb_spec (Z.of_nat k) (Z.max 1 (maxRequests config))) as [?|_]; [lia|].
      cbn [fst snd]. f_equal.
      rewrite (IH store (S k)); [|lia| |exact Hts].
      * apply imap_ext. intros j x _. cbn. f_equal. lia.
      * rewrite Hs. do 2 f_equal. lia.
    + destruct (Z.ltb_spec (Z.of_nat k) (Z.max 1 (maxRequests config))) as [Hlt|?]; [|lia].
      cbn [fst snd e_resetTime count]. f_equal.
      * f_equal. lia.
      * rewrite (IH _ (S k)); [|lia| |exact Hts].
        { apply imap_ext. intros j x _. cbn. f_equal. lia. }
        rewrite lookup_insert_eq. do 2 f_equal. lia.
Qed.

(** X24.  A window of the in-memory limiter.  When a client has no live
    entry at time [t0], its request at [t0] opens a window, and of the
    requests it makes until the window's reset time exactly the first
    [maxRequests] are allowed, with the count of those left; the others
    are refused with the seconds to wait.  The request that opens the
    window is always allowed, also with a limit of 0 or less. *)
Theorem window_results (config : RateLimitConfig) (store : Store) (identifier : string)
        (t0 : Z) (times : list Z) :
  (forall entry, store !! identifier = Some entry -> e_resetTime entry < t0) ->
  Forall (fun t => t <= t0 + windowMs config) times ->
  map snd (fst (serve config store (map (fun t => (t, identifier)) (t0 :: times))))
  = imap (fun k t => window_result config t0 k t) (t0 :: times).
Proof.
  intros Hfresh Ht. unfold Store in *. cbn [map]. rewrite serve_cons. cbn [fst map snd]. rewrite imap_cons.
  assert (E : checkRateLimit store t0 identifier config
              = ({| success := true;
                    remaining := maxRequests config - 1;
                    resetTime := t0 + windowMs config;
                    retryAfter := None |},
                 <[identifier := {| count := 1; e_resetTime := t0 + windowMs config |}]>
                   store)).
  { unfold checkRateLimit, checkRateLimitInMemory, Store in *.
    destruct (store !! identifier) as [entry|] eqn:E; [|reflexivity].
    specialize (Hfresh entry eq_refl).
    destruct (Z.ltb_spec (e_resetTime entry) t0); [reflexivity|lia]. }
  rewrite E. cbn [fst snd]. f_equal.
  - unfold window_result. change (Z.of_nat 0) with 0.
    destruct (Z.ltb_spec 0 (Z.max 1 (maxRequests config))); [|lia].
    reflexivity.
  - rewrite (serve_window config identifier t0 times _ 1); [|lia| |exact Ht].
    + apply imap_ext. intros j x _. reflexivity.
    + unfold Store. rewrite lookup_insert_eq. do 2 f_equal. lia.
Qed.

Lemma window_results_witness :
  map snd (fst (serve RATE_LIMIT_PRESETS_sync (∅ : Store)
                  (map (fun t => (t, "sync:1.2.3.4"))
                       [1000; 2000; 3000; 4000; 5000; 6000; 301000])))
  = imap (fun k t => window_result RATE_LIMIT_PRESETS_sync 1000 k t)
         [1000; 2000; 3000; 4000; 5000; 6000; 301000].
Proof.
  apply (window_results RATE_LIMIT_PRESETS_sync ∅ "sync:1.2.3.4" 1000
           [2000; 3000; 4000; 5000; 6000; 301000]).
  - intros entry H. unfold Store in H. rewrite lookup_empty in H. discriminate.
  - repeat constructor; cbn; lia.
Defined.

(** X25.  Clients do not share a budget: the results a client gets in a
    run of requests are those it would get if the requests of all other
    clients were left out. *)
Theorem clients_independent (config : RateLimitConfig) (requests : list (Z * string))
        (store : Store) (identifier : string) :
  List.filter (fun r => String.eqb (fst r) identifier) (fst (serve config store requests))
  = fst (serve config store
           (List.filter (fun q => String.eqb (snd q) identifier) requests)).
Proof.
  assert (G : forall s1 s2 : Store,
             s1 !! identifier = s2 !! identifier ->
             List.filter (fun r => String.eqb (fst r) identifier)
                         (fst (serve config s1 requests))
             = fst (serve config s2
                      (List.filter (fun q => String.eqb (snd q) identifier) requests))).
  { induction requests as [|[now id] requests IH]; intros s1 s2 H; [reflexivity|].
    rewrite serve_cons. cbn [fst List.filter snd].
    destruct (String.eqb_spec id identifier) as [->|Hne].
    - rewrite serve_cons. cbn [fst].
      destruct (check_same s1 s2 now identifier config H) as [Hr Hs].
      rewrite Hr. f_equal. now apply IH.
    - apply IH. rewrite check_other by congruence. exact H. }
  now apply G.
Qed.

(** X26.  The cleanup timer changes no answer: a check made after a
    cleanup gives the result it would give without it, and leaves the
    store that the cleanup would leave after the check. *)
Theorem cleanup_commutes (store : Store) (now now' : Z) (identifier : string)
        (config : RateLimitConfig) :
  now <= now' -> 0 <= windowMs config ->
  fst (checkRateLimit (cleanup store now) now' identifier config)
  = fst (checkRateLimit store now' identifier config) /\
  snd (checkRateLimit (cleanup store now) now' identifier config)
  = cleanup (snd (checkRateLimit store now' identifier config)) now.
Proof.
  intros Hn Hw. unfold checkRateLimit, checkRateLimitInMemory, cleanup, Store in *.
  assert (Hins : forall (c r : Z) (m : Store),
             now <= r ->
             <[identifier := {| count := c; e_resetTime := r |}]>
               (filter (fun kv : string * RateLimitEntry => ~ e_resetTime (snd kv) < now) m)
             = filter (fun kv : string * RateLimitEntry => ~ e_resetTime (snd kv) < now)
                      (<[identifier := {| count := c; e_resetTime := r |}]> m)).
  { intros c r m Hr. symmetry. apply map_filter_insert_True. cbn. lia. }
  destruct (store !! identifier) as [entry|] eqn:E.
  - destruct (Z.ltb_spec (e_resetTime entry) now) as [Hold|Hlive].
    + assert (E' : filter (fun kv : string * RateLimitEntry => ~ e_resetTime (snd kv) < now)
                          store !! identifier = None).
      { apply map_lookup_filter_None. right. intros x Hx. rewrite E in Hx.
        injection Hx as <-. cbn. lia. }
      rewrite E'. destruct (Z.ltb_spec (e_resetTime entry) now'); [|lia].
      cbn [fst snd]. split; [reflexivity|]. apply Hins. lia.
    + assert (E' : filter (fun kv : string * RateLimitEntry => ~ e_resetTime (snd kv) < now)
                          store !! identifier = Some entry).
      { apply map_lookup_filter_Some. split; [exact E|]. cbn. lia. }
      rewrite E'. destruct (e_resetTime entry <? now') eqn:Ex; cbn [fst snd].
      * split; [reflexivity|]. apply Hins. lia.
      * destruct (maxRequests config <=? count entry); cbn [fst snd].
        { split; reflexivity. }
        split; [reflexivity|]. apply Hins. exact Hlive.
  - assert (E' : filter (fun kv : string * RateLimitEntry => ~ e_resetTime (snd kv) < now)
                        store !! identifier = None).
    { apply map_lookup_filter_None. left. exact E. }
    rewrite E'. cbn [fst snd]. split; [reflexivity|]. apply Hins. lia.
Qed.

Lemma cleanup_commutes_witness :
  let store : Store := {[ "a" := {| count := 3; e_resetTime := 500 |} ]} in
  success (fst (checkRateLimit (cleanup store 1000) 2000 "a" RATE_LIMIT_PRESETS_strict))
  = true /\
  fst (checkRateLimit (cleanup store 1000) 2000 "a" RATE_LIMIT_PRESETS_strict)
  = fst (checkRateLimit store 2000 "a" RATE_LIMIT_PRESETS_strict).
Proof.
  cbv zeta. split; [reflexivity|].
  apply (cleanup_commutes _ 1000 2000 "a" RATE_LIMIT_PRESETS_strict); cbn; lia.
Defined.

(** X27.  The limiter written into the middleware decides as
    [checkRateLimitInMemory] does with a window of one minute: the same
    requests are refused, with the same time to wait and the same reset
    time, and the same entries are kept.  The count of requests left that
    it shows is that of [checkRateLimitInMemory] cut at 0 (a count of 0
    requests made being shown as 1). *)
Theorem middleware_agrees (map : Store) (now : Z) (key : string) (maxRequests_ : Z) :
  let config := {| windowMs := RATE_LIMIT_WINDOW; maxRequests := maxRequests_ |} in
  let result := fst (checkRateLimitInMemory map now key config) in
  snd (limit map now key maxRequests_) = snd (checkRateLimitInMemory map now key config) /\
  match fst (limit map now key maxRequests_) with
  | TooManyRequests retry shownLimit reset =>
      success result = false /\ retryAfter result = Some retry /\
      shownLimit = maxRequests_ /\ reset = resetTime result
  | NextLimited shownLimit shown =>
      success result = true /\ shownLimit = maxRequests_ /\
      shown = Z.max 0 (if remaining result =? maxRequests_ then maxRequests_ - 1
                       else remaining result)
  | Next => False
  end.
Proof.
  cbv zeta. unfold limit, checkRateLimitInMemory, Store in *. cbn [windowMs maxRequests].
  destruct (map !! key) as [entry|] eqn:E.
  - destruct (Z.ltb_spec (e_resetTime entry) now) as [Hold|Hlive].
    + rewrite lookup_delete_eq. cbn [fst snd]. rewrite lookup_insert_eq. cbn [count].
      split; [apply insert_delete_eq|]. cbn [success remaining Z.eqb Pos.eqb].
      repeat split.
      destruct (Z.eqb_spec (maxRequests_ - 1) maxRequests_); [lia|reflexivity].
    + rewrite E. destruct (Z.leb_spec maxRequests_ (count entry)) as [Hle|Hgt];
        cbn [fst snd].
      * split; [reflexivity|]. cbn. auto.
      * rewrite lookup_insert_eq. cbn [count success remaining].
        split; [reflexivity|]. repeat split.
        destruct (Z.eqb_spec (count entry + 1) 0) as [H0|H0];
          destruct (Z.eqb_spec (maxRequests_ - (count entry + 1)) maxRequests_);
          try lia; reflexivity.
  - rewrite E. cbn [fst snd]. rewrite lookup_insert_eq.
    cbn [count success remaining Z.eqb Pos.eqb].
    split; [reflexivity|]. repeat split.
    destruct (Z.eqb_spec (maxRequests_ - 1) maxRequests_); [lia|reflexivity].
Qed.

(** ** The client's name *)

(** [getClientIdentifier] never answers the empty string, while the
    middleware's [getClientIP] does, exactly when the first entry of a
    forwarded-for header that is present is blank; whenever [getClientIP]
    is not empty the two agree. *)
Theorem getClientIdentifier_nonempty (forwarded realIp : option string) :
  String.eqb (getClientIdentifier forwarded realIp) "" = false /\
  (getClientIP forwarded realIp = "" <->
   exists f, present forwarded = Some f /\ trim (hd "" (String_split "," f)) = "") /\
  (getClientIP forwarded realIp = getClientIdentifier forwarded realIp \/
   getClientIP forwarded realIp = "").
Proof.
  unfold getClientIdentifier, getClientIP.
  assert (Hreal : String.eqb match present realIp with
                             | Some ip => ip
                             | None => "unknown"
                             end "" = false
                  /\ match present realIp with
                     | Some ip => ip
                     | None => "unknown"
                     end <> "").
  { unfold present. destruct realIp as [ip|]; [|split; [reflexivity|discriminate]].
    destruct (String.eqb_spec ip ""); [split; [reflexivity|discriminate]|].
    split; [now apply String.eqb_neq|assumption]. }
  destruct Hreal as [Hr1 Hr2].
  destruct (present forwarded) as [f|].
  - destruct (String.eqb_spec (trim (hd "" (String_split "," f))) "") as [He|Hne].
    + split; [exact Hr1|]. split; [|now right].
      split; [intros _; now exists f|auto].
    + split; [now apply String.eqb_neq|]. split; [|now left].
      split; [contradiction|]. intros (f' & [= <-] & H). contradiction.
  - split; [exact Hr1|]. split; [|now left].
    split; [contradiction|]. intros (f' & H & _). discriminate.
Qed.

End RateLimitFacts.

(* ===================================================================== *)
(** * The sync route: who is let in                                       *)
(* ===================================================================== *)

Section SyncAuth.
Import Buffer SyncRoute.

Lemma equal_bytes_eq (a b : list ascii) : equal_bytes a b = true <-> a = b.
Proof.
  revert b. induction a as [|x a IH]; intros [|y b]; cbn [equal_bytes];
    try (split; [discriminate|discriminate]); [tauto|].
  rewrite andb_true_iff, IH, Ascii.eqb_eq. split; [intros [-> ->]; reflexivity|].
  intros [= -> ->]. auto.
Qed.

Lemma written_length (s : string) (room pending : nat) :
  (pending <= room)%nat -> (List.length (written s room pending) <= room)%nat.
Proof.
  revert room pending. induction s as [|c s IH]; intros room pending H; cbn [written].
  - cbn. lia.
  - destruct pending as [|p].
    + destruct (Nat.leb_spec (char_bytes c) room) as [Hk|Hk]; [|cbn; lia].
      cbn [List.length]. specialize (IH (room - 1)%nat (char_bytes c - 1)%nat).
      assert (1 <= char_bytes c)%nat.
      { unfold char_bytes. repeat destruct (_ <? _)%N; lia. }
      lia.
    + cbn [List.length]. specialize (IH (room - 1)%nat p). lia.
Qed.

Lemma skipn_repeat {A} (x : A) (k n : nat) : skipn k (repeat x n) = repeat x (n - k).
Proof.
  revert k. induction n as [|n IH]; intros [|k]; cbn; try reflexivity. apply IH.
Qed.

Lemma write_alloc (size : nat) (s : string) :
  write (alloc size) s
  = written s size 0 ++ repeat zero (size - List.length (written s size 0)).
Proof.
  unfold write, alloc. rewrite List.repeat_length. now rewrite skipn_repeat.
Qed.

Lemma write_alloc_length (size : nat) (s : string) :
  List.length (write (alloc size) s) = size.
Proof.
  rewrite write_alloc, List.length_app, List.repeat_length.
  pose proof (written_length s size 0). lia.
Qed.

(** [secureCompare] never throws: the two buffers have the same length. *)
Lemma secureCompare_value (a b : string) :
  secureCompare a b
  = Some ((utf16_length a =? utf16_length b)%nat
          && equal_bytes
               (write (alloc (Nat.max (utf16_length a) (utf16_length b))) a)
               (write (alloc (Nat.max (utf16_length a) (utf16_length b))) b)).
Proof.
  unfold secureCompare, timingSafeEqual. rewrite !write_alloc_length, Nat.eqb_refl.
  now destruct (utf16_length a =? utf16_length b)%nat.
Qed.

Lemma ascii_no_nul_spec (s : string) :
  ascii_no_nul s = true <->
  forall c, In c (list_ascii_of_string s) -> (1 <= N_of_ascii c < 128)%N.
Proof.
  unfold ascii_no_nul. rewrite forallb_forall. split; intros H c Hc; specialize (H c Hc).
  - cbn zeta in H. apply andb_true_iff in H. destruct H as [H1 H2].
    apply N.leb_le in H1. apply N.ltb_lt in H2. lia.
  - cbn zeta. apply andb_true_iff. split; [apply N.leb_le|apply N.ltb_lt]; lia.
Qed.

Lemma ascii_no_nul_utf16 (s : string) :
  ascii_no_nul s = true -> utf16_length s = String.length s.
Proof.
  intros H. apply utf16_length_ascii. apply forallb_forall. intros c Hc.
  apply N.ltb_lt. now apply (proj1 (ascii_no_nul_spec s) H).
Qed.

Lemma char_bytes_ascii (c : ascii) : (N_of_ascii c < 128)%N -> char_bytes c = 1%nat.
Proof.
  intros H. unfold char_bytes. destruct (N.ltb_spec (N_of_ascii c) 192); [reflexivity|lia].
Qed.

Lemma length_list_ascii (s : string) :
  List.length (list_ascii_of_string s) = String.length s.
Proof. induction s as [|c s IH]; [reflexivity|]. cbn. now rewrite IH. Qed.

(** An ASCII string that fits is written whole. *)
Lemma written_ascii (s : string) (room : nat) :
  (forall c, In c (list_ascii_of_string s) -> (N_of_ascii c < 128)%N) ->
  (String.length s <= room)%nat ->
  written s room 0 = list_ascii_of_string s.
Proof.
  revert room. induction s as [|c s IH]; intros room H Hr; [reflexivity|].
  cbn [written list_ascii_of_string String.length] in *.
  rewrite char_bytes_ascii by (apply H; now left).
  destruct (Nat.leb_spec 1 room); [|lia]. cbn [Nat.sub]. f_equal.
  apply IH; [|lia]. intros x Hx. apply H. now right.
Qed.

(** What is written in ASCII up to the end of the buffer is a start of the
    string. *)
Lemma written_start (a : string) (room : nat) :
  (forall c, In c (written a room 0) -> (N_of_ascii c < 128)%N) ->
  List.length (written a room 0) = room ->
  exists rest, a = (string_of_list_ascii (written a room 0) ++ rest)%string.
Proof.
  revert room. induction a as [|c a IH]; intros room H Hl.
  - exists "". reflexivity.
  - cbn [written] in *. destruct (Nat.leb_spec (char_bytes c) room) as [Hk|Hk].
    + assert (Hc : char_bytes c = 1%nat) by (apply char_bytes_ascii, H; now left).
      rewrite Hc in *. cbn [Nat.sub List.length] in *.
      destruct (IH (room - 1)%nat) as [rest Hrest].
      * intros x Hx. apply H. now right.
      * lia.
      * exists rest. cbn [string_of_list_ascii String.append]. now rewrite <- Hrest.
    + exists (String c a). reflexivity.
Qed.

Lemma utf16_length_app (s1 s2 : string) :
  utf16_length (s1 ++ s2)%string = (utf16_length s1 + utf16_length s2)%nat.
Proof.
  induction s1 as [|c s1 IH]; [reflexivity|].
  cbn [String.append utf16_length]. rewrite IH. lia.
Qed.

Lemma utf8_text_after_ascii (b rest : string) :
  (forall c, In c (list_ascii_of_string b) -> (N_of_ascii c < 128)%N) ->
  utf8_text (b ++ rest)%string = true -> utf8_text rest = true.
Proof.
  unfold utf8_text. induction b as [|c b IH]; intros H Ht; [exact Ht|].
  cbn [String.append utf8_text_from list_ascii_of_string] in *.
  rewrite char_bytes_ascii in Ht by (apply H; now left).
  apply andb_true_iff in Ht. apply IH; [|exact (proj2 Ht)].
  intros x Hx. apply H. now right.
Qed.

Lemma utf8_text_no_length (s : string) :
  utf8_text s = true -> utf16_length s = 0%nat -> s = "".
Proof.
  destruct s as [|c s]; [reflexivity|]. unfold utf8_text.
  cbn [utf8_text_from utf16_length]. intros Ht Hl. exfalso.
  apply andb_true_iff in Ht. destruct Ht as [Hc _]. apply negb_true_iff in Hc.
  unfold is_continuation in Hc. cbn zeta in *.
  destruct (N.ltb_spec (N_of_ascii c) 128); cbn [orb] in Hl; [lia|].
  destruct (N.leb_spec 192 (N_of_ascii c)); cbn [andb] in Hl.
  - destruct (N.ltb_spec (N_of_ascii c) 240); [lia|].
    destruct (N.leb_spec 240 (N_of_ascii c)); lia.
  - destruct (N.leb_spec 128 (N_of_ascii c)); [|lia].
    destruct (N.ltb_spec (N_of_ascii c) 192); [discriminate|lia].
Qed.

Lemma string_list_ascii (s : string) : string_of_list_ascii (list_ascii_of_string s) = s.
Proof. induction s as [|c s IH]; [reflexivity|]. cbn. now rewrite IH. Qed.

Lemma string_app_empty (s : string) : (s ++ "")%string = s.
Proof. induction s as [|c s IH]; [reflexivity|]. cbn. now rewrite IH. Qed.

Lemma secureCompare_refl (a : string) : secureCompare a a = Some true.
Proof.
  rewrite secureCompare_value, Nat.eqb_refl. cbn [andb]. f_equal.
  now apply equal_bytes_eq.
Qed.

(** Against ASCII without NUL, [secureCompare] is equality. *)
Lemma secureCompare_ascii_eq (a b : string) :
  utf8_text a = true -> ascii_no_nul b = true ->
  secureCompare a b = Some true <-> a = b.
Proof.
  intros Ha Hb. split; [|intros ->; apply secureCompare_refl].
  rewrite secureCompare_value. intros [= H]. apply andb_true_iff in H.
  destruct H as [Hl Hw]. apply Nat.eqb_eq in Hl. apply equal_bytes_eq in Hw.
  rewrite Hl, Nat.max_id in Hw.
  pose proof (proj1 (ascii_no_nul_spec b) Hb) as Hb'.
  rewrite (ascii_no_nul_utf16 b Hb) in *.
  set (n := String.length b) in *.
  assert (Hwb : write (alloc n) b = list_ascii_of_string b).
  { rewrite write_alloc, written_ascii; [|intros c Hc; apply Hb' in Hc; lia|subst n; lia].
    rewrite length_list_ascii. subst n. rewrite Nat.sub_diag. apply app_nil_r. }
  rewrite Hwb, write_alloc in Hw.
  pose proof (written_length a n 0 (Nat.le_0_l n)) as Hle.
  assert (Hfull : List.length (written a n 0) = n).
  { destruct (Nat.eq_dec (List.length (written a n 0)) n) as [E|E]; [exact E|].
    exfalso.
    assert (Hz : In zero (list_ascii_of_string b)).
    { rewrite <- Hw. apply in_or_app. right.
      destruct (n - List.length (written a n 0))%nat eqn:D; [lia|]. now left. }
    apply Hb' in Hz. cbn in Hz. lia. }
  rewrite Hfull, Nat.sub_diag, app_nil_r in Hw.
  destruct (written_start a n) as [rest Hrest].
  - rewrite Hw. intros c Hc. apply Hb' in Hc. lia.
  - exact Hfull.
  - rewrite Hw, string_list_ascii in Hrest.
    assert (Hr : rest = "").
    { apply utf8_text_no_length.
      - apply (utf8_text_after_ascii b); [intros c Hc; apply Hb' in Hc; lia|].
        now rewrite <- Hrest.
      - rewrite Hrest, utf16_length_app, (ascii_no_nul_utf16 b Hb) in Hl.
        fold n in Hl. lia. }
    rewrite Hr, string_app_empty in Hrest. exact Hrest.
Qed.

Lemma secureCompare_sym (a b : string) : secureCompare a b = secureCompare b a.
Proof.
  rewrite !secureCompare_value. rewrite (Nat.max_comm (utf16_length b)).
  rewrite (Nat.eqb_sym (utf16_length b)). do 2 f_equal.
  match goal with |- equal_bytes ?x ?y = _ =>
    destruct (equal_bytes x y) eqn:E1; destruct (equal_bytes y x) eqn:E2;
      try reflexivity
  end.
  - apply equal_bytes_eq in E1. rewrite E1 in E2.
    assert (T : equal_bytes
                  (write (alloc (Nat.max (utf16_length a) (utf16_length b))) b)
                  (write (alloc (Nat.max (utf16_length a) (utf16_length b))) b) = true)
      by now apply equal_bytes_eq.
    congruence.
  - apply equal_bytes_eq in E2. rewrite E2 in E1.
    assert (T : equal_bytes
                  (write (alloc (Nat.max (utf16_length a) (utf16_length b))) a)
                  (write (alloc (Nat.max (utf16_length a) (utf16_length b))) a) = true)
      by now apply equal_bytes_eq.
    congruence.
Qed.

(** X28.  [secureCompare] never throws and accepts a string compared with
    itself.  Against a string of ASCII characters without NUL (a
    hexadecimal digest, a bearer token of such a secret) it is equality,
    whichever side that string is on: nothing but the string itself is
    accepted. *)
Theorem secureCompare_exact (a b : string) :
  utf8_text a = true -> ascii_no_nul b = true ->
  (secureCompare a b = Some true <-> a = b) /\
  (secureCompare b a = Some true <-> a = b) /\
  (a <> b -> secureCompare a b = Some false) /\
  secureCompare b b = Some true.
Proof.
  intros Ha Hb. pose proof (secureCompare_ascii_eq a b Ha Hb) as H.
  split; [exact H|]. split; [now rewrite secureCompare_sym|].
  split; [|apply secureCompare_refl].
  intros Hne. rewrite secureCompare_value in *.
  destruct (_ && _); [|reflexivity]. exfalso. apply Hne, H. reflexivity.
Qed.

Lemma secureCompare_exact_witness :
  (secureCompare "Bearer s3cret" "Bearer s3cret" = Some true
   <-> "Bearer s3cret" = "Bearer s3cret") /\
  secureCompare "Bearer s3creT" "Bearer s3cret" = Some false.
Proof.
  split.
  - apply (secureCompare_exact "Bearer s3cret" "Bearer s3cret"); reflexivity.
  - apply (secureCompare_exact "Bearer s3creT" "Bearer s3cret");
      [reflexivity|reflexivity|discriminate].
Defined.

(** What follows a text that fills the room is not written. *)
Lemma written_app (t x : string) (room pending : nat) :
  utf8_text_from pending t = true -> (room <= String.length t)%nat ->
  written (t ++ x)%string room pending = written t room pending.
Proof.
  revert room pending. induction t as [|c t IH]; intros room pending Ht Hr.
  - cbn [utf8_text_from] in Ht. apply Nat.eqb_eq in Ht. subst pending.
    cbn [String.length] in Hr. assert (room = 0%nat) by lia. subst room.
    cbn [String.append]. destruct x as [|c x]; [reflexivity|]. cbn [written].
    destruct (Nat.leb_spec (char_bytes c) 0) as [H|H]; [|reflexivity].
    exfalso. unfold char_bytes in H. repeat destruct (_ <? _)%N; lia.
  - cbn [String.append written utf8_text_from String.length] in *.
    destruct pending as [|p]; apply andb_true_iff in Ht; destruct Ht as [_ Ht].
    + destruct (char_bytes c <=? room)%nat; [|reflexivity].
      f_equal. apply IH; [exact Ht|lia].
    + f_equal. apply IH; [exact Ht|lia].
Qed.

(** X29.  Outside ASCII [secureCompare] is not equality.  The buffers have
    as many bytes as the strings have UTF-16 code units, and a text with
    characters of more than one byte has more bytes than that: only a
    start of it is compared.  Two strings of the same length that share a
    start whose bytes fill the buffer are accepted as equal, whatever
    follows that start. *)
Theorem secureCompare_beyond_ascii (t x y : string) :
  utf8_text t = true ->
  utf16_length (t ++ x)%string = utf16_length (t ++ y)%string ->
  (utf16_length (t ++ x)%string <= String.length t)%nat ->
  secureCompare (t ++ x)%string (t ++ y)%string = Some true.
Proof.
  intros Ht Hl Hr. rewrite secureCompare_value, <- Hl, Nat.eqb_refl, Nat.max_id.
  cbn [andb]. f_equal. apply equal_bytes_eq. rewrite !write_alloc.
  now rewrite !(written_app t _ _ 0 Ht Hr).
Qed.

Lemma secureCompare_beyond_ascii_witness :
  secureCompare "Bearer clé1" "Bearer clé2" = Some true.
Proof.
  apply (secureCompare_beyond_ascii "Bearer clé" "1" "2"); [reflexivity|reflexivity|].
  vm_compute. lia.
Defined.

Lemma hex_lower_no_nul (s : string) :
  forallb PoH.is_hex_lower (list_ascii_of_string s) = true -> ascii_no_nul s = true.
Proof.
  intros H. apply ascii_no_nul_spec. intros c Hc.
  rewrite forallb_forall in H. specialize (H c Hc). unfold PoH.is_hex_lower in H.
  cbn zeta in H. apply orb_true_iff in H.
  destruct H as [H|H]; apply andb_true_iff in H; destruct H as [H1 H2];
    apply N.leb_le in H1; apply N.leb_le in H2; lia.
Qed.

Lemma createHmac_shape (key data : string) :
  String.length (createHmac_sha256_hex key data) = 64%nat /\
  ascii_no_nul (createHmac_sha256_hex key data) = true.
Proof.
  unfold createHmac_sha256_hex, HMAC.createHmac_sha256_hex.
  cbv zeta. set (r := SHA256.digest _). cbn [map String.concat].
  split.
  - rewrite !string_length_app. rewrite !(proj1 (hex_word_shape 8 _)). reflexivity.
  - apply hex_lower_no_nul. rewrite !list_ascii_app, !forallb_app.
    rewrite !(proj2 (hex_word_shape 8 _)). reflexivity.
Qed.

Lemma bearer_no_nul (secret : string) :
  ascii_no_nul secret = true -> ascii_no_nul ("Bearer " ++ secret)%string = true.
Proof.
  unfold ascii_no_nul. rewrite list_ascii_app, forallb_app. intros ->. reflexivity.
Qed.

Lemma present_Some (v : option string) (s : string) :
  present v = Some s <-> v = Some s /\ s <> "".
Proof.
  unfold present. destruct v as [x|]; [|split; [discriminate|intros [? _]; discriminate]].
  destruct (String.eqb_spec x "") as [->|Hne].
  - split; [discriminate|]. intros [[= <-] H]. contradiction.
  - split; [intros [= <-]; auto|]. intros [[= <-] _]. reflexivity.
Qed.

(** X30.  Who the sync route lets in.  With a secret configured, made of
    ASCII characters without NUL, a request is authorised exactly when its
    [x-vercel-cron-signature] header is the HMAC-SHA256 of its path and
    query under the secret, in lower-case hexadecimal, or its
    [authorization] header is [Bearer] followed by the secret; a bad
    signature does not stop a good bearer token.  Every other request is
    answered [Unauthorized], and [validateCronAuth] does not throw. *)
Theorem validateCronAuth_iff (secret : string) (development : bool)
        (vercelSignature authHeader : option string) (pathname search : string) :
  trim secret <> "" -> ascii_no_nul secret = true ->
  (forall s, vercelSignature = Some s -> utf8_text s = true) ->
  (forall s, authHeader = Some s -> utf8_text s = true) ->
  exists r,
    validateCronAuth (Some secret) development vercelSignature pathname search authHeader
    = Some r /\
    (valid r = true <->
     vercelSignature = Some (createHmac_sha256_hex secret (pathname ++ search)%string) \/
     authHeader = Some ("Bearer " ++ secret)%string) /\
    error r = (if valid r then None else Some "Unauthorized").
Proof.
  intros Hsecret Hascii Hsig Hauth.
  assert (Hne : secret <> "") by (intros ->; now apply Hsecret).
  unfold validateCronAuth, verifyVercelSignature.
  assert (Hp : present (Some secret) = Some secret).
  { apply present_Some. auto. }
  rewrite Hp. destruct (String.eqb_spec (trim secret) ""); [contradiction|].
  set (expected := createHmac_sha256_hex secret (pathname ++ search)%string).
  set (token := ("Bearer " ++ secret)%string).
  destruct (createHmac_shape secret (pathname ++ search)%string) as [Hlen Hhex]. fold expected in Hlen, Hhex.
  assert (Hexp : expected <> "") by (intros E; rewrite E in Hlen; discriminate).
  assert (Htok : token <> "") by discriminate.
  pose proof (bearer_no_nul secret Hascii) as Hbearer. fold token in Hbearer.
  (* the signature *)
  assert (S : match present vercelSignature with
              | Some sig =>
                  match present (Some sig) with
                  | Some sig' =>
                      match secureCompare sig' expected with
                      | Some r => r
                      | None => false
                      end
                  | None => false
                  end
              | None => false
              end = true <-> vercelSignature = Some expected).
  { destruct (present vercelSignature) as [sig|] eqn:E.
    - apply present_Some in E. destruct E as [-> Hs].
      assert (E' : present (Some sig) = Some sig) by (apply present_Some; auto).
      rewrite E'. pose proof (secureCompare_ascii_eq sig expected (Hsig sig eq_refl) Hhex) as Q.
      rewrite secureCompare_value in *. destruct (_ && _).
      + split; [intros _; f_equal; now apply Q|reflexivity].
      + split; [discriminate|]. intros [= H]. apply Q in H. discriminate.
    - split; [discriminate|]. intros H. exfalso.
      assert (present vercelSignature = Some expected) by (apply present_Some; auto).
      congruence. }
  destruct (match present vercelSignature with
            | Some sig => _
            | None => false
            end) eqn:ES.
  - eexists. split; [reflexivity|]. cbn [valid error]. split; [|reflexivity].
    split; [intros _; left; now apply S|reflexivity].
  - assert (NS : vercelSignature <> Some expected).
    { intros H. apply S in H. discriminate. }
    destruct (present authHeader) as [h|] eqn:E.
    + apply present_Some in E. destruct E as [-> Hh].
      pose proof (secureCompare_ascii_eq h token (Hauth h eq_refl) Hbearer) as Q.
      rewrite secureCompare_value in *. destruct (_ && _).
      * eexists. split; [reflexivity|]. cbn [valid error]. split; [|reflexivity].
        split; [intros _; right; f_equal; now apply Q|reflexivity].
      * eexists. split; [reflexivity|]. cbn [valid error]. split; [|reflexivity].
        split; [discriminate|]. intros [H|[= H]]; [contradiction|].
        apply Q in H. discriminate.
    + eexists. split; [reflexivity|]. cbn [valid error]. split; [|reflexivity].
      split; [discriminate|]. intros [H|H]; [contradiction|]. exfalso.
      assert (present authHeader = Some token) by (apply present_Some; auto).
      congruence.
Qed.

Lemma validateCronAuth_iff_witness :
  exists r,
    validateCronAuth (Some "s3cret") false (Some "0000") "/api/sync" ""
                     (Some "Bearer s3cret") = Some r /\
    (valid r = true <->
     Some "0000" = Some (createHmac_sha256_hex "s3cret" ("/api/sync" ++ "")%string) \/
     Some "Bearer s3cret" = Some ("Bearer " ++ "s3cret")%string) /\
    error r = (if valid r then None else Some "Unauthorized").
Proof.
  apply (validateCronAuth_iff "s3cret" false (Some "0000") (Some "Bearer s3cret")
                              "/api/sync" "").
  - vm_compute. discriminate.
  - reflexivity.
  - intros s [= <-]. reflexivity.
  - intros s [= <-]. reflexivity.
Defined.

End SyncAuth.
